(** * pluto-gps-sim: a shallow embedding of the signal-synthesis core

    The development follows the C sources [plutogpssim.c] (first release)
    and the later reference revision of the same file.  Both revisions
    share the functions modelled here; where they differ (the period of
    the maintenance block of [main]) the difference is a parameter.

    Conventions of the embedding.
    - C [int] values are mathematical integers ([Z]); the quantities
      handled here (calendar fields, day counts, channel indices, PRNs)
      stay far from the limits of a 32-bit [int].  Integer division and
      remainder of C truncate toward zero: [Z.quot] and [Z.rem].
    - C [unsigned long] values are [Z] with the wrap-around modulo
      [2^w] written out where an operation can carry ([w] is 32 or 64
      depending on the platform).
    - C [double] values are exact rationals ([Q]): the real-number
      reading of the arithmetic, without binary64 rounding.  The
      C casts [(int) x] and the functions [floor], [round] are the
      exact ones on [Q].  Library functions with irrational values
      ([cos], [sin]) are parameters of a section.  Where the rounding
      of binary64 can change a result that is an integer (a calendar
      field, a counter, a table index), the theorem keeps to inputs for
      which it cannot, or states the result up to a tolerance; module
      [Binary64] evaluates the same C statements on IEEE binary64
      numbers at the inputs where the two readings part.
    - C arrays are lists read with [!!!] and written with [<[i:=v]>]. *)

From Stdlib Require Import ZArith QArith Qround Qabs Lqa List Bool Lia.
From Stdlib Require Import Floats.
From stdpp Require Import base list.

Local Open Scope Z_scope.

(** ** Navigation-word parity: [countBits] and [computeChecksum] *)

Module Parity.

Section Word.

(** Width of [unsigned long] in bits. *)
Variable w : Z.

Definition wrap (x : Z) : Z := x mod 2 ^ w.

Definition addw (x y : Z) : Z := wrap (x + y).
Definition shlw (x n : Z) : Z := wrap (Z.shiftl x n).

(** [static unsigned long countBits(unsigned long v)] *)
Definition countBits (v : Z) : Z :=
  let S0 := 1 in let S1 := 2 in let S2 := 4 in let S3 := 8 in let S4 := 16 in
  let B0 := 0x55555555 in let B1 := 0x33333333 in let B2 := 0x0F0F0F0F in
  let B3 := 0x00FF00FF in let B4 := 0x0000FFFF in
  let c := v in
  let c := addw (Z.land (Z.shiftr c S0) B0) (Z.land c B0) in
  let c := addw (Z.land (Z.shiftr c S1) B1) (Z.land c B1) in
  let c := addw (Z.land (Z.shiftr c S2) B2) (Z.land c B2) in
  let c := addw (Z.land (Z.shiftr c S3) B3) (Z.land c B3) in
  let c := addw (Z.land (Z.shiftr c S4) B4) (Z.land c B4) in
  c.

Definition bmask : list Z :=
  [ 0x3B1F3480; 0x1D8F9A40; 0x2EC7CD00; 0x1763E680; 0x2BB1F340; 0x0B7A89C0 ].

(** One parity bit: [(Dprev + countBits(bmask[i] & d)) % 2]. *)
Definition parity_bit (Dprev : Z) (i : nat) (d : Z) : Z :=
  (addw Dprev (countBits (Z.land (bmask !!! i) d))) mod 2.

(** [static unsigned long computeChecksum(unsigned long source, int nib)] *)
Definition computeChecksum (source : Z) (nib : bool) : Z :=
  let d := Z.land source 0x3FFFFFC0 in
  let D29 := Z.land (Z.shiftr source 31) 1 in
  let D30 := Z.land (Z.shiftr source 30) 1 in
  let d :=
    if nib then
      let d := if parity_bit D30 4 d =? 0 then d
               else Z.lxor d (shlw 1 6) in
      let d := if parity_bit D29 5 d =? 0 then d
               else Z.lxor d (shlw 1 7) in
      d
    else d in
  let D := d in
  let D := if D30 =? 0 then D else Z.lxor D 0x3FFFFFC0 in
  let D := Z.lor D (shlw (parity_bit D29 0 d) 5) in
  let D := Z.lor D (shlw (parity_bit D30 1 d) 4) in
  let D := Z.lor D (shlw (parity_bit D29 2 d) 3) in
  let D := Z.lor D (shlw (parity_bit D30 3 d) 2) in
  let D := Z.lor D (shlw (parity_bit D30 4 d) 1) in
  let D := Z.lor D (parity_bit D29 5 d) in
  let D := Z.land D 0x3FFFFFFF in
  D.

End Word.

(** The previous word's trailing bits D29* and D30* sit in bits 31 and 30
    of the source word. *)
Definition prev_D29 (source : Z) : bool := Z.testbit source 31.
Definition prev_D30 (source : Z) : bool := Z.testbit source 30.

End Parity.


(** ** C/A code generation: [codegen] *)

Module CACode.

Definition CA_SEQ_LEN : nat := 1023.
Definition N_DWRD_SBF : nat := 10.

(** [int delay[]]: the G2 code-phase delay of PRN 1..32. *)
Definition delay : list Z :=
  [ 5; 6; 7; 8; 17; 18; 139; 140; 141; 251;
    252; 254; 255; 256; 257; 258; 469; 470; 471; 472;
    473; 474; 509; 512; 513; 514; 515; 516; 859; 860;
    861; 862 ].

(** [for (j = 9; j > 0; j--) r[j] = r[j - 1];] followed by [r[0] = c]. *)
Fixpoint shift_down (j : nat) (r : list Z) : list Z :=
  match j with
  | O => r
  | S j' => shift_down j' (<[S j' := r !!! j']> r)
  end.

Definition shift_in (c : Z) (r : list Z) : list Z :=
  <[O := c]> (shift_down 9 r).

(** The feedback taps of the two shift registers. *)
Definition tap1 (r1 : list Z) : Z := (r1 !!! 2%nat) * (r1 !!! 9%nat).
Definition tap2 (r2 : list Z) : Z :=
  (r2 !!! 1%nat) * (r2 !!! 2%nat) * (r2 !!! 5%nat)
  * (r2 !!! 7%nat) * (r2 !!! 8%nat) * (r2 !!! 9%nat).

(** The first loop over [i]: [n] further outputs of the registers,
    [g1[i] = r1[9]] and [g2[i] = r2[9]], in the order of [i]. *)
Fixpoint registers (n : nat) (r1 r2 : list Z) : list Z * list Z :=
  match n with
  | O => ([], [])
  | S n' =>
      let o1 := r1 !!! 9%nat in
      let o2 := r2 !!! 9%nat in
      let c1 := tap1 r1 in
      let c2 := tap2 r2 in
      let '(g1, g2) := registers n' (shift_in c1 r1) (shift_in c2 r2) in
      (o1 :: g1, o2 :: g2)
  end.

(** [g1] and [g2] after the first loop; both registers start at all -1. *)
Definition g1g2 : list Z * list Z :=
  registers CA_SEQ_LEN (replicate N_DWRD_SBF (-1)) (replicate N_DWRD_SBF (-1)).

(** The value stored in [ca[i]] by the second loop, where
    [j = CA_SEQ_LEN - delay[prn - 1] + i]. *)
Definition chip (g1 g2 : list Z) (prn : Z) (i : nat) : Z :=
  let j := Z.of_nat CA_SEQ_LEN - delay !!! Z.to_nat (prn - 1) + Z.of_nat i in
  (1 - (g1 !!! i) * (g2 !!! Z.to_nat (Z.rem j (Z.of_nat CA_SEQ_LEN)))) ÷ 2.

(** The 1023 values written, in the order of [i]. *)
Definition ca_chips (prn : Z) : list Z :=
  let '(g1, g2) := g1g2 in
  map (chip g1 g2 prn) (seq 0 CA_SEQ_LEN).

(** Writing [vs] into an array from index [i] on, one element at a time. *)
Fixpoint store_from (i : nat) (vs : list Z) (ca : list Z) : list Z :=
  match vs with
  | [] => ca
  | v :: vs' => store_from (S i) vs' (<[i := v]> ca)
  end.

(** [static void codegen(int *ca, int prn)]: the caller's array [ca]
    before the call, and after it. *)
Definition codegen (ca : list Z) (prn : Z) : list Z :=
  if (prn <? 1) || (32 <? prn) then ca
  else store_from 0 (ca_chips prn) ca.

(** The modulator reads a chip as [ca[...] * 2 - 1]. *)
Definition pm (c : Z) : Z := c * 2 - 1.

Definition sumZ (l : list Z) : Z := foldr Z.add 0 l.

(** Cyclic cross-correlation of two chip sequences at lag [k]:
    the sum over [i] of [pm a[i] * pm b[(i + k) mod n]]. *)
Definition xcorr (a b : list Z) (k : nat) : Z :=
  sumZ (zip_with (fun x y => pm x * pm y) a (rotate k b)).

Definition count_of (v : Z) (l : list Z) : nat :=
  length (filter (fun x => x = v) l).

End CACode.


(** ** GPS time and calendar time *)

Module GpsTime.

(** [gpstime_t] *)
Record gpstime_t := mk_gpstime {
  week : Z;   (* int week: GPS week number (since January 1980) *)
  sec : Q     (* double sec: second inside the GPS week *)
}.

(** [datetime_t] *)
Record datetime_t := mk_datetime {
  t_y : Z;    (* int y *)
  t_m : Z;    (* int m *)
  t_d : Z;    (* int d *)
  t_hh : Z;   (* int hh *)
  t_mm : Z;   (* int mm *)
  t_sec : Q   (* double sec *)
}.

Definition SECONDS_IN_WEEK : Q := 604800.0.
Definition SECONDS_IN_HALF_WEEK : Q := 302400.0.
Definition SECONDS_IN_DAY : Q := 86400.0.
Definition SECONDS_IN_HOUR : Q := 3600.0.
Definition SECONDS_IN_MINUTE : Q := 60.0.

(** The cast [(double) i]. *)
Definition double_of_int (i : Z) : Q := inject_Z i.

(** The cast [(int) x]: the fraction is discarded (toward zero). *)
Definition int_of_double (x : Q) : Z := Qnum x ÷ Z.pos (Qden x).

(** [floor] and [round] of math.h; [round] takes halves away from zero. *)
Definition floor (x : Q) : Q := inject_Z (Qfloor x).
Definition round (x : Q) : Q :=
  inject_Z (if Qle_bool 0 x then Qfloor (x + 0.5) else Qceiling (x - 0.5)).

(** [x >= y] and [x < y] on doubles. *)
Definition Qgeb (x y : Q) : bool := Qle_bool y x.
Definition Qltb (x y : Q) : bool := negb (Qle_bool y x).

Definition doy : list Z :=
  [ 0; 31; 59; 90; 120; 151; 181; 212; 243; 273; 304; 334 ].

(** [static void date2gps(const datetime_t *t, gpstime_t *g)] *)
Definition date2gps (t : datetime_t) : gpstime_t :=
  let ye := t_y t - 1980 in
  let lpdays := ye ÷ 4 + 1 in
  let lpdays := if (Z.rem ye 4 =? 0) && (t_m t <=? 2) then lpdays - 1 else lpdays in
  let de := ye * 365 + doy !!! Z.to_nat (t_m t - 1) + t_d t + lpdays - 6 in
  {| week := de ÷ 7;
     sec := (double_of_int (Z.rem de 7) * SECONDS_IN_DAY
             + double_of_int (t_hh t) * SECONDS_IN_HOUR
             + double_of_int (t_mm t) * SECONDS_IN_MINUTE
             + t_sec t)%Q |}.

(** [static void gps2date(const gpstime_t *g, datetime_t *t)] *)
Definition gps2date (g : gpstime_t) : datetime_t :=
  let c := int_of_double (double_of_int (7 * week g)
                          + floor (sec g / 86400.0) + 2444245.0)%Q + 1537 in
  let d := int_of_double ((double_of_int c - 122.1) / 365.25)%Q in
  let e := 365 * d + d ÷ 4 in
  let f := int_of_double (double_of_int (c - e) / 30.6001)%Q in
  let td := c - e - int_of_double (30.6001 * double_of_int f)%Q in
  let tm := f - 1 - 12 * (f ÷ 14) in
  let ty := d - 4715 - ((7 + tm) ÷ 10) in
  {| t_y := ty; t_m := tm; t_d := td;
     t_hh := Z.rem (int_of_double (sec g / 3600.0)%Q) 24;
     t_mm := Z.rem (int_of_double (sec g / 60.0)%Q) 60;
     t_sec := (sec g - 60.0 * floor (sec g / 60.0))%Q |}.

(** [static double subGpsTime(gpstime_t g1, gpstime_t g0)] *)
Definition subGpsTime (g1 g0 : gpstime_t) : Q :=
  let dt := (sec g1 - sec g0)%Q in
  (dt + double_of_int (week g1 - week g0) * SECONDS_IN_WEEK)%Q.

(** [while (g1.sec >= SECONDS_IN_WEEK) { g1.sec -= SECONDS_IN_WEEK; g1.week++; }]
    run for at most [n] turns. *)
Fixpoint week_down (n : nat) (g1 : gpstime_t) : gpstime_t :=
  match n with
  | O => g1
  | S n' =>
      if Qgeb (sec g1) SECONDS_IN_WEEK
      then week_down n' {| week := week g1 + 1; sec := (sec g1 - SECONDS_IN_WEEK)%Q |}
      else g1
  end.

(** [while (g1.sec < 0.0) { g1.sec += SECONDS_IN_WEEK; g1.week--; }]
    run for at most [n] turns. *)
Fixpoint week_up (n : nat) (g1 : gpstime_t) : gpstime_t :=
  match n with
  | O => g1
  | S n' =>
      if Qltb (sec g1) 0
      then week_up n' {| week := week g1 - 1; sec := (sec g1 + SECONDS_IN_WEEK)%Q |}
      else g1
  end.

(** A number of turns that either loop cannot exceed when it starts at
    seconds value [s]. *)
Definition turns (s : Q) : nat :=
  S (Z.to_nat (Z.abs (Qfloor (s / SECONDS_IN_WEEK)))).

(** [static gpstime_t incGpsTime(gpstime_t g0, double dt)] *)
Definition incGpsTime (g0 : gpstime_t) (dt : Q) : gpstime_t :=
  let g1 := {| week := week g0; sec := (sec g0 + dt)%Q |} in
  let g1 := {| week := week g1; sec := (round (sec g1 * 1000.0) / 1000.0)%Q |} in
  let g1 := week_down (turns (sec g1)) g1 in
  let g1 := week_up (turns (sec g1)) g1 in
  g1.

(** Two GPS times denote the same instant field by field. *)
Definition gps_eq (g g' : gpstime_t) : Prop :=
  week g = week g' /\ (sec g == sec g')%Q.

(** Seconds elapsed since the GPS epoch. *)
Definition gps_seconds (g : gpstime_t) : Q :=
  (double_of_int (week g) * SECONDS_IN_WEEK + sec g)%Q.

(** Calendar validity of the fields of a [datetime_t]. *)
Definition leap_year (y : Z) : bool :=
  ((y mod 4 =? 0) && negb (y mod 100 =? 0)) || (y mod 400 =? 0).

Definition days_in_month (y m : Z) : Z :=
  if m =? 2 then (if leap_year y then 29 else 28)
  else if (m =? 4) || (m =? 6) || (m =? 9) || (m =? 11) then 30
  else 31.

Definition valid_ymd (y m d : Z) : Prop :=
  1 <= m <= 12 /\ 1 <= d <= days_in_month y m.

Definition valid_datetime (t : datetime_t) : Prop :=
  valid_ymd (t_y t) (t_m t) (t_d t)
  /\ 0 <= t_hh t < 24 /\ 0 <= t_mm t < 60 /\ (0 <= t_sec t /\ t_sec t < 60)%Q.

(** The date is not before the GPS epoch, 1980-01-06. *)
Definition from_epoch (t : datetime_t) : Prop :=
  1980 < t_y t \/ (t_y t = 1980 /\ (1 < t_m t \/ 6 <= t_d t)).

(** Two calendar times agree: equal integer fields, seconds within 1 ms. *)
Definition same_datetime (t t' : datetime_t) : Prop :=
  t_y t = t_y t' /\ t_m t = t_m t' /\ t_d t = t_d t'
  /\ t_hh t = t_hh t' /\ t_mm t = t_mm t'
  /\ (Qabs (t_sec t - t_sec t') <= 0.001)%Q.

End GpsTime.


(** ** RINEX navigation files: grouping of records into ephemeris sets *)

Module Rinex.
Import GpsTime.

Definition EPHEM_ARRAY_SIZE : Z := 13.

(** The variables of the block loop that decide the set of a record:
    the anchor [g0] of the current set and the set index [ieph]. *)
Record cursor := mk_cursor {
  g0 : gpstime_t;
  ieph : Z
}.

(** Before the loop: [g0.week = -1; ieph = 0;] ([g0.sec] is not set). *)
Definition start (s : Q) : cursor :=
  {| g0 := {| week := -1; sec := s |}; ieph := 0 |}.

(** The anchor against which the TOC [g] of a record is compared:
    [if (g0.week == -1) g0 = g;]. *)
Definition anchor (c : cursor) (g : gpstime_t) : gpstime_t :=
  if week (g0 c) =? -1 then g else g0 c.

(** One record with parsed TOC [g]: the cursor afterwards, and the set
    that receives the record ([None] when the loop leaves by [break]
    because the table of sets is full).

    [dt = subGpsTime(g, g0);
     if (dt > SECONDS_IN_HOUR) { g0 = g; ieph++; if (ieph >= EPHEM_ARRAY_SIZE) break; }
     eph[ieph][sv].toc = g;] *)
Definition place_record (c : cursor) (g : gpstime_t) : cursor * option Z :=
  let a := anchor c g in
  let dt := subGpsTime g a in
  if Qltb SECONDS_IN_HOUR dt then
    let c' := {| g0 := g; ieph := ieph c + 1 |} in
    if EPHEM_ARRAY_SIZE <=? ieph c' then (c', None) else (c', Some (ieph c'))
  else
    ({| g0 := a; ieph := ieph c |}, Some (ieph c)).

(** The block loop over the TOCs of the records of a file, in file order:
    the set of every record stored before the loop ends. *)
Fixpoint place_records (c : cursor) (gs : list gpstime_t) : list (gpstime_t * Z) :=
  match gs with
  | [] => []
  | g :: gs' =>
      match place_record c g with
      | (c', Some i) => (g, i) :: place_records c' gs'
      | (_, None) => []
      end
  end.

End Rinex.

(** ** The signal engine: ranges, channels and the main loop *)

Module Engine.
Import GpsTime.

Definition MAX_SAT : nat := 32.
Definition MAX_CHAN : nat := 12.
Definition N_SBF : nat := 5.
Definition N_DWRD_SBF : nat := 10.
Definition N_DWRD : nat := (N_SBF + 1) * N_DWRD_SBF.

Definition PI : Q := 3.1415926535898.
Definition OMEGA_EARTH : Q := 7.2921151467e-5.
Definition R2D : Q := 57.2957795131.
Definition SPEED_OF_LIGHT : Q := 2.99792458e8.
Definition LAMBDA_L1 : Q := 0.190293672798365.

(** [double v[3]] *)
Record vec3 := mk_vec3 { v0 : Q; v1 : Q; v2 : Q }.

(** [ephem_t] *)
Record ephem_t := mk_ephem {
  e_vflg : bool;
  e_t : datetime_t;
  toc : gpstime_t;
  toe : gpstime_t;
  iodc : Z; iode : Z;
  deltan : Q; cuc : Q; cus : Q; cic : Q; cis : Q; crc : Q; crs : Q;
  ecc : Q; sqrta : Q; m0 : Q; omg0 : Q; inc0 : Q; aop : Q;
  omgdot : Q; idot : Q; af0 : Q; af1 : Q; af2 : Q; tgd : Q;
  svhlth : Z; codeL2 : Z;
  e_n : Q; sq1e2 : Q; e_A : Q; omgkdot : Q
}.

(** [ionoutc_t] *)
Record ionoutc_t := mk_ionoutc {
  enable : bool;
  vflg : bool;
  alpha0 : Q; alpha1 : Q; alpha2 : Q; alpha3 : Q;
  beta0 : Q; beta1 : Q; beta2 : Q; beta3 : Q;
  A0 : Q; A1 : Q;
  dtls : Z; tot : Z; wnt : Z;
  dtlsf : Z; dn : Z; wnlsf : Z
}.

(** [range_t]; [azel] is [double azel[2]]. *)
Record range_t := mk_range {
  r_g : gpstime_t;
  range : Q;
  rate : Q;
  r_d : Q;
  r_azel : Q * Q;
  iono_delay : Q
}.

(** [channel_t] (built with [FLOAT_CARR_PHASE], as the header defines it). *)
Record channel_t := mk_channel {
  prn : Z;
  ca : list Z;
  f_carr : Q;
  f_code : Q;
  carr_phase : Q;
  code_phase : Q;
  c_g0 : gpstime_t;
  sbf : list (list Z);
  dwrd : list Z;
  iword : Z; ibit : Z; icode : Z;
  dataBit : Z; codeCA : Z;
  azel : Q * Q;
  rho0 : range_t
}.

Definition set_prn (v : Z) (c : channel_t) : channel_t :=
  mk_channel v (ca c) (f_carr c) (f_code c) (carr_phase c) (code_phase c)
    (c_g0 c) (sbf c) (dwrd c) (iword c) (ibit c) (icode c) (dataBit c)
    (codeCA c) (azel c) (rho0 c).
Definition set_ca (v : list Z) (c : channel_t) : channel_t :=
  mk_channel (prn c) v (f_carr c) (f_code c) (carr_phase c) (code_phase c)
    (c_g0 c) (sbf c) (dwrd c) (iword c) (ibit c) (icode c) (dataBit c)
    (codeCA c) (azel c) (rho0 c).
Definition set_carr_phase (v : Q) (c : channel_t) : channel_t :=
  mk_channel (prn c) (ca c) (f_carr c) (f_code c) v (code_phase c)
    (c_g0 c) (sbf c) (dwrd c) (iword c) (ibit c) (icode c) (dataBit c)
    (codeCA c) (azel c) (rho0 c).
Definition set_g0 (v : gpstime_t) (c : channel_t) : channel_t :=
  mk_channel (prn c) (ca c) (f_carr c) (f_code c) (carr_phase c) (code_phase c)
    v (sbf c) (dwrd c) (iword c) (ibit c) (icode c) (dataBit c)
    (codeCA c) (azel c) (rho0 c).
Definition set_sbf (v : list (list Z)) (c : channel_t) : channel_t :=
  mk_channel (prn c) (ca c) (f_carr c) (f_code c) (carr_phase c) (code_phase c)
    (c_g0 c) v (dwrd c) (iword c) (ibit c) (icode c) (dataBit c)
    (codeCA c) (azel c) (rho0 c).
Definition set_dwrd (v : list Z) (c : channel_t) : channel_t :=
  mk_channel (prn c) (ca c) (f_carr c) (f_code c) (carr_phase c) (code_phase c)
    (c_g0 c) (sbf c) v (iword c) (ibit c) (icode c) (dataBit c)
    (codeCA c) (azel c) (rho0 c).
Definition set_azel (v : Q * Q) (c : channel_t) : channel_t :=
  mk_channel (prn c) (ca c) (f_carr c) (f_code c) (carr_phase c) (code_phase c)
    (c_g0 c) (sbf c) (dwrd c) (iword c) (ibit c) (icode c) (dataBit c)
    (codeCA c) v (rho0 c).
Definition set_rho0 (v : range_t) (c : channel_t) : channel_t :=
  mk_channel (prn c) (ca c) (f_carr c) (f_code c) (carr_phase c) (code_phase c)
    (c_g0 c) (sbf c) (dwrd c) (iword c) (ibit c) (icode c) (dataBit c)
    (codeCA c) (azel c) v.

(** What the engine takes from outside the functions modelled here:
    the math library, the width of [unsigned long], and the functions
    [satpos], [xyz2llh] and [eph2sbf] of the same source file. *)
Class Env := mk_env {
  cos : Q -> Q;
  sin : Q -> Q;
  sqrt : Q -> Q;
  atan2 : Q -> Q -> Q;
  ulong_bits : Z;
  (* satpos(eph, g, pos, vel, clk): the outputs pos, vel and clk[0], clk[1] *)
  satpos : ephem_t -> gpstime_t -> vec3 * vec3 * (Q * Q);
  (* xyz2llh(xyz, llh): the output llh *)
  xyz2llh : vec3 -> vec3;
  (* eph2sbf(eph, ionoutc, sbf): the output sbf[5][N_DWRD_SBF] *)
  eph2sbf : ephem_t -> ionoutc_t -> list (list Z)
}.

Section Model.
Context {env : Env}.

Local Open Scope Q_scope.

(** *** Vectors and look angles *)

Definition subVect (x1 x2 : vec3) : vec3 :=
  {| v0 := v0 x1 - v0 x2; v1 := v1 x1 - v1 x2; v2 := v2 x1 - v2 x2 |}.

Definition normVect (x : vec3) : Q :=
  sqrt (v0 x * v0 x + v1 x * v1 x + v2 x * v2 x).

Definition dotProd (x1 x2 : vec3) : Q :=
  v0 x1 * v0 x2 + v1 x1 * v1 x2 + v2 x1 * v2 x2.

(** [ltcmat]: the rows of [t[3][3]]. *)
Definition ltcmat (llh : vec3) : vec3 * vec3 * vec3 :=
  let slat := sin (v0 llh) in
  let clat := cos (v0 llh) in
  let slon := sin (v1 llh) in
  let clon := cos (v1 llh) in
  ( {| v0 := - slat * clon; v1 := - slat * slon; v2 := clat |},
    {| v0 := - slon; v1 := clon; v2 := 0.0 |},
    {| v0 := clat * clon; v1 := clat * slon; v2 := slat |} ).

Definition ecef2neu (xyz : vec3) (t : vec3 * vec3 * vec3) : vec3 :=
  let '(t0, t1, t2) := t in
  {| v0 := v0 t0 * v0 xyz + v1 t0 * v1 xyz + v2 t0 * v2 xyz;
     v1 := v0 t1 * v0 xyz + v1 t1 * v1 xyz + v2 t1 * v2 xyz;
     v2 := v0 t2 * v0 xyz + v1 t2 * v1 xyz + v2 t2 * v2 xyz |}.

Definition neu2azel (neu : vec3) : Q * Q :=
  let az := atan2 (v1 neu) (v0 neu) in
  let az := if Qltb az 0.0 then az + 2.0 * PI else az in
  let ne := sqrt (v0 neu * v0 neu + v1 neu * v1 neu) in
  (az, atan2 (v2 neu) ne).

(** *** Ionospheric delay *)

(** [while (t >= SECONDS_IN_DAY) t -= SECONDS_IN_DAY;], at most [n] turns. *)
Fixpoint day_down (n : nat) (t : Q) : Q :=
  match n with
  | O => t
  | S n' => if Qgeb t SECONDS_IN_DAY then day_down n' (t - SECONDS_IN_DAY) else t
  end.

(** [while (t < 0) t += SECONDS_IN_DAY;], at most [n] turns. *)
Fixpoint day_up (n : nat) (t : Q) : Q :=
  match n with
  | O => t
  | S n' => if Qltb t 0 then day_up n' (t + SECONDS_IN_DAY) else t
  end.

Definition day_turns (t : Q) : nat :=
  S (Z.to_nat (Z.abs (Qfloor (t / SECONDS_IN_DAY)))).

(** The obliquity factor [F = 1.0 + 16.0 * pow((0.53 - E), 3.0)]. *)
Definition obliquity (E : Q) : Q := 1.0 + 16.0 * (0.53 - E) ^ 3.

(** [static double ionosphericDelay(const ionoutc_t *ionoutc, gpstime_t g,
    double *llh, double *azel)] *)
Definition ionosphericDelay (ionoutc : ionoutc_t) (g : gpstime_t)
    (llh : vec3) (azel : Q * Q) : Q :=
  if negb (enable ionoutc) then 0.0
  else
    let E := snd azel / PI in
    let phi_u := v0 llh / PI in
    let lam_u := v1 llh / PI in
    let F := obliquity E in
    if negb (vflg ionoutc) then F * 5.0e-9 * SPEED_OF_LIGHT
    else
      let psi := 0.0137 / (E + 0.11) - 0.022 in
      let phi_i := phi_u + psi * cos (fst azel) in
      let phi_i := if Qltb 0.416 phi_i then 0.416
                   else if Qltb phi_i (-0.416) then -0.416 else phi_i in
      let lam_i := lam_u + psi * sin (fst azel) / cos (phi_i * PI) in
      let phi_m := phi_i + 0.064 * cos ((lam_i - 1.617) * PI) in
      let phi_m2 := phi_m * phi_m in
      let phi_m3 := phi_m2 * phi_m in
      let AMP := alpha0 ionoutc + alpha1 ionoutc * phi_m
                 + alpha2 ionoutc * phi_m2 + alpha3 ionoutc * phi_m3 in
      let AMP := if Qltb AMP 0.0 then 0.0 else AMP in
      let PER := beta0 ionoutc + beta1 ionoutc * phi_m
                 + beta2 ionoutc * phi_m2 + beta3 ionoutc * phi_m3 in
      let PER := if Qltb PER 72000.0 then 72000.0 else PER in
      let t := SECONDS_IN_DAY / 2.0 * lam_i + sec g in
      let t := day_down (day_turns t) t in
      let t := day_up (day_turns t) t in
      let X := 2.0 * PI * (t - 50400.0) / PER in
      if Qltb (Qabs X) 1.57 then
        let X2 := X * X in
        let X4 := X2 * X2 in
        F * (5.0e-9 + AMP * (1.0 - X2 / 2.0 + X4 / 24.0)) * SPEED_OF_LIGHT
      else F * 5.0e-9 * SPEED_OF_LIGHT.

(** [static void computeRange(range_t *rho, ephem_t eph, ionoutc_t *ionoutc,
    gpstime_t g, double xyz[])]: every field of [*rho] is written. *)
Definition computeRange (eph : ephem_t) (ionoutc : ionoutc_t)
    (g : gpstime_t) (xyz : vec3) : range_t :=
  let '(pos, vel, clk) := satpos eph g in
  let los := subVect pos xyz in
  let tau := normVect los / SPEED_OF_LIGHT in
  let pos := {| v0 := v0 pos - v0 vel * tau;
                v1 := v1 pos - v1 vel * tau;
                v2 := v2 pos - v2 vel * tau |} in
  let xrot := v0 pos + v1 pos * OMEGA_EARTH * tau in
  let yrot := v1 pos - v0 pos * OMEGA_EARTH * tau in
  let pos := {| v0 := xrot; v1 := yrot; v2 := v2 pos |} in
  let los := subVect pos xyz in
  let rng := normVect los in
  let rho_d := rng in
  let rho_range := rng - SPEED_OF_LIGHT * fst clk in
  let rho_rate := dotProd vel los / rng in
  let llh := xyz2llh xyz in
  let tmat := ltcmat llh in
  let neu := ecef2neu los tmat in
  let rho_azel := neu2azel neu in
  let rho_iono := ionosphericDelay ionoutc g llh rho_azel in
  {| r_g := g;
     range := rho_range + rho_iono;
     rate := rho_rate;
     r_d := rho_d;
     r_azel := rho_azel;
     iono_delay := rho_iono |}.

(** [static int checkSatVisibility(ephem_t eph, gpstime_t g, double *xyz,
    double elvMask, double *azel)]: the returned value and [azel] after
    the call ([azel] is written only for a valid record). *)
Definition checkSatVisibility (eph : ephem_t) (g : gpstime_t) (xyz : vec3)
    (elvMask : Q) (azel : Q * Q) : Z * (Q * Q) :=
  if negb (e_vflg eph) then ((-1)%Z, azel)
  else
    let llh := xyz2llh xyz in
    let tmat := ltcmat llh in
    let '(pos, vel, clk) := satpos eph g in
    let los := subVect pos xyz in
    let neu := ecef2neu los tmat in
    let azel := neu2azel neu in
    if Qltb elvMask (snd azel * R2D) then (1%Z, azel) else (0%Z, azel).

(** *** Navigation message *)

Local Open Scope Z_scope.

(** Value of an [unsigned] (32 bits) and of an [unsigned long]. *)
Definition uint (x : Z) : Z := x mod 2 ^ 32.
Definition ulong (x : Z) : Z := Parity.wrap ulong_bits x.

(** The body of the loops over [iwrd]: the word stored in [dwrd], from
    the source word [chan->sbf[isbf][iwrd]].  [with_wn] is the test
    [(isbf == 0) && (iwrd == 2)] of the second loop. *)
Definition nav_word (src : Z) (with_wn : bool) (iwrd : nat)
    (wn tow prevwrd : Z) : Z :=
  let sbfwrd := uint src in
  let sbfwrd :=
    if with_wn
    then uint (Z.lor sbfwrd (Parity.shlw ulong_bits (Z.land wn 0x3FF) 20))
    else sbfwrd in
  let sbfwrd :=
    if (iwrd =? 1)%nat
    then uint (Z.lor sbfwrd (Parity.shlw ulong_bits (Z.land tow 0x1FFFF) 13))
    else sbfwrd in
  let sbfwrd :=
    uint (Z.lor sbfwrd (Z.land (Parity.shlw ulong_bits prevwrd 30) 0xC0000000)) in
  let nib := (iwrd =? 1)%nat || (iwrd =? 9)%nat in
  Parity.computeChecksum ulong_bits sbfwrd nib.

(** One subframe: ten words written to [dwrd[base + iwrd]]; the state is
    [dwrd] and [prevwrd]. *)
Definition nav_subframe (row : list Z) (is_sbf1 : bool) (wn tow : Z)
    (base : nat) (st : list Z * Z) : list Z * Z :=
  foldl (fun '(dwrd, prevwrd) iwrd =>
           let v := nav_word (row !!! iwrd) (is_sbf1 && (iwrd =? 2)%nat)
                      iwrd wn tow prevwrd in
           let dwrd := <[(base + iwrd)%nat := v]> dwrd in
           (dwrd, dwrd !!! (base + iwrd)%nat))
        st (seq 0 N_DWRD_SBF).

(** [else] branch: the last subframe of the previous batch moves to the front. *)
Definition nav_keep_last (st : list Z * Z) : list Z * Z :=
  foldl (fun '(dwrd, prevwrd) iwrd =>
           let dwrd := <[iwrd := dwrd !!! (N_DWRD_SBF * N_SBF + iwrd)%nat]> dwrd in
           (dwrd, dwrd !!! iwrd))
        st (seq 0 N_DWRD_SBF).

(** [static int generateNavMsg(gpstime_t g, channel_t *chan, int init)]:
    the channel after the call (the function always returns 1). *)
Definition generateNavMsg (g : gpstime_t) (c : channel_t) (init : bool) : channel_t :=
  let g0 := {| week := week g;
               sec := (double_of_int (ulong (int_of_double (sec g + 0.5)%Q) / 30)
                       * 30.0)%Q |} in
  let c := set_g0 g0 c in
  let wn := ulong (Z.rem (week g0) 1024) in
  let tow := ulong (int_of_double (sec g0)) / 6 in
  let st :=
    if init
    then nav_subframe (sbf c !!! 4%nat) false wn tow 0 (dwrd c, 0)
    else nav_keep_last (dwrd c, 0) in
  let '(tow, st) :=
    foldl (fun '(tow, st) isbf =>
             let tow := Parity.addw ulong_bits tow 1 in
             (tow, nav_subframe (sbf c !!! isbf) (isbf =? 0)%nat wn tow
                     ((isbf + 1) * N_DWRD_SBF)%nat st))
          (tow, st) (seq 0 N_SBF) in
  set_dwrd (fst st) c.

(** *** Channel allocation *)

Definition zero_time : gpstime_t := {| week := 0; sec := 0 |}.
Definition zero_range : range_t := mk_range zero_time 0 0 0 (0, 0)%Q 0.
Definition zero_channel : channel_t :=
  mk_channel 0 [] 0 0 0 0 zero_time [] [] 0 0 0 0 0 (0, 0)%Q zero_range.
Definition zero_ephem : ephem_t :=
  mk_ephem false (mk_datetime 0 0 0 0 0 0) zero_time zero_time 0 0
    0 0 0 0 0 0 0 0 0 0 0 0 0 0 0 0 0 0 0 0 0 0 0 0 0.

#[export] Instance channel_inhabited : Inhabited channel_t := populate zero_channel.
#[export] Instance ephem_inhabited : Inhabited ephem_t := populate zero_ephem.
#[export] Instance vec3_inhabited : Inhabited vec3 := populate (mk_vec3 0 0 0).

(** The channel array of [main] and the file-level table [allocatedSat]. *)
Record sched_t := mk_sched {
  chan : list channel_t;
  allocatedSat : list Z
}.

(** [for (i = 0; i < MAX_CHAN; i++) if (chan[i].prn == 0) { ...; break; }]:
    the value of [i] after the loop, [n] channels still to visit. *)
Fixpoint first_idle (n i : nat) (ch : list channel_t) : nat :=
  match n with
  | O => i
  | S n' => if prn (ch !!! i) =? 0 then i else first_idle n' (S i) ch
  end.

(** The statements under "Initialize channel" for satellite index [sv]. *)
Definition init_channel (eph_sv : ephem_t) (ionoutc : ionoutc_t)
    (grx : gpstime_t) (xyz : vec3) (sv : nat) (azel : Q * Q)
    (c : channel_t) : channel_t :=
  let ref := mk_vec3 0.0 0.0 0.0 in
  let c := set_prn (Z.of_nat sv + 1) c in
  let c := set_azel azel c in
  let c := set_ca (CACode.codegen (ca c) (prn c)) c in
  let c := set_sbf (eph2sbf eph_sv ionoutc) c in
  let c := generateNavMsg grx c true in
  let rho := computeRange eph_sv ionoutc grx xyz in
  let c := set_rho0 rho c in
  let r_xyz := range rho in
  let rho := computeRange eph_sv ionoutc grx ref in
  let r_ref := range rho in
  let phase_ini := ((2.0 * r_ref - r_xyz) / LAMBDA_L1)%Q in
  set_carr_phase (phase_ini - floor phase_ini)%Q c.

(** The body of the loop over [sv]; the state is [nsat], the local
    [azel] and the two tables. *)
Definition allocate_sv (eph : list ephem_t) (ionoutc : ionoutc_t)
    (grx : gpstime_t) (xyz : vec3)
    (st : Z * (Q * Q) * sched_t) (sv : nat) : Z * (Q * Q) * sched_t :=
  let '(nsat, azel, s) := st in
  let '(vis, azel) := checkSatVisibility (eph !!! sv) grx xyz 0.0 azel in
  if vis =? 1 then
    let nsat := nsat + 1 in
    if allocatedSat s !!! sv =? -1 then
      let i := first_idle MAX_CHAN 0 (chan s) in
      if (i <? MAX_CHAN)%nat then
        let c := init_channel (eph !!! sv) ionoutc grx xyz sv azel (chan s !!! i) in
        (nsat, azel, {| chan := <[i := c]> (chan s);
                        allocatedSat := <[sv := Z.of_nat i]> (allocatedSat s) |})
      else (nsat, azel, s)
    else (nsat, azel, s)
  else if 0 <=? allocatedSat s !!! sv then
    let i := Z.to_nat (allocatedSat s !!! sv) in
    (nsat, azel, {| chan := <[i := set_prn 0 (chan s !!! i)]> (chan s);
                    allocatedSat := <[sv := -1]> (allocatedSat s) |})
  else (nsat, azel, s).

(** [static int allocateChannel(channel_t *chan, ephem_t *eph,
    ionoutc_t ionoutc, gpstime_t grx, double *xyz, double elvMask)]:
    the returned [nsat] and the tables after the call.  [elvMask] is not
    used; the local [azel] is written before it is read. *)
Definition allocateChannel (eph : list ephem_t) (ionoutc : ionoutc_t)
    (grx : gpstime_t) (xyz : vec3) (elvMask : Q) (s : sched_t) : Z * sched_t :=
  let '(nsat, _, s) :=
    foldl (allocate_sv eph ionoutc grx xyz) (0, (0, 0)%Q, s) (seq 0 MAX_SAT) in
  (nsat, s).

(** [main]: "Clear all channels" and "Clear satellite allocation flag". *)
Definition clear_tables (ch : list channel_t) : sched_t :=
  {| chan := set_prn 0 <$> ch;
     allocatedSat := replicate MAX_SAT (-1) |}.

(** *** The main loop: periodic maintenance and time advance *)

(** What [main] holds fixed while it streams. *)
Record scenario := mk_scenario {
  sc_eph : list (list ephem_t);      (* eph[EPHEM_ARRAY_SIZE][MAX_SAT] *)
  sc_ionoutc : ionoutc_t;
  sc_xyz : list vec3;                (* xyz[USER_MOTION_SIZE][3] *)
  staticLocationMode : bool;
  numd : Z;
  elvmask : Q
}.

(** The variables of [main] that the loop updates. *)
Record sim_t := mk_sim {
  grx : gpstime_t;
  ieph : nat;
  iumd : Z;
  tables : sched_t
}.

(** The two revisions of the source differ in the modulus of the
    maintenance test and in the update of the position index. *)
Inductive revision := FirstRelease | Reference.

Definition maintenance_modulus (rev : revision) : Z :=
  match rev with
  | FirstRelease => 100
  | Reference => 300
  end.

(** [igrx = (int) (grx.sec * 10.0 + 0.5);] *)
Definition igrx_of (g : gpstime_t) : Z :=
  int_of_double (sec g * 10.0 + 0.5)%Q.

(** The test [igrx % 300 == 0] (reference) or [igrx % 100 == 0] (first release). *)
Definition maintenance_due (rev : revision) (g : gpstime_t) : bool :=
  Z.rem (igrx_of g) (maintenance_modulus rev) =? 0.

(** [for (i = 0; i < MAX_CHAN; i++) if (test chan[i]) chan[i] = f chan[i]]. *)
Definition for_channels (test : channel_t -> bool) (f : channel_t -> channel_t)
    (ch : list channel_t) : list channel_t :=
  foldl (fun ch i => if test (ch !!! i) then <[i := f (ch !!! i)]> ch else ch)
        ch (seq 0 MAX_CHAN).

(** [for (sv = 0; sv < MAX_SAT; sv++) if (eph[..][sv].vflg == 1) { ...; break; }]:
    the first valid record of a set, [n] satellites still to visit. *)
Fixpoint first_valid (n sv : nat) (row : list ephem_t) : option nat :=
  match n with
  | O => None
  | S n' => if e_vflg (row !!! sv) then Some sv else first_valid n' (S sv) row
  end.

(** The position handed to [allocateChannel] and [computeRange]. *)
Definition position (sc : scenario) (st : sim_t) : vec3 :=
  if staticLocationMode sc then sc_xyz sc !!! 0%nat
  else sc_xyz sc !!! Z.to_nat (iumd st).

(** The block under "Update navigation message and channel allocation
    every 30 seconds". *)
Definition maintenance (sc : scenario) (st : sim_t) : sim_t :=
  let g := grx st in
  (* Update navigation message *)
  let ch := for_channels (fun c => 0 <? prn c)
              (fun c => generateNavMsg g c false) (chan (tables st)) in
  (* Refresh ephemeris and subframes *)
  let next := sc_eph sc !!! (S (ieph st)) in
  let '(ie, ch) :=
    match first_valid MAX_SAT 0 next with
    | Some sv =>
        let dt := subGpsTime (toc (next !!! sv)) g in
        if Qltb dt SECONDS_IN_HOUR then
          let ie := S (ieph st) in
          (ie, for_channels (fun c => negb (prn c =? 0))
                 (fun c => set_sbf (eph2sbf ((sc_eph sc !!! ie) !!! Z.to_nat (prn c - 1))
                                       (sc_ionoutc sc)) c) ch)
        else (ieph st, ch)
    | None => (ieph st, ch)
    end in
  (* Update channel allocation *)
  let st := {| grx := g; ieph := ie; iumd := iumd st;
               tables := {| chan := ch; allocatedSat := allocatedSat (tables st) |} |} in
  let '(_, s) := allocateChannel (sc_eph sc !!! ie) (sc_ionoutc sc) g
                   (position sc st) (elvmask sc) (tables st) in
  {| grx := g; ieph := ie; iumd := iumd st; tables := s |}.

(** "Update receiver time": [grx = incGpsTime(grx, 0.1);] and, in the
    reference revision, [iumd++; if (iumd >= numd) iumd = 0;]. *)
Definition advance (rev : revision) (sc : scenario) (st : sim_t) : sim_t :=
  let g := incGpsTime (grx st) 0.1 in
  match rev with
  | FirstRelease => {| grx := g; ieph := ieph st; iumd := iumd st; tables := tables st |}
  | Reference =>
      let i := iumd st + 1 in
      let i := if numd sc <=? i then 0 else i in
      {| grx := g; ieph := ieph st; iumd := i; tables := tables st |}
  end.

(** The end of one turn of [while (!plutotx.exit)], after the buffer
    has been handed over: maintenance when due, then the time advance. *)
Definition loop_tail (rev : revision) (sc : scenario) (st : sim_t) : sim_t :=
  let st := if maintenance_due rev (grx st) then maintenance sc st else st in
  advance rev sc st.

(** One turn of the loop.  [head] stands for its first part (range
    refresh, code phase and gain of every allocated channel, and the
    sample loop), which writes channel fields only: it gives the
    channel array after that part. *)
Definition loop_body (rev : revision) (sc : scenario)
    (head : sim_t -> list channel_t) (st : sim_t) : sim_t :=
  loop_tail rev sc
    {| grx := grx st; ieph := ieph st; iumd := iumd st;
       tables := {| chan := head st; allocatedSat := allocatedSat (tables st) |} |}.

(** The state after [n] turns. *)
Fixpoint run (rev : revision) (sc : scenario)
    (head : sim_t -> list channel_t) (n : nat) (st : sim_t) : sim_t :=
  match n with
  | O => st
  | S n' => loop_body rev sc head (run rev sc head n' st)
  end.

(** The state on entry to the loop, from the scenario start time [g0],
    the selected set [ieph0] and the channel array [ch] as allocated. *)
Definition loop_entry (sc : scenario) (g0 : gpstime_t) (ieph0 : nat)
    (ch : list channel_t) : sim_t :=
  let g := incGpsTime g0 0.0 in
  let '(_, s) := allocateChannel (sc_eph sc !!! ieph0) (sc_ionoutc sc) g
                   (sc_xyz sc !!! 0%nat) (elvmask sc) (clear_tables ch) in
  {| grx := incGpsTime g 0.1; ieph := ieph0; iumd := 0; tables := s |}.

End Model.

End Engine.

(** ** Subframes from an ephemeris: [eph2sbf] *)

Module Subframe.
Import GpsTime Engine.

Definition POW2_M5 : Q := 0.03125.
Definition POW2_M19 : Q := 1.907348632812500e-6.
Definition POW2_M29 : Q := 1.862645149230957e-9.
Definition POW2_M31 : Q := 4.656612873077393e-10.
Definition POW2_M33 : Q := 1.164153218269348e-10.
Definition POW2_M43 : Q := 1.136868377216160e-13.
Definition POW2_M55 : Q := 2.775557561562891e-17.
Definition POW2_M50 : Q := 8.881784197001252e-016.
Definition POW2_M30 : Q := 9.313225746154785e-010.
Definition POW2_M27 : Q := 7.450580596923828e-009.
Definition POW2_M24 : Q := 5.960464477539063e-008.

Section Word.

(** Width of [unsigned long] in bits. *)
Variable w : Z.

(** The conversion of an integer to [unsigned long]. *)
Definition ulong_of (x : Z) : Z := Parity.wrap w x.

(** [x & m] and [x << k] on [unsigned long]. *)
Definition band (x m : Z) : Z := Z.land (ulong_of x) m.
Definition shl (x k : Z) : Z := Parity.shlw w x k.

(** [static void eph2sbf(const ephem_t eph, const ionoutc_t ionoutc,
    unsigned long sbf[5][N_DWRD_SBF])]: the array [sbf] after the call
    (every element is written).  Casts of a [double] to [long] or
    [unsigned long] discard the fraction. *)
Definition eph2sbf (eph : ephem_t) (ionoutc : ionoutc_t) : list (list Z) :=
  let ura := 0 in
  let dataId := 1 in
  let sbf4_page25_svId := 63 in
  let sbf5_page25_svId := 51 in
  let sbf4_page18_svId := 56 in
  let wn := 0 in
  let toe_ := ulong_of (int_of_double (sec (toe eph) / 16.0)%Q) in
  let toc_ := ulong_of (int_of_double (sec (toc eph) / 16.0)%Q) in
  let iode_ := ulong_of (iode eph) in
  let iodc_ := ulong_of (iodc eph) in
  let deltan_ := int_of_double (deltan eph / POW2_M43 / PI)%Q in
  let cuc_ := int_of_double (cuc eph / POW2_M29)%Q in
  let cus_ := int_of_double (cus eph / POW2_M29)%Q in
  let cic_ := int_of_double (cic eph / POW2_M29)%Q in
  let cis_ := int_of_double (cis eph / POW2_M29)%Q in
  let crc_ := int_of_double (crc eph / POW2_M5)%Q in
  let crs_ := int_of_double (crs eph / POW2_M5)%Q in
  let ecc_ := ulong_of (int_of_double (ecc eph / POW2_M33)%Q) in
  let sqrta_ := ulong_of (int_of_double (sqrta eph / POW2_M19)%Q) in
  let m0_ := int_of_double (m0 eph / POW2_M31 / PI)%Q in
  let omg0_ := int_of_double (omg0 eph / POW2_M31 / PI)%Q in
  let inc0_ := int_of_double (inc0 eph / POW2_M31 / PI)%Q in
  let aop_ := int_of_double (aop eph / POW2_M31 / PI)%Q in
  let omgdot_ := int_of_double (omgdot eph / POW2_M43 / PI)%Q in
  let idot_ := int_of_double (idot eph / POW2_M43 / PI)%Q in
  let af0_ := int_of_double (af0 eph / POW2_M31)%Q in
  let af1_ := int_of_double (af1 eph / POW2_M43)%Q in
  let af2_ := int_of_double (af2 eph / POW2_M55)%Q in
  let tgd_ := int_of_double (tgd eph / POW2_M31)%Q in
  let svhlth_ := svhlth eph in
  let codeL2_ := codeL2 eph in
  let wna := ulong_of (Z.rem (week (toe eph)) 256) in
  let toa := ulong_of (int_of_double (sec (toe eph) / 4096.0)%Q) in
  let alpha0_ := int_of_double (round (alpha0 ionoutc / POW2_M30)%Q) in
  let alpha1_ := int_of_double (round (alpha1 ionoutc / POW2_M27)%Q) in
  let alpha2_ := int_of_double (round (alpha2 ionoutc / POW2_M24)%Q) in
  let alpha3_ := int_of_double (round (alpha3 ionoutc / POW2_M24)%Q) in
  let beta0_ := int_of_double (round (beta0 ionoutc / 2048.0)%Q) in
  let beta1_ := int_of_double (round (beta1 ionoutc / 16384.0)%Q) in
  let beta2_ := int_of_double (round (beta2 ionoutc / 65536.0)%Q) in
  let beta3_ := int_of_double (round (beta3 ionoutc / 65536.0)%Q) in
  let A0_ := int_of_double (round (A0 ionoutc / POW2_M30)%Q) in
  let A1_ := int_of_double (round (A1 ionoutc / POW2_M50)%Q) in
  let dtls_ := dtls ionoutc in
  let tot_ := ulong_of (tot ionoutc ÷ 4096) in
  let wnt_ := ulong_of (Z.rem (wnt ionoutc) 256) in
  let wnlsf_ := Z.rem 1929 256 in
  let dn_ := 7 in
  let dtlsf_ := 18 in
  (* Subframe 1 *)
  let sbf1 :=
    [ shl 0x8B0000 6;
      shl 0x1 8;
      Z.lor (Z.lor (Z.lor (Z.lor (shl (band wn 0x3FF) 20) (shl (band codeL2_ 0x3) 18))
                          (shl (band ura 0xF) 14))
                   (shl (band svhlth_ 0x3F) 8))
            (shl (Z.land (Z.shiftr iodc_ 8) 0x3) 6);
      0; 0; 0;
      shl (band tgd_ 0xFF) 6;
      Z.lor (shl (band iodc_ 0xFF) 22) (shl (band toc_ 0xFFFF) 6);
      Z.lor (shl (band af2_ 0xFF) 22) (shl (band af1_ 0xFFFF) 6);
      shl (band af0_ 0x3FFFFF) 8 ] in
  (* Subframe 2 *)
  let sbf2 :=
    [ shl 0x8B0000 6;
      shl 0x2 8;
      Z.lor (shl (band iode_ 0xFF) 22) (shl (band crs_ 0xFFFF) 6);
      Z.lor (shl (band deltan_ 0xFFFF) 14) (shl (band (Z.shiftr m0_ 24) 0xFF) 6);
      shl (band m0_ 0xFFFFFF) 6;
      Z.lor (shl (band cuc_ 0xFFFF) 14) (shl (Z.land (Z.shiftr ecc_ 24) 0xFF) 6);
      shl (band ecc_ 0xFFFFFF) 6;
      Z.lor (shl (band cus_ 0xFFFF) 14) (shl (Z.land (Z.shiftr sqrta_ 24) 0xFF) 6);
      shl (band sqrta_ 0xFFFFFF) 6;
      shl (band toe_ 0xFFFF) 14 ] in
  (* Subframe 3 *)
  let sbf3 :=
    [ shl 0x8B0000 6;
      shl 0x3 8;
      Z.lor (shl (band cic_ 0xFFFF) 14) (shl (band (Z.shiftr omg0_ 24) 0xFF) 6);
      shl (band omg0_ 0xFFFFFF) 6;
      Z.lor (shl (band cis_ 0xFFFF) 14) (shl (band (Z.shiftr inc0_ 24) 0xFF) 6);
      shl (band inc0_ 0xFFFFFF) 6;
      Z.lor (shl (band crc_ 0xFFFF) 14) (shl (band (Z.shiftr aop_ 24) 0xFF) 6);
      shl (band aop_ 0xFFFFFF) 6;
      shl (band omgdot_ 0xFFFFFF) 6;
      Z.lor (shl (band iode_ 0xFF) 22) (shl (band idot_ 0x3FFF) 8) ] in
  let sbf4 :=
    if vflg ionoutc then
      (* Subframe 4, page 18 *)
      [ shl 0x8B0000 6;
        shl 0x4 8;
        Z.lor (Z.lor (Z.lor (shl dataId 28) (shl sbf4_page18_svId 22))
                     (shl (band alpha0_ 0xFF) 14))
              (shl (band alpha1_ 0xFF) 6);
        Z.lor (Z.lor (shl (band alpha2_ 0xFF) 22) (shl (band alpha3_ 0xFF) 14))
              (shl (band beta0_ 0xFF) 6);
        Z.lor (Z.lor (shl (band beta1_ 0xFF) 22) (shl (band beta2_ 0xFF) 14))
              (shl (band beta3_ 0xFF) 6);
        shl (band A1_ 0xFFFFFF) 6;
        shl (band (Z.shiftr A0_ 8) 0xFFFFFF) 6;
        Z.lor (Z.lor (shl (band A0_ 0xFF) 22) (shl (band tot_ 0xFF) 14))
              (shl (band wnt_ 0xFF) 6);
        Z.lor (Z.lor (shl (band dtls_ 0xFF) 22) (shl (band wnlsf_ 0xFF) 14))
              (shl (band dn_ 0xFF) 6);
        shl (band dtlsf_ 0xFF) 22 ]
    else
      (* Subframe 4, page 25 *)
      [ shl 0x8B0000 6;
        shl 0x4 8;
        Z.lor (shl dataId 28) (shl sbf4_page25_svId 22);
        0; 0; 0; 0; 0; 0; 0 ] in
  (* Subframe 5, page 25 *)
  let sbf5 :=
    [ shl 0x8B0000 6;
      shl 0x5 8;
      Z.lor (Z.lor (Z.lor (shl dataId 28) (shl sbf5_page25_svId 22))
                   (shl (band toa 0xFF) 14))
            (shl (band wna 0xFF) 6);
      0; 0; 0; 0; 0; 0; 0 ] in
  [ sbf1; sbf2; sbf3; sbf4; sbf5 ].

End Word.

End Subframe.

(** ** Code phase, data-bit counters and carrier phase of a channel *)

Module Signal.
Import GpsTime Engine.

Definition CODE_FREQ : Q := 1.023e6.
Definition CARR_TO_CODE : Q := 1.0 / 1540.0.
Definition CA_SEQ_LEN : Q := 1023.

(** [chan->dwrd[iword] >> (29 - ibit)) & 0x1UL) * 2 - 1] *)
Definition data_bit (dwrd : list Z) (iword ibit : Z) : Z :=
  Z.land (Z.shiftr (dwrd !!! Z.to_nat iword) (29 - ibit)) 1 * 2 - 1.

(** [chan->ca[(int) chan->code_phase] * 2 - 1] *)
Definition code_chip (ca : list Z) (code_phase : Q) : Z :=
  (ca !!! Z.to_nat (int_of_double code_phase)) * 2 - 1.

(** The local [ms] of [computeCodePhase]: the time, in milliseconds, from
    6 s before the reference time of the data bits to the emission of
    the signal now received. *)
Definition code_ms (c : channel_t) : Q :=
  ((subGpsTime (r_g (rho0 c)) (c_g0 c) + 6.0)
   - range (rho0 c) / SPEED_OF_LIGHT) * 1000.0.

(** [static void computeCodePhase(channel_t *chan, range_t rho1, double dt)] *)
Definition computeCodePhase (c : channel_t) (rho1 : range_t) (dt : Q) : channel_t :=
  let rhorate := ((range rho1 - range (rho0 c)) / dt)%Q in
  let f_carr := (- rhorate / LAMBDA_L1)%Q in
  let f_code := (CODE_FREQ + f_carr * CARR_TO_CODE)%Q in
  let ms := code_ms c in
  let ims := int_of_double ms in
  let code_phase := ((ms - double_of_int ims) * CA_SEQ_LEN)%Q in
  let iword := ims ÷ 600 in
  let ims := ims - iword * 600 in
  let ibit := ims ÷ 20 in
  let ims := ims - ibit * 20 in
  let icode := ims in
  let codeCA := code_chip (ca c) code_phase in
  let dataBit := data_bit (dwrd c) iword ibit in
  mk_channel (prn c) (ca c) f_carr f_code (carr_phase c) code_phase
    (c_g0 c) (sbf c) (dwrd c) iword ibit icode dataBit codeCA (azel c) rho1.

(** The update of one allocated channel inside the loop over the samples
    of [main], after its contribution to the sample has been taken:
    "Update code phase", "Set current code chip" and "Update carrier
    phase". *)
Definition sample_step (delt : Q) (c : channel_t) : channel_t :=
  let code_phase := (code_phase c + f_code c * delt)%Q in
  let '(code_phase, iword, ibit, icode, dataBit) :=
    if Qgeb code_phase CA_SEQ_LEN then
      let code_phase := (code_phase - CA_SEQ_LEN)%Q in
      let icode := icode c + 1 in
      if 20 <=? icode then
        let icode := 0 in
        let ibit := ibit c + 1 in
        let '(ibit, iword) :=
          if 30 <=? ibit then (0, iword c + 1) else (ibit, iword c) in
        (code_phase, iword, ibit, icode, data_bit (dwrd c) iword ibit)
      else (code_phase, iword c, ibit c, icode, dataBit c)
    else (code_phase, iword c, ibit c, icode c, dataBit c) in
  let codeCA := code_chip (ca c) code_phase in
  let carr_phase := (carr_phase c + f_carr c * delt)%Q in
  let carr_phase :=
    if Qgeb carr_phase 1.0 then (carr_phase - 1.0)%Q
    else if Qltb carr_phase 0.0 then (carr_phase + 1.0)%Q
    else carr_phase in
  mk_channel (prn c) (ca c) (f_carr c) (f_code c) carr_phase code_phase
    (c_g0 c) (sbf c) (dwrd c) iword ibit icode dataBit codeCA (azel c) (rho0 c).

(** [iTable = (int) floor(chan[i].carr_phase * 512.0);] *)
Definition iTable (c : channel_t) : Z :=
  int_of_double (floor (carr_phase c * 512.0)%Q).


End Signal.

(** ** RINEX text: [replaceExpDesignator] *)

Module RinexText.
Import Engine.

(** The characters compared and stored, as [char] values. *)
Definition char_D : Z := 68.
Definition char_E : Z := 69.
Definition char_d : Z := 100.

(** The test on [str[i]] that selects a designator: ['D'] in the first
    release, ['D'] or ['d'] in the reference revision. *)
Definition designator (rev : revision) (c : Z) : bool :=
  match rev with
  | FirstRelease => c =? char_D
  | Reference => (c =? char_D) || (c =? char_d)
  end.

(** The reference revision leaves the loop at a NUL character. *)
Definition stops (rev : revision) (c : Z) : bool :=
  match rev with
  | FirstRelease => false
  | Reference => c =? 0
  end.

(** [for (i = 0; i < len; i++) { ... }] with [k] turns left: the buffer
    and the count [n] after the loop. *)
Fixpoint replace_loop (rev : revision) (k i : nat) (str : list Z) (n : Z)
    : list Z * Z :=
  match k with
  | O => (str, n)
  | S k' =>
      if stops rev (str !!! i) then (str, n)
      else if designator rev (str !!! i)
           then replace_loop rev k' (S i) (<[i := char_E]> str) (n + 1)
           else replace_loop rev k' (S i) str n
  end.

(** [static int replaceExpDesignator(char *str, int len)]: the buffer
    after the call and the value returned. *)
Definition replaceExpDesignator (rev : revision) (str : list Z) (len : Z)
    : list Z * Z :=
  replace_loop rev (Z.to_nat len) 0 str 0.

End RinexText.

(** ** Start of the simulation: the current set of ephemerides *)

Module Startup.
Import GpsTime Engine.

(** [dt = subGpsTime(g0, eph[i][sv].toc);
     if (dt >= -SECONDS_IN_HOUR && dt < SECONDS_IN_HOUR)] *)
Definition in_window (g0 : gpstime_t) (e : ephem_t) : bool :=
  let dt := subGpsTime g0 (toc e) in
  Qgeb dt (- SECONDS_IN_HOUR) && Qltb dt SECONDS_IN_HOUR.

(** [for (sv = 0; sv < MAX_SAT; sv++)
       if (eph[i][sv].vflg == 1) { ...; if (...) { ieph = i; break; } }]:
    whether [ieph] is set, [n] satellites still to visit. *)
Fixpoint select_sv (n sv : nat) (row : list ephem_t) (g0 : gpstime_t) : bool :=
  match n with
  | O => false
  | S n' =>
      if e_vflg (row !!! sv) && in_window g0 (row !!! sv) then true
      else select_sv n' (S sv) row g0
  end.

(** [for (i = 0; i < neph; i++) { ...; if (ieph >= 0) break; }]: the
    value of [ieph] after the loop, [n] sets still to visit. *)
Fixpoint select_set (n i : nat) (eph : list (list ephem_t)) (g0 : gpstime_t) : Z :=
  match n with
  | O => -1
  | S n' =>
      if select_sv MAX_SAT 0 (eph !!! i) g0 then Z.of_nat i
      else select_set n' (S i) eph g0
  end.

(** "Select the current set of ephemerides" of [main]: [ieph] before
    the test [if (ieph == -1)]. *)
Definition select_ieph (eph : list (list ephem_t)) (neph : Z) (g0 : gpstime_t) : Z :=
  select_set (Z.to_nat neph) 0 eph g0.

End Startup.

(** ** The same C statements on IEEE binary64 numbers

    Here a C [double] is a binary64 number and every operation rounds
    to nearest, ties to even, as the C program does.  The functions are
    those of [GpsTime] and [Signal], statement by statement. *)

Module Binary64.
Import GpsTime.

(** [(double) i] for an [int] [i]. *)
Definition of_int (z : Z) : float :=
  if 0 <=? z then PrimFloat.of_uint63 (Uint63.of_Z z)
  else PrimFloat.opp (PrimFloat.of_uint63 (Uint63.of_Z (- z))).

(** [floor(x)] as an integer, for a finite [x]. *)
Definition floor_int (x : float) : Z :=
  match Prim2SF x with
  | S754_finite s m e =>
      if 0 <=? e then (if s then - (Z.pos m * 2 ^ e) else Z.pos m * 2 ^ e)
      else if s then - ((Z.pos m + 2 ^ (- e) - 1) / 2 ^ (- e))
           else Z.pos m / 2 ^ (- e)
  | _ => 0
  end.

(** [(int) x]: the fraction is discarded (toward zero). *)
Definition to_int (x : float) : Z :=
  match Prim2SF x with
  | S754_finite s m e =>
      let v := if 0 <=? e then Z.pos m * 2 ^ e else Z.pos m / 2 ^ (- e) in
      if s then - v else v
  | _ => 0
  end.

(** [floor(x)] of math.h, for the values met here (below 2^62 in size). *)
Definition floor (x : float) : float := of_int (floor_int x).

(** [datetime_t] and [gpstime_t] with binary64 seconds. *)
Record datetime_b := mk_datetime_b {
  b_y : Z; b_m : Z; b_d : Z; b_hh : Z; b_mm : Z;
  b_sec : float
}.

Record gpstime_b := mk_gpstime_b {
  b_week : Z;
  b_gsec : float
}.

(** The constants 122.1 and 30.6001 of [gps2date], as the compiler
    rounds them. *)
Definition c_122_1 : float := 0x1.e866666666666p+6.
Definition c_30_6001 : float := 0x1.e99a027525461p+4.

Local Open Scope float_scope.

(** [static void date2gps(const datetime_t *t, gpstime_t *g)] *)
Definition date2gps (t : datetime_b) : gpstime_b :=
  let ye := (b_y t - 1980)%Z in
  let lpdays := (ye ÷ 4 + 1)%Z in
  let lpdays := if ((Z.rem ye 4 =? 0)%Z && (b_m t <=? 2)%Z)%bool
                then (lpdays - 1)%Z else lpdays in
  let de := (ye * 365 + doy !!! Z.to_nat (b_m t - 1) + b_d t + lpdays - 6)%Z in
  {| b_week := (de ÷ 7)%Z;
     b_gsec := of_int (Z.rem de 7) * 86400.0
               + of_int (b_hh t) * 3600.0
               + of_int (b_mm t) * 60.0
               + b_sec t |}.

(** [static void gps2date(const gpstime_t *g, datetime_t *t)] *)
Definition gps2date (g : gpstime_b) : datetime_b :=
  let c := (to_int (of_int (7 * b_week g) + floor (b_gsec g / 86400.0) + 2444245.0)
            + 1537)%Z in
  let d := to_int ((of_int c - c_122_1) / 365.25) in
  let e := (365 * d + d ÷ 4)%Z in
  let f := to_int (of_int (c - e) / c_30_6001) in
  let td := (c - e - to_int (c_30_6001 * of_int f))%Z in
  let tm := (f - 1 - 12 * (f ÷ 14))%Z in
  let ty := (d - 4715 - ((7 + tm) ÷ 10))%Z in
  {| b_y := ty; b_m := tm; b_d := td;
     b_hh := Z.rem (to_int (b_gsec g / 3600.0)) 24;
     b_mm := Z.rem (to_int (b_gsec g / 60.0)) 60;
     b_sec := b_gsec g - 60.0 * floor (b_gsec g / 60.0) |}.

(** "Update carrier phase" of the sample loop of [main]:
    [carr_phase += f_carr * delt;
     if (carr_phase >= 1.0) carr_phase -= 1.0;
     else if (carr_phase < 0.0) carr_phase += 1.0;] *)
Definition carrier_step (carr_phase f_carr delt : float) : float :=
  let p := carr_phase + f_carr * delt in
  if 1.0 <=? p then p - 1.0
  else if p <? 0.0 then p + 1.0
  else p.

(** [iTable = (int) floor(chan[i].carr_phase * 512.0);] *)
Definition iTable (carr_phase : float) : Z :=
  to_int (floor (carr_phase * 512.0)).

End Binary64.

(** * Verification *)

(** ** Parity *)

Module ParityFacts.
Import Parity.

(** C1 (as found in the code): for the source word 0x22C000C0, whose
    bits 31 and 30, D29* and D30*, are clear, and [nib] false,
    [computeChecksum] returns 0x22C000E4, whether [unsigned long] has 32
    or 64 bits: the parity bits D25 to D30 are 1,0,0,1,0,0. *)
Theorem computeChecksum_fixed_vector :
  prev_D29 0x22C000C0 = false /\ prev_D30 0x22C000C0 = false /\
  computeChecksum 32 0x22C000C0 false = 0x22C000E4 /\
  computeChecksum 64 0x22C000C0 false = 0x22C000E4.
Proof. repeat split; vm_compute; reflexivity. Qed.

(** C1 (as stated): the value 0x22C000FC is not what the code returns. *)
Lemma computeChecksum_fixed_vector_differs :
  prev_D29 0x22C000C0 = false /\ prev_D30 0x22C000C0 = false /\
  computeChecksum 32 0x22C000C0 false <> 0x22C000FC /\
  computeChecksum 64 0x22C000C0 false <> 0x22C000FC.
Proof. repeat split; vm_compute; discriminate. Qed.

End ParityFacts.

(** ** C/A codes *)

Module CACodeFacts.
Import CACode.

(** *** Cyclic sequences as lists *)

(** Pointwise product of two sequences. *)
Definition mulL (a b : list Z) : list Z := zip_with Z.mul a b.

Lemma mulL_comm a b : mulL a b = mulL b a.
Proof.
  revert b; induction a as [|x a IH]; intros [|y b]; simpl; try reflexivity.
  unfold mulL in *; simpl; rewrite IH; f_equal; lia.
Qed.

Lemma mulL_interchange a b c d :
  mulL (mulL a b) (mulL c d) = mulL (mulL a c) (mulL b d).
Proof.
  revert b c d; induction a as [|x a IH]; intros [|y b] [|z c] [|t d];
    unfold mulL in *; simpl; rewrite ?zip_with_nil_r; try reflexivity.
  rewrite IH; f_equal; lia.
Qed.

Lemma mulL_opp_opp a b : mulL (Z.opp <$> a) (Z.opp <$> b) = mulL a b.
Proof.
  revert b; induction a as [|x a IH]; intros [|y b]; unfold mulL in *; simpl;
    try reflexivity.
  rewrite IH; f_equal; lia.
Qed.

Lemma mulL_ones_l n a : length a = n -> mulL (replicate n 1) a = a.
Proof.
  revert n; induction a as [|x a IH]; intros [|n] H; simpl in *; try discriminate;
    try reflexivity.
  unfold mulL in *; simpl; rewrite IH by lia; f_equal; lia.
Qed.

Lemma mulL_ones_r n a : length a = n -> mulL a (replicate n 1) = a.
Proof. intros H; rewrite mulL_comm; apply mulL_ones_l, H. Qed.

Lemma mulL_length a b : length a = length b -> length (mulL a b) = length a.
Proof. intros H; unfold mulL; rewrite length_zip_with; lia. Qed.

(** A sequence of +1 and -1 squares to the all-ones sequence. *)
Definition signs (l : list Z) : bool :=
  forallb (fun x => (x =? 1) || (x =? -1)) l.

Lemma mulL_self l : signs l = true -> mulL l l = replicate (length l) 1.
Proof.
  induction l as [|x l IH]; simpl; intros H; [reflexivity|].
  apply andb_prop in H as [Hx Hl].
  unfold mulL in *; simpl; rewrite IH by exact Hl; f_equal.
  apply orb_prop in Hx as [Hx|Hx]; apply Z.eqb_eq in Hx; subst x; reflexivity.
Qed.

Lemma sumZ_app a b : sumZ (a ++ b) = sumZ a + sumZ b.
Proof. unfold sumZ; induction a as [|x a IH]; simpl; lia. Qed.

Lemma sumZ_rotate k l : sumZ (rotate k l) = sumZ l.
Proof.
  assert (H : sumZ l = sumZ (take (k mod length l) l) + sumZ (drop (k mod length l) l))
    by (rewrite <- sumZ_app, take_drop; reflexivity).
  unfold rotate; rewrite sumZ_app; lia.
Qed.

Lemma rotate_mod_length {A} k (l : list A) : rotate (k mod length l) l = rotate k l.
Proof. unfold rotate; rewrite Nat.Div0.mod_mod; reflexivity. Qed.

Lemma rotate_congr {A} a b (l : list A) :
  (a mod length l = b mod length l)%nat -> rotate a l = rotate b l.
Proof. intros H; unfold rotate; rewrite H; reflexivity. Qed.

Lemma rotate_zero {A} (l : list A) : rotate 0 l = l.
Proof. unfold rotate; rewrite Nat.Div0.mod_0_l; simpl; apply app_nil_r. Qed.

Lemma rotate_mulL k a b :
  length a = length b -> rotate k (mulL a b) = mulL (rotate k a) (rotate k b).
Proof.
  intros H; unfold rotate, mulL.
  rewrite length_zip_with, <- H, Nat.min_id.
  rewrite zip_with_app by (rewrite !length_drop; lia).
  rewrite zip_with_drop, zip_with_take; reflexivity.
Qed.

Lemma rotate_fmap {A B} (f : A -> B) k (l : list A) :
  rotate k (f <$> l) = f <$> rotate k l.
Proof.
  unfold rotate; rewrite length_fmap, fmap_app, fmap_drop, fmap_take; reflexivity.
Qed.

Lemma rotate_add {A} a b (l : list A) : rotate a (rotate b l) = rotate (a + b) l.
Proof.
  apply list_eq; intros i.
  destruct (decide (i < length l)%nat) as [Hi|Hi].
  - rewrite (lookup_rotate_r (rotate b l) a i) by (rewrite length_rotate; exact Hi).
    rewrite length_rotate.
    rewrite (lookup_rotate_r l b) by (apply rotate_nat_add_lt; lia).
    rewrite (lookup_rotate_r l (a + b) i) by exact Hi.
    f_equal; unfold rotate_nat_add.
    rewrite Z2Nat.id by (apply Z.mod_pos_bound; lia).
    rewrite Zplus_mod_idemp_r; f_equal; f_equal; lia.
  - rewrite !lookup_ge_None_2 by (rewrite ?length_rotate; lia); reflexivity.
Qed.

(** Every residue is reached from [x] by some shift. *)
Lemma shift_to (x y n : nat) : (0 < n)%nat -> exists m, ((x + m) mod n = y mod n)%nat.
Proof.
  intros Hn; exists (y + (n - x mod n))%nat.
  pose proof (Nat.mod_upper_bound x n ltac:(lia)) as Hlt.
  pose proof (Nat.div_mod_eq x n) as Hx.
  replace (x + (y + (n - x mod n)))%nat with (y + (x / n + 1) * n)%nat by nia.
  apply Nat.Div0.mod_add.
Qed.

(** *** Gold codes from a preferred pair *)

Definition ternary (x : Z) : Prop := x = -65 \/ x = -1 \/ x = 63.
Definition ternaryb (x : Z) : bool := (x =? -65) || (x =? -1) || (x =? 63).

Lemma ternaryb_sound x : ternaryb x = true -> ternary x.
Proof.
  unfold ternaryb, ternary; intros H.
  apply orb_prop in H as [H|H]; [apply orb_prop in H as [H|H]|];
    apply Z.eqb_eq in H; auto.
Qed.

Section Gold.

Variables (n : nat) (u v : list Z).
Hypothesis Hn : (0 < n)%nat.
Hypothesis Hu : length u = n.
Hypothesis Hv : length v = n.
Hypothesis Hsu : signs u = true.
Hypothesis Hsv : signs v = true.
Hypothesis Hbu : sumZ u = -1.
Hypothesis Hbv : sumZ v = -1.
(* shift-and-add: a sequence times a shift of itself is a shift of itself *)
Hypothesis Hau : forall k, (k mod n <> 0)%nat -> exists s, mulL u (rotate k u) = rotate s u.
Hypothesis Hav : forall k, (k mod n <> 0)%nat -> exists s, mulL v (rotate k v) = rotate s v.
(* the two sequences are a preferred pair *)
Hypothesis Huv : forall t, ternary (sumZ (mulL u (rotate t v))).

(** The product of [u] with [v] shifted by [a]. *)
Definition gold (a : nat) : list Z := mulL u (rotate a v).

Lemma gold_length a : length (gold a) = n.
Proof. unfold gold; rewrite mulL_length; rewrite ?length_rotate; congruence. Qed.

Lemma self_product_u k : (k mod n = 0)%nat -> mulL u (rotate k u) = replicate n 1.
Proof.
  intros Hk. rewrite <- rotate_mod_length, Hu, Hk, rotate_zero, mulL_self, Hu by exact Hsu.
  reflexivity.
Qed.

Lemma self_product_v k : (k mod n = 0)%nat -> mulL v (rotate k v) = replicate n 1.
Proof.
  intros Hk. rewrite <- rotate_mod_length, Hv, Hk, rotate_zero, mulL_self, Hv by exact Hsv.
  reflexivity.
Qed.

Lemma gold_xcorr a b k :
  (a mod n <> b mod n)%nat ->
  ternary (sumZ (mulL (gold a) (rotate k (gold b)))).
Proof.
  intros Hab. unfold gold.
  rewrite rotate_mulL by (rewrite length_rotate; congruence).
  rewrite rotate_add, mulL_interchange.
  destruct (shift_to a (k + b) n Hn) as [m Hm].
  rewrite <- (rotate_congr (a + m) (k + b) v) by (rewrite Hv; exact Hm).
  rewrite <- (rotate_add a m v).
  rewrite <- rotate_mulL by (rewrite length_rotate; reflexivity).
  destruct (decide (k mod n = 0)%nat) as [Hk|Hk].
  - assert (Hm0 : (m mod n <> 0)%nat).
    { intros Hm0. apply Hab.
      rewrite <- (Nat.Div0.add_mod_idemp_r a m), Hm0, Nat.add_0_r in Hm.
      rewrite <- (Nat.Div0.add_mod_idemp_l k b), Hk in Hm. exact Hm. }
    destruct (Hav m Hm0) as [s Hs].
    rewrite self_product_u, Hs, mulL_ones_l by (rewrite ?length_rotate; assumption).
    rewrite !sumZ_rotate, Hbv. right; left; reflexivity.
  - destruct (Hau k Hk) as [s1 Hs1]. rewrite Hs1.
    destruct (decide (m mod n = 0)%nat) as [Hm0|Hm0].
    + rewrite self_product_v, rotate_replicate, mulL_ones_r
        by (rewrite ?length_rotate; assumption).
      rewrite sumZ_rotate, Hbu. right; left; reflexivity.
    + destruct (Hav m Hm0) as [s2 Hs2]. rewrite Hs2, rotate_add.
      destruct (shift_to s1 (a + s2) n Hn) as [t Ht].
      rewrite <- (rotate_congr (s1 + t) (a + s2) v) by (rewrite Hv; exact Ht).
      rewrite <- (rotate_add s1 t v).
      rewrite <- rotate_mulL by (rewrite length_rotate; congruence).
      rewrite sumZ_rotate. apply Huv.
Qed.

End Gold.

(** *** Executable checks of the hypotheses *)

Fixpoint prefix_eqb (w l : list Z) : bool :=
  match w, l with
  | [], _ => true
  | x :: w', y :: l' => (x =? y) && prefix_eqb w' l'
  | _ :: _, [] => false
  end.

Fixpoint eqbL (a b : list Z) : bool :=
  match a, b with
  | [], [] => true
  | x :: a', y :: b' => (x =? y) && eqbL a' b'
  | _, _ => false
  end.

Lemma eqbL_sound a b : eqbL a b = true -> a = b.
Proof.
  revert b; induction a as [|x a IH]; intros [|y b]; simpl; intros H;
    try discriminate; [reflexivity|].
  apply andb_prop in H as [Hx Hab]. apply Z.eqb_eq in Hx.
  rewrite Hx, (IH b Hab); reflexivity.
Qed.

(** The first position of [l] (counted from [s]) at which [w] starts. *)
Fixpoint find_window (w l : list Z) (s : nat) : option nat :=
  match l with
  | [] => None
  | _ :: l' => if prefix_eqb w l then Some s else find_window w l' (S s)
  end.

(** For every shift [k] in [1, n): the product of [g] with its shift by
    [k] is the shift of [g] found from the first ten terms. *)
Definition check_shift_add (g : list Z) : bool :=
  let gg := g ++ g in
  forallb (fun k =>
             let w := mulL g (rotate k g) in
             match find_window (take 10 w) gg 0 with
             | Some s => eqbL w (rotate s g)
             | None => false
             end)
          (seq 1 (length g - 1)).

Lemma check_shift_add_sound g :
  check_shift_add g = true ->
  forall k, (k mod length g <> 0)%nat -> exists s, mulL g (rotate k g) = rotate s g.
Proof.
  intros H k Hk.
  destruct (decide (length g = 0%nat)) as [Hnil|Hlen].
  { apply nil_length_inv in Hnil; subst g. exists 0%nat; reflexivity. }
  unfold check_shift_add in H.
  rewrite forallb_forall in H.
  pose proof (Nat.mod_upper_bound k (length g) ltac:(lia)) as Hlt.
  specialize (H (k mod length g)%nat).
  rewrite rotate_mod_length in H.
  destruct (find_window _ _ _) as [s|].
  - exists s. apply eqbL_sound, H. apply in_seq. lia.
  - discriminate H. apply in_seq. lia.
Qed.

Definition check_preferred (u v : list Z) : bool :=
  forallb (fun t => ternaryb (sumZ (mulL u (rotate t v)))) (seq 0 (length v)).

Lemma check_preferred_sound u v :
  (0 < length v)%nat -> check_preferred u v = true ->
  forall t, ternary (sumZ (mulL u (rotate t v))).
Proof.
  intros Hlen H t. unfold check_preferred in H. rewrite forallb_forall in H.
  rewrite <- rotate_mod_length. apply ternaryb_sound, H, in_seq.
  pose proof (Nat.mod_upper_bound t (length v) ltac:(lia)). lia.
Qed.

(** *** The two register sequences of [codegen] *)

Definition g1 : list Z := fst g1g2.
Definition g2 : list Z := snd g1g2.

Lemma g1_length : length g1 = 1023%nat.
Proof. vm_compute; reflexivity. Qed.

Lemma g2_length : length g2 = 1023%nat.
Proof. vm_compute; reflexivity. Qed.

Lemma g1_signs : signs g1 = true.
Proof. vm_compute; reflexivity. Qed.

Lemma g2_signs : signs g2 = true.
Proof. vm_compute; reflexivity. Qed.

Lemma g1_sum : sumZ g1 = -1.
Proof. vm_compute; reflexivity. Qed.

Lemma g2_sum : sumZ g2 = -1.
Proof. vm_compute; reflexivity. Qed.

Lemma g1_shift_add : check_shift_add g1 = true.
Proof. vm_compute; reflexivity. Qed.

Lemma g2_shift_add : check_shift_add g2 = true.
Proof. vm_compute; reflexivity. Qed.

Lemma g1_g2_preferred : check_preferred g1 g2 = true.
Proof. vm_compute; reflexivity. Qed.

(** *** The chips written by [codegen] *)

Definition valid_prn (prn : Z) : Prop := 1 <= prn <= 32.

(** The G2 delay of a PRN, as a shift. *)
Definition delay_of (prn : Z) : nat := Z.to_nat (delay !!! Z.to_nat (prn - 1)).

(** A register output pair [x] (the product [g1[i] * g2[j]]) as a chip. *)
Definition bit_of (x : Z) : Z := (1 - x) ÷ 2.

Lemma delay_lookup prn :
  valid_prn prn -> delay !! Z.to_nat (prn - 1) = Some (delay !!! Z.to_nat (prn - 1)).
Proof.
  intros [H1 H2]. apply list_lookup_lookup_total_lt.
  change (length delay) with 32%nat. lia.
Qed.

Lemma delay_range prn :
  valid_prn prn -> 1 <= delay !!! Z.to_nat (prn - 1) <= 1022.
Proof.
  intros H. pose proof (delay_lookup prn H) as Hl.
  assert (HF : Forall (fun d => 1 <= d <= 1022) delay)
    by (unfold delay; repeat constructor; lia).
  exact (proj1 (Forall_lookup _ _) HF _ _ Hl).
Qed.

Lemma delay_of_range prn : valid_prn prn -> (1 <= delay_of prn <= 1022)%nat.
Proof. intros H. pose proof (delay_range prn H). unfold delay_of. lia. Qed.

Lemma delay_nodup : NoDup delay.
Proof. apply (bool_decide_eq_true_1 (NoDup delay)). vm_compute. reflexivity. Qed.

Lemma delay_of_inj p q : valid_prn p -> valid_prn q -> delay_of p = delay_of q -> p = q.
Proof.
  intros Hp Hq H. unfold delay_of in H.
  pose proof (delay_range p Hp). pose proof (delay_range q Hq).
  assert (Hd : delay !!! Z.to_nat (p - 1) = delay !!! Z.to_nat (q - 1)) by lia.
  pose proof (delay_lookup p Hp) as Lp. pose proof (delay_lookup q Hq) as Lq.
  rewrite Hd in Lp.
  pose proof (NoDup_lookup _ _ _ _ delay_nodup Lp Lq) as Hi.
  destruct Hp, Hq. lia.
Qed.

Lemma ca_chips_unfold prn : ca_chips prn = chip g1 g2 prn <$> seq 0 CA_SEQ_LEN.
Proof. unfold ca_chips, g1, g2. generalize g1g2. intros [a b]. reflexivity. Qed.

#[local] Opaque g1 g2 ca_chips.

(** The chips of a PRN are the bits of the product of [g1] with [g2]
    shifted by [1023 - delay]. *)
Lemma ca_chips_gold prn :
  valid_prn prn ->
  ca_chips prn = bit_of <$> gold g1 g2 (1023 - delay_of prn).
Proof.
  intros Hp. pose proof (delay_range prn Hp) as Hd.
  rewrite ca_chips_unfold.
  apply (list_eq_same_length _ _ 1023%nat).
  - rewrite length_fmap, (gold_length 1023 g1 g2 g1_length g2_length). reflexivity.
  - rewrite length_fmap, length_seq. reflexivity.
  - intros i x y Hi Hx Hy.
    rewrite list_lookup_fmap, lookup_seq_lt in Hx by exact Hi.
    cbn [fmap option_fmap option_map] in Hx. apply (inj Some) in Hx. subst x.
    unfold gold, mulL in Hy.
    rewrite list_lookup_fmap, lookup_zip_with in Hy.
    rewrite (list_lookup_lookup_total_lt g1 i) in Hy by (rewrite g1_length; exact Hi).
    rewrite lookup_rotate_r in Hy by (rewrite g2_length; exact Hi).
    rewrite g2_length in Hy.
    assert (Hlt : (rotate_nat_add (1023 - delay_of prn) i 1023 < length g2)%nat)
      by (rewrite g2_length; apply rotate_nat_add_lt; lia).
    rewrite (list_lookup_lookup_total_lt g2 _ Hlt) in Hy.
    cbn [fmap option_fmap option_map mbind option_bind] in Hy.
    apply (inj Some) in Hy. subst y.
    change (0 + i)%nat with i.
    unfold chip, bit_of, rotate_nat_add, delay_of, CA_SEQ_LEN.
    rewrite Z.rem_mod_nonneg by lia.
    replace (Z.of_nat 1023 - delay !!! Z.to_nat (prn - 1) + Z.of_nat i)
      with (Z.of_nat (1023 - Z.to_nat (delay !!! Z.to_nat (prn - 1))) + Z.of_nat i)
      by lia.
    reflexivity.
Qed.

Lemma ca_chips_length prn : valid_prn prn -> length (ca_chips prn) = 1023%nat.
Proof.
  intros H. rewrite ca_chips_unfold, length_fmap, length_seq. reflexivity.
Qed.

Lemma store_from_spec vs : forall i ca,
  (i + length vs <= length ca)%nat ->
  store_from i vs ca = take i ca ++ vs ++ drop (i + length vs) ca.
Proof.
  induction vs as [|v vs IH]; intros i ca Hlen; simpl in *.
  - rewrite Nat.add_0_r, take_drop. reflexivity.
  - rewrite IH by (rewrite length_insert; lia).
    rewrite (take_S_r _ i v) by (apply list_lookup_insert_eq; lia).
    rewrite take_insert_ge by lia.
    rewrite drop_insert_lt by lia.
    rewrite <- app_assoc. simpl.
    replace (S (i + length vs)) with (i + S (length vs))%nat by lia.
    reflexivity.
Qed.

Lemma store_from_full vs ca : length vs = length ca -> store_from 0 vs ca = vs.
Proof.
  intros H. rewrite store_from_spec by (rewrite H; apply Nat.le_refl).
  rewrite take_0, drop_ge by (rewrite H; apply Nat.le_refl).
  apply app_nil_r.
Qed.

(** With a valid PRN the whole array is overwritten by the chips. *)
Lemma codegen_valid ca prn :
  valid_prn prn -> length ca = 1023%nat -> codegen ca prn = ca_chips prn.
Proof.
  intros [H1 H2] Hlen. unfold codegen.
  destruct (Z.ltb_spec prn 1) as [H|_]; [lia|].
  destruct (Z.ltb_spec 32 prn) as [H|_]; [lia|].
  apply store_from_full.
  rewrite Hlen. apply ca_chips_length. split; assumption.
Qed.

Definition is_sign (x : Z) : Prop := x = 1 \/ x = -1.

Lemma signs_Forall l : signs l = true <-> Forall is_sign l.
Proof.
  unfold signs. rewrite forallb_forall, Forall_forall.
  split; intros H x Hx.
  - apply list_elem_of_In, H in Hx.
    apply orb_prop in Hx as [Hx|Hx]; apply Z.eqb_eq in Hx; [left|right]; exact Hx.
  - apply list_elem_of_In, H in Hx. destruct Hx; subst x; reflexivity.
Qed.

Lemma signs_rotate k l : signs l = true -> signs (rotate k l) = true.
Proof.
  rewrite !signs_Forall, !Forall_forall. intros H x Hx.
  apply H. apply elem_of_rotate in Hx. exact Hx.
Qed.

Lemma signs_mulL a : forall b, signs a = true -> signs b = true -> signs (mulL a b) = true.
Proof.
  induction a as [|x a IH]; intros [|y b] Ha Hb; simpl in *; try reflexivity.
  apply andb_prop in Ha as [Hx Ha]. apply andb_prop in Hb as [Hy Hb].
  apply andb_true_intro; split; [|apply IH; assumption].
  apply orb_prop in Hx as [Hx|Hx]; apply Z.eqb_eq in Hx; subst x;
    apply orb_prop in Hy as [Hy|Hy]; apply Z.eqb_eq in Hy; subst y; reflexivity.
Qed.

(** On sign sequences the chip of a product, read by the modulator, is
    the negated product. *)
Lemma chip_products a : forall b,
  signs a = true -> signs b = true ->
  zip_with (fun x y => pm (bit_of x) * pm (bit_of y)) a b = mulL a b.
Proof.
  induction a as [|x a IH]; intros [|y b] Ha Hb; simpl in *; try reflexivity.
  apply andb_prop in Ha as [Hx Ha]. apply andb_prop in Hb as [Hy Hb].
  unfold mulL in *; simpl. rewrite IH by assumption. f_equal.
  apply orb_prop in Hx as [Hx|Hx]; apply Z.eqb_eq in Hx; subst x;
    apply orb_prop in Hy as [Hy|Hy]; apply Z.eqb_eq in Hy; subst y; reflexivity.
Qed.

Lemma gold_signs a : signs (gold g1 g2 a) = true.
Proof.
  unfold gold. apply signs_mulL.
  - apply g1_signs.
  - apply signs_rotate. apply g2_signs.
Qed.

(** Cross-correlation of the chips of two PRNs at any cyclic lag. *)
Lemma ca_chips_xcorr p q k :
  valid_prn p -> valid_prn q -> p <> q ->
  ternary (xcorr (ca_chips p) (ca_chips q) k).
Proof.
  intros Hp Hq Hpq. unfold xcorr.
  rewrite !ca_chips_gold by assumption.
  rewrite rotate_fmap, zip_with_fmap_l, zip_with_fmap_r.
  cbv beta.
  rewrite (chip_products _ _ (gold_signs _) (signs_rotate _ _ (gold_signs _))).
  apply (gold_xcorr 1023 g1 g2).
  - lia.
  - apply g1_length.
  - apply g2_length.
  - apply g1_signs.
  - apply g2_signs.
  - apply g1_sum.
  - apply g2_sum.
  - pose proof (check_shift_add_sound g1 g1_shift_add) as H.
    rewrite g1_length in H. exact H.
  - pose proof (check_shift_add_sound g2 g2_shift_add) as H.
    rewrite g2_length in H. exact H.
  - apply check_preferred_sound; [rewrite g2_length; lia | apply g1_g2_preferred].
  - pose proof (delay_of_range p Hp). pose proof (delay_of_range q Hq).
    rewrite !Nat.mod_small by lia.
    intros E. apply Hpq, delay_of_inj; try assumption. lia.
Qed.

Definition is_bit (x : Z) : Prop := x = 0 \/ x = 1.
Definition is_bitb (x : Z) : bool := (x =? 0) || (x =? 1).

(** For every delay of the table: the chips are bits, 512 ones, 511 zeros. *)
Definition check_balance (u v ds : list Z) : bool :=
  forallb (fun d =>
             let c := bit_of <$> gold u v (1023 - Z.to_nat d) in
             forallb is_bitb c
             && (count_of 1 c =? 512)%nat && (count_of 0 c =? 511)%nat)
          ds.

Lemma g1_g2_balance : check_balance g1 g2 delay = true.
Proof. vm_compute; reflexivity. Qed.

Lemma ca_chips_balance prn :
  valid_prn prn ->
  Forall is_bit (ca_chips prn)
  /\ count_of 1 (ca_chips prn) = 512%nat /\ count_of 0 (ca_chips prn) = 511%nat.
Proof.
  intros Hp. rewrite ca_chips_gold by exact Hp.
  pose proof g1_g2_balance as H. unfold check_balance in H.
  rewrite forallb_forall in H.
  specialize (H (delay !!! Z.to_nat (prn - 1))).
  fold (delay_of prn) in H.
  assert (Hin : In (delay !!! Z.to_nat (prn - 1)) delay).
  { apply list_elem_of_In, list_elem_of_lookup.
    exists (Z.to_nat (prn - 1)). apply delay_lookup, Hp. }
  apply H in Hin. cbv zeta in Hin.
  apply andb_prop in Hin as [Hin H0]. apply andb_prop in Hin as [Hb H1].
  apply Nat.eqb_eq in H0, H1.
  repeat split; try assumption.
  rewrite forallb_forall in Hb. apply Forall_forall. intros x Hx.
  apply list_elem_of_In, Hb in Hx.
  apply orb_prop in Hx as [Hx|Hx]; apply Z.eqb_eq in Hx; [left|right]; exact Hx.
Qed.

(** C7: for every PRN in [1, 32] the 1023 chips that [codegen] writes
    into the caller's array are bits, 512 of them are 1 and 511 are 0;
    and for two different PRNs the cross-correlation of the chips, read
    as +1/-1 and summed over the 1023 positions, is -65, -1 or 63 at
    every cyclic lag [k] (lag 0 included). *)
Theorem codegen_gold_codes :
  (forall prn ca,
     1 <= prn <= 32 -> length ca = 1023%nat ->
     length (codegen ca prn) = 1023%nat
     /\ Forall (fun x => x = 0 \/ x = 1) (codegen ca prn)
     /\ count_of 1 (codegen ca prn) = 512%nat
     /\ count_of 0 (codegen ca prn) = 511%nat)
  /\ (forall p q ca cb k,
        1 <= p <= 32 -> 1 <= q <= 32 -> p <> q ->
        length ca = 1023%nat -> length cb = 1023%nat ->
        let x := xcorr (codegen ca p) (codegen cb q) k in
        x = -65 \/ x = -1 \/ x = 63).
Proof.
  split.
  - intros prn ca Hp Hlen. rewrite codegen_valid by assumption.
    split; [apply ca_chips_length, Hp | apply ca_chips_balance, Hp].
  - intros p q ca cb k Hp Hq Hpq Ha Hb.
    rewrite !codegen_valid by assumption.
    apply ca_chips_xcorr; assumption.
Qed.

Lemma codegen_gold_codes_witness :
  count_of 1 (codegen (replicate 1023 0) 1) = 512%nat
  /\ (let x := xcorr (codegen (replicate 1023 0) 1) (codegen (replicate 1023 7) 2) 5 in
      x = -65 \/ x = -1 \/ x = 63).
Proof.
  split.
  - apply (proj1 codegen_gold_codes 1 (replicate 1023 0)); [lia | reflexivity].
  - apply (proj2 codegen_gold_codes 1 2); try lia; reflexivity.
Defined.

(** C10, first part: for a PRN outside [1, 32], [codegen] leaves the
    caller's array as it was. *)
Lemma codegen_invalid_prn ca prn :
  prn < 1 \/ 32 < prn -> codegen ca prn = ca.
Proof.
  intros H. unfold codegen.
  destruct (Z.ltb_spec prn 1) as [|H1]; [reflexivity|].
  destruct (Z.ltb_spec 32 prn) as [|H2]; [reflexivity|]. lia.
Qed.

End CACodeFacts.

(** ** GPS time *)

Module GpsTimeFacts.
Import GpsTime.

(** *** Floors and casts on exact rationals *)

Lemma Qfloor_unique (x : Q) (z : Z) :
  (inject_Z z <= x)%Q -> (x < inject_Z (z + 1))%Q -> Qfloor x = z.
Proof.
  intros Hle Hlt.
  pose proof (Qfloor_le x) as H1. pose proof (Qlt_floor x) as H2.
  assert (Ha : (inject_Z z < inject_Z (Qfloor x + 1))%Q) by (eapply Qle_lt_trans; eassumption).
  assert (Hb : (inject_Z (Qfloor x) < inject_Z (z + 1))%Q) by (eapply Qle_lt_trans; eassumption).
  rewrite <- Zlt_Qlt in Ha, Hb. lia.
Qed.

(** The floor of [(K + r) / D] for integers [K], [D] and a fraction [r]. *)
Lemma Qfloor_int_div (K D : Z) (r : Q) :
  0 < D -> (0 <= r)%Q -> (r < 1)%Q ->
  Qfloor ((inject_Z K + r) / inject_Z D) = K / D.
Proof.
  intros HD Hr0 Hr1.
  assert (HDq : (0 < inject_Z D)%Q) by (rewrite (Zlt_Qlt 0 D) in HD; exact HD).
  pose proof (Z.mul_div_le K D HD) as Hlo.
  pose proof (Z.mul_succ_div_gt K D HD) as Hhi.
  apply Qfloor_unique.
  - apply Qle_shift_div_l; [exact HDq|].
    rewrite <- inject_Z_mult.
    apply Qle_trans with (inject_Z K).
    + rewrite <- Zle_Qle. lia.
    + lra.
  - apply Qlt_shift_div_r; [exact HDq|].
    rewrite <- inject_Z_mult.
    apply Qlt_le_trans with (inject_Z (K + 1)).
    + rewrite inject_Z_plus. change (inject_Z 1) with 1%Q. lra.
    + rewrite <- Zle_Qle. lia.
Qed.

Lemma Qfloor_div_seconds (x c f : Q) (S D : Z) :
  (x == inject_Z S + f)%Q -> (c == inject_Z D)%Q ->
  0 < D -> (0 <= f)%Q -> (f < 1)%Q ->
  Qfloor (x / c) = S / D.
Proof.
  intros Hx Hc HD Hf0 Hf1.
  rewrite (Qfloor_comp (x / c) ((inject_Z S + f) / inject_Z D))
    by (rewrite Hx, Hc; reflexivity).
  apply Qfloor_int_div; assumption.
Qed.

Lemma int_of_double_inject (x : Q) (z : Z) :
  (x == inject_Z z)%Q -> int_of_double x = z.
Proof.
  destruct x as [n d]. unfold Qeq, int_of_double. simpl. intros H.
  rewrite Z.mul_1_r in H. subst n. apply Z.quot_mul. lia.
Qed.

Lemma int_of_double_floor (x : Q) : 0 <= Qfloor x -> int_of_double x = Qfloor x.
Proof.
  destruct x as [n d]. unfold int_of_double, Qfloor. simpl. intros H.
  apply Z.quot_div_nonneg; [|lia].
  destruct (Z.neg_nonneg_cases n) as [Hn|Hn]; [|exact Hn].
  exfalso. pose proof (Z.div_lt_upper_bound n (Z.pos d) 0 ltac:(lia) ltac:(lia)). lia.
Qed.

(** The fractional part of a second. *)
Lemma floor_fraction (s : Q) :
  let f := (s - inject_Z (Qfloor s))%Q in (0 <= f)%Q /\ (f < 1)%Q.
Proof.
  pose proof (Qfloor_le s) as H1. pose proof (Qlt_floor s) as H2.
  rewrite inject_Z_plus in H2. change (inject_Z 1) with 1%Q in H2.
  simpl. split; lra.
Qed.

(** *** Calendar date to day number and back *)

(** The day count [de] of [date2gps]. *)
Definition de_of (y m d : Z) : Z :=
  let ye := y - 1980 in
  let lpdays := ye ÷ 4 + 1 in
  let lpdays := if (Z.rem ye 4 =? 0) && (m <=? 2) then lpdays - 1 else lpdays in
  ye * 365 + doy !!! Z.to_nat (m - 1) + d + lpdays - 6.

(** Year, month and day of [gps2date] from its day number [c]. *)
Definition calendar_of (c : Z) : Z * Z * Z :=
  let d := int_of_double ((double_of_int c - 122.1) / 365.25)%Q in
  let e := 365 * d + d ÷ 4 in
  let f := int_of_double (double_of_int (c - e) / 30.6001)%Q in
  let td := c - e - int_of_double (30.6001 * double_of_int f)%Q in
  let tm := f - 1 - 12 * (f ÷ 14) in
  let ty := d - 4715 - ((7 + tm) ÷ 10) in
  (ty, tm, td).

(** The argument of the first cast of [gps2date]. *)
Definition julian_arg (g : gpstime_t) : Q :=
  (double_of_int (7 * week g) + floor (sec g / 86400.0) + 2444245.0)%Q.

Lemma date2gps_fields t :
  let de := de_of (t_y t) (t_m t) (t_d t) in
  week (date2gps t) = de ÷ 7
  /\ sec (date2gps t)
     = (double_of_int (Z.rem de 7) * SECONDS_IN_DAY
        + double_of_int (t_hh t) * SECONDS_IN_HOUR
        + double_of_int (t_mm t) * SECONDS_IN_MINUTE + t_sec t)%Q.
Proof. split; reflexivity. Qed.

Lemma gps2date_calendar g :
  let ymd := calendar_of (int_of_double (julian_arg g) + 1537) in
  t_y (gps2date g) = fst (fst ymd)
  /\ t_m (gps2date g) = snd (fst ymd)
  /\ t_d (gps2date g) = snd ymd.
Proof. repeat split; reflexivity. Qed.

Definition valid_ymdb (y m d : Z) : bool :=
  (1 <=? m) && (m <=? 12) && (1 <=? d) && (d <=? days_in_month y m).

Definition from_epochb (y m d : Z) : bool :=
  (1980 <? y) || ((y =? 1980) && ((1 <? m) || (6 <=? d))).

Definition check_day (y m d : Z) : bool :=
  implb (valid_ymdb y m d && from_epochb y m d)
    ((0 <=? de_of y m d)
     && match calendar_of (de_of y m d + 2445782) with
        | (y', m', d') => (y' =? y) && (m' =? m) && (d' =? d)
        end).

Definition Zrange (lo : Z) (n : nat) : list Z :=
  (fun k => lo + Z.of_nat k) <$> seq 0 n.

Lemma In_Zrange lo n x : lo <= x < lo + Z.of_nat n -> In x (Zrange lo n).
Proof.
  intros H. unfold Zrange. apply in_map_iff.
  exists (Z.to_nat (x - lo)). split; [lia|]. apply in_seq. lia.
Qed.

Lemma calendar_checked :
  forallb (fun y =>
    forallb (fun m =>
      forallb (fun d => check_day y m d) (Zrange 1 31)) (Zrange 1 12))
    (Zrange 1980 120) = true.
Proof. vm_compute; reflexivity. Qed.

Lemma days_in_month_le y m : days_in_month y m <= 31.
Proof.
  unfold days_in_month.
  destruct (m =? 2); [destruct (leap_year y); lia|].
  destruct ((m =? 4) || (m =? 6) || (m =? 9) || (m =? 11)); lia.
Qed.

(** Every date from 1980-01-06 to 2099-12-31 has a day count that is
    not negative and from which [gps2date] finds the date again. *)
Lemma calendar_roundtrip y m d :
  1980 <= y <= 2099 -> valid_ymd y m d ->
  (1980 < y \/ (y = 1980 /\ (1 < m \/ 6 <= d))) ->
  0 <= de_of y m d /\ calendar_of (de_of y m d + 2445782) = (y, m, d).
Proof.
  intros Hy [Hm Hd] He.
  pose proof (days_in_month_le y m) as H31.
  pose proof calendar_checked as H.
  assert (Iy : In y (Zrange 1980 120)) by (apply In_Zrange; lia).
  assert (Im : In m (Zrange 1 12)) by (apply In_Zrange; lia).
  assert (Id : In d (Zrange 1 31)) by (apply In_Zrange; lia).
  rewrite forallb_forall in H. specialize (H y Iy).
  rewrite forallb_forall in H. specialize (H m Im).
  rewrite forallb_forall in H. specialize (H d Id).
  unfold check_day in H.
  assert (Hv : valid_ymdb y m d && from_epochb y m d = true).
  { unfold valid_ymdb, from_epochb.
    repeat (apply andb_true_intro; split); try (apply Z.leb_le; lia).
    destruct He as [He|[He1 [He2|He2]]].
    - apply orb_true_intro; left. apply Z.ltb_lt; lia.
    - apply orb_true_intro; right. apply andb_true_intro; split;
        [apply Z.eqb_eq; lia | apply orb_true_intro; left; apply Z.ltb_lt; lia].
    - apply orb_true_intro; right. apply andb_true_intro; split;
        [apply Z.eqb_eq; lia | apply orb_true_intro; right; apply Z.leb_le; lia]. }
  rewrite Hv in H. cbn [implb] in H.
  apply andb_prop in H as [H0 H1]. apply Z.leb_le in H0. split; [exact H0|].
  destruct (calendar_of (de_of y m d + 2445782)) as [[y' m'] d'].
  apply andb_prop in H1 as [H1 H3]. apply andb_prop in H1 as [H1 H2].
  apply Z.eqb_eq in H1, H2, H3. subst. reflexivity.
Qed.

Lemma gps2date_time g :
  t_hh (gps2date g) = Z.rem (int_of_double (sec g / 3600.0)%Q) 24
  /\ t_mm (gps2date g) = Z.rem (int_of_double (sec g / 60.0)%Q) 60
  /\ t_sec (gps2date g) = (sec g - 60.0 * floor (sec g / 60.0))%Q.
Proof. repeat split; reflexivity. Qed.

Lemma Qfloor_seconds s : (0 <= s)%Q -> (s < 60)%Q -> 0 <= Qfloor s <= 59.
Proof.
  intros H0 H60. split.
  - change 0 with (Qfloor 0). apply Qfloor_resp_le, H0.
  - pose proof (Qfloor_le s) as Hle.
    assert (H : (inject_Z (Qfloor s) < inject_Z 60)%Q)
      by (eapply Qle_lt_trans; [exact Hle | exact H60]).
    rewrite <- Zlt_Qlt in H. lia.
Qed.

(** The seconds of week that [date2gps] stores, as whole seconds [S]
    plus the fraction of [s], in a week that starts [dow] days before
    the date. *)
Lemma seconds_of_week (dow hh mm : Z) (s : Q) :
  let S := dow * 86400 + hh * 3600 + mm * 60 + Qfloor s in
  (double_of_int dow * SECONDS_IN_DAY + double_of_int hh * SECONDS_IN_HOUR
   + double_of_int mm * SECONDS_IN_MINUTE + s
   == inject_Z S + (s - inject_Z (Qfloor s)))%Q.
Proof.
  intros S. unfold S, double_of_int, SECONDS_IN_DAY, SECONDS_IN_HOUR, SECONDS_IN_MINUTE.
  rewrite !inject_Z_plus, !inject_Z_mult.
  change (inject_Z 86400) with 86400%Q.
  change (inject_Z 3600) with 3600%Q.
  change (inject_Z 60) with 60%Q.
  ring.
Qed.

Section Roundtrip.

Variables (y m d hh mm : Z) (s : Q).
Hypothesis Hy : 1980 <= y <= 2099.
Hypothesis Hymd : valid_ymd y m d.
Hypothesis Hepoch : 1980 < y \/ (y = 1980 /\ (1 < m \/ 6 <= d)).
Hypothesis Hhh : 0 <= hh < 24.
Hypothesis Hmm : 0 <= mm < 60.
Hypothesis Hs0 : (0 <= s)%Q.
Hypothesis Hs60 : (s < 60)%Q.

Let t := mk_datetime y m d hh mm s.
Let g := date2gps t.
Let de := de_of y m d.
Let dow := Z.rem de 7.
Let S := dow * 86400 + hh * 3600 + mm * 60 + Qfloor s.
Let f := (s - inject_Z (Qfloor s))%Q.

Lemma rt_de : 0 <= de /\ calendar_of (de + 2445782) = (y, m, d).
Proof. apply calendar_roundtrip; assumption. Qed.

Lemma rt_dow : 0 <= dow < 7 /\ de = 7 * (de ÷ 7) + dow.
Proof.
  destruct rt_de as [H0 _]. unfold dow.
  pose proof (Z.quot_rem' de 7). pose proof (Z.rem_bound_pos de 7 H0 ltac:(lia)).
  lia.
Qed.

Lemma rt_sec : (sec g == inject_Z S + f)%Q.
Proof. apply seconds_of_week. Qed.

Lemma rt_frac : (0 <= f)%Q /\ (f < 1)%Q.
Proof. apply floor_fraction. Qed.

Lemma rt_floor (c : Q) (D : Z) :
  (c == inject_Z D)%Q -> 0 < D -> Qfloor (sec g / c) = S / D.
Proof.
  intros Hc HD. destruct rt_frac as [F0 F1].
  apply (Qfloor_div_seconds _ _ f); [apply rt_sec | exact Hc | exact HD | exact F0 | exact F1].
Qed.

Lemma rt_S_div :
  S / 86400 = dow /\ S / 3600 = dow * 24 + hh /\ S / 60 = dow * 1440 + hh * 60 + mm.
Proof.
  destruct rt_dow as [Hd _]. pose proof (Qfloor_seconds s Hs0 Hs60) as Hf.
  unfold S. repeat split; symmetry.
  - apply (Z.div_unique _ _ _ (hh * 3600 + mm * 60 + Qfloor s)); lia.
  - apply (Z.div_unique _ _ _ (mm * 60 + Qfloor s)); lia.
  - apply (Z.div_unique _ _ _ (Qfloor s)); lia.
Qed.

Lemma rt_julian : int_of_double (julian_arg g) + 1537 = de + 2445782.
Proof.
  destruct rt_dow as [Hd Hde]. destruct rt_S_div as [H1 _].
  rewrite (int_of_double_inject _ (de + 2444245)); [lia|].
  unfold julian_arg, floor.
  rewrite (rt_floor 86400.0 86400) by (reflexivity || lia).
  rewrite H1. unfold double_of_int.
  change (week g) with (de ÷ 7).
  rewrite Hde at 2.
  rewrite !inject_Z_plus, !inject_Z_mult.
  change (inject_Z 7) with 7%Q. change (inject_Z 2444245) with 2444245%Q.
  ring.
Qed.

Lemma rt_date :
  t_y (gps2date g) = y /\ t_m (gps2date g) = m /\ t_d (gps2date g) = d.
Proof.
  destruct (gps2date_calendar g) as [H1 [H2 H3]].
  rewrite rt_julian, (proj2 rt_de) in H1, H2, H3.
  repeat split; assumption.
Qed.

Lemma rt_hh : t_hh (gps2date g) = hh.
Proof.
  destruct rt_dow as [Hd _]. destruct rt_S_div as [_ [H _]].
  rewrite (proj1 (gps2date_time g)).
  rewrite int_of_double_floor; rewrite (rt_floor 3600.0 3600) by (reflexivity || lia);
    rewrite H; [|lia].
  rewrite Z.rem_mod_nonneg by lia.
  symmetry. apply (Z.mod_unique _ _ dow); lia.
Qed.

Lemma rt_mm : t_mm (gps2date g) = mm.
Proof.
  destruct rt_dow as [Hd _]. destruct rt_S_div as [_ [_ H]].
  rewrite (proj1 (proj2 (gps2date_time g))).
  rewrite int_of_double_floor; rewrite (rt_floor 60.0 60) by (reflexivity || lia);
    rewrite H; [|lia].
  rewrite Z.rem_mod_nonneg by lia.
  symmetry. apply (Z.mod_unique _ _ (dow * 24 + hh)); lia.
Qed.

Lemma rt_seconds : (t_sec (gps2date g) == s)%Q.
Proof.
  destruct rt_S_div as [_ [_ H]].
  rewrite (proj2 (proj2 (gps2date_time g))).
  unfold floor. rewrite (rt_floor 60.0 60) by (reflexivity || lia).
  rewrite rt_sec, H.
  unfold S, f. rewrite !inject_Z_plus, !inject_Z_mult.
  change (inject_Z 86400) with 86400%Q.
  change (inject_Z 3600) with 3600%Q.
  change (inject_Z 1440) with 1440%Q.
  change (inject_Z 60) with 60%Q.
  ring.
Qed.

End Roundtrip.

(** Closed comparisons of numbers. *)
Ltac by_computation := vm_compute; first [reflexivity | discriminate].

Ltac specialize_hyps H :=
  repeat match type of H with
         | ?P -> _ => let p := fresh in assert (p : P) by assumption; specialize (H p); clear p
         end.

(** Over exact seconds every field comes back, whatever the seconds. *)
Lemma roundtrip_fields (t : datetime_t) :
  valid_datetime t -> 1980 <= t_y t <= 2099 -> from_epoch t ->
  same_datetime (gps2date (date2gps t)) t
  /\ (t_sec (gps2date (date2gps t)) == t_sec t)%Q.
Proof.
  destruct t as [y m d hh mm s]. unfold valid_datetime, from_epoch.
  cbn [t_y t_m t_d t_hh t_mm t_sec].
  intros [Hymd [Hhh [Hmm [Hs0 Hs60]]]] Hy He.
  assert (YMD := rt_date y m d hh mm s). destruct YMD as [Y [M D]]; try assumption.
  assert (HH := rt_hh y m d hh mm s). specialize_hyps HH.
  assert (MM := rt_mm y m d hh mm s). specialize_hyps MM.
  assert (SS := rt_seconds y m d hh mm s). specialize_hyps SS. cbv zeta in SS.
  split; [|exact SS].
  unfold same_datetime.
  split; [exact Y|]. split; [exact M|]. split; [exact D|].
  split; [exact HH|]. split; [exact MM|].
  apply Qabs_Qle_condition.
  change (t_sec (mk_datetime y m d hh mm s)) with s.
  rewrite SS. split; lra.
Qed.

(** Seconds with at most 32 binary digits after the point (whole
    seconds, as the RINEX readers produce them, in particular).  For
    such seconds below 60 the sum that [date2gps] stores, below 2^20,
    has at most 52 significant bits: the binary64 additions are exact,
    and so is the difference that [gps2date] returns as seconds. *)
Definition short_fraction (x : Q) : Prop :=
  exists k : Z, (x == inject_Z k / 4294967296)%Q.

(** C3 (as found in the code): for every calendar time from 1980-01-06
    (the GPS epoch) to the end of 2099 with valid fields, [date2gps]
    followed by [gps2date] gives a valid calendar time for the same
    instant, to within 1 ms; and when the seconds have at most 32
    binary digits after the point, it gives every field again, the
    seconds exactly.  (Other seconds can make the sum of [date2gps]
    round up to the next minute in binary64:
    [Binary64Facts.roundtrip_next_day].) *)
Theorem date2gps_gps2date_roundtrip (t : datetime_t) :
  valid_datetime t -> 1980 <= t_y t <= 2099 -> from_epoch t ->
  let t' := gps2date (date2gps t) in
  (valid_datetime t'
   /\ (Qabs (gps_seconds (date2gps t') - gps_seconds (date2gps t)) <= 0.001)%Q)
  /\ (short_fraction (t_sec t) ->
      same_datetime t' t /\ (t_sec t' == t_sec t)%Q).
Proof.
  intros Hv Hy He t'.
  destruct (roundtrip_fields t Hv Hy He) as [Same SS]. fold t' in Same, SS.
  split; [|intros _; split; assumption].
  destruct Same as (Y & M & D & HH & MM & _).
  destruct Hv as (Hymd & Hhh & Hmm & Hs0 & Hs60).
  split.
  - unfold valid_datetime. rewrite Y, M, D, HH, MM, SS.
    split; [exact Hymd|]. split; [exact Hhh|]. split; [exact Hmm|].
    split; assumption.
  - destruct (date2gps_fields t') as [W' S']. destruct (date2gps_fields t) as [W S].
    cbv zeta in W', S', W, S. rewrite Y, M, D in W'. rewrite Y, M, D, HH, MM in S'.
    assert (E : (gps_seconds (date2gps t') - gps_seconds (date2gps t) == 0)%Q).
    { unfold gps_seconds. rewrite W', W, S', S, SS. ring. }
    rewrite E. apply Qabs_Qle_condition. split; lra.
Qed.

Lemma date2gps_gps2date_roundtrip_witness :
  let t := mk_datetime 2014 12 20 23 59 59.75 in
  let t' := gps2date (date2gps t) in
  (valid_datetime t'
   /\ (Qabs (gps_seconds (date2gps t') - gps_seconds (date2gps t)) <= 0.001)%Q)
  /\ same_datetime t' t /\ (t_sec t' == t_sec t)%Q.
Proof.
  assert (Hv : valid_datetime (mk_datetime 2014 12 20 23 59 59.75))
    by (unfold valid_datetime, valid_ymd; repeat split; by_computation).
  assert (Hy : 1980 <= t_y (mk_datetime 2014 12 20 23 59 59.75) <= 2099)
    by (split; by_computation).
  assert (He : from_epoch (mk_datetime 2014 12 20 23 59 59.75))
    by (unfold from_epoch; left; by_computation).
  assert (Hs : short_fraction (t_sec (mk_datetime 2014 12 20 23 59 59.75)))
    by (exists 256624295936; by_computation).
  destruct (date2gps_gps2date_roundtrip (mk_datetime 2014 12 20 23 59 59.75) Hv Hy He)
    as [A B].
  split; [exact A | exact (B Hs)].
Defined.

(** C3 (as stated) fails before the epoch: 1980-01-01 01:00:00 is a valid
    calendar time of the year 1980, and it comes back with hour -23. *)
Lemma date2gps_gps2date_before_epoch :
  let t := mk_datetime 1980 1 1 1 0 0 in
  valid_datetime t /\ 1980 <= t_y t <= 2099
  /\ t_hh (gps2date (date2gps t)) = -23
  /\ ~ same_datetime (gps2date (date2gps t)) t.
Proof.
  cbv zeta. split; [|split; [|split]].
  - unfold valid_datetime, valid_ymd. repeat split; by_computation.
  - split; by_computation.
  - vm_compute. reflexivity.
  - intros [_ [_ [_ [H _]]]]. vm_compute in H. discriminate H.
Qed.

(** *** Differences of GPS times *)

(** [subGpsTime] is the difference of the two instants in seconds. *)
Lemma subGpsTime_seconds (g1 g0 : gpstime_t) :
  (subGpsTime g1 g0 == gps_seconds g1 - gps_seconds g0)%Q.
Proof.
  unfold subGpsTime, gps_seconds, double_of_int. cbv zeta.
  unfold Z.sub. rewrite inject_Z_plus, inject_Z_opp. ring.
Qed.

(** *** Adding seconds to a GPS time *)

Lemma Qgeb_true x y : Qgeb x y = true <-> (y <= x)%Q.
Proof. unfold Qgeb. apply Qle_bool_iff. Qed.

Lemma Qgeb_false x y : Qgeb x y = false <-> (x < y)%Q.
Proof.
  unfold Qgeb. split; intros H.
  - apply Qnot_le_lt. intros Hle. apply Qle_bool_iff in Hle. congruence.
  - destruct (Qle_bool y x) eqn:E; [|reflexivity].
    apply Qle_bool_iff in E. exfalso. apply (Qlt_not_le _ _ H E).
Qed.

Lemma Qltb_true x y : Qltb x y = true <-> (x < y)%Q.
Proof.
  unfold Qltb. rewrite negb_true_iff. apply (Qgeb_false x y).
Qed.

Lemma Qltb_false x y : Qltb x y = false <-> (y <= x)%Q.
Proof.
  unfold Qltb. rewrite negb_false_iff. apply (Qgeb_true x y).
Qed.

Lemma gps_seconds_step_down g :
  (gps_seconds {| week := week g + 1; sec := sec g - SECONDS_IN_WEEK |}
   == gps_seconds g)%Q.
Proof.
  unfold gps_seconds, double_of_int, SECONDS_IN_WEEK. cbn [week sec].
  rewrite inject_Z_plus. change (inject_Z 1) with 1%Q. ring.
Qed.

Lemma gps_seconds_step_up g :
  (gps_seconds {| week := week g - 1; sec := sec g + SECONDS_IN_WEEK |}
   == gps_seconds g)%Q.
Proof.
  unfold gps_seconds, double_of_int, SECONDS_IN_WEEK. cbn [week sec].
  unfold Z.sub. rewrite inject_Z_plus, inject_Z_opp. change (inject_Z 1) with 1%Q. ring.
Qed.

(** The first loop leaves when the seconds are below a week; it keeps
    the instant. *)
Lemma week_down_spec n : forall g,
  (0 <= sec g)%Q ->
  (sec g < SECONDS_IN_WEEK * inject_Z (Z.of_nat n))%Q ->
  (0 <= sec (week_down n g))%Q /\ (sec (week_down n g) < SECONDS_IN_WEEK)%Q
  /\ (gps_seconds (week_down n g) == gps_seconds g)%Q.
Proof.
  unfold SECONDS_IN_WEEK.
  induction n as [|n IH]; intros g H0 Hn.
  - exfalso. change (inject_Z (Z.of_nat 0)) with 0%Q in Hn. lra.
  - cbn [week_down]. destruct (Qgeb (sec g) SECONDS_IN_WEEK) eqn:E.
    + apply Qgeb_true in E. unfold SECONDS_IN_WEEK in E.
      rewrite Nat2Z.inj_succ, <- Z.add_1_r, inject_Z_plus in Hn.
      change (inject_Z 1) with 1%Q in Hn.
      destruct (IH {| week := week g + 1; sec := sec g - SECONDS_IN_WEEK |})
        as [A [B C]]; unfold SECONDS_IN_WEEK; cbn [sec]; try lra.
      repeat split; try assumption.
      rewrite C. apply gps_seconds_step_down.
    + apply Qgeb_false in E. unfold SECONDS_IN_WEEK in E.
      repeat split; try assumption; reflexivity.
Qed.

Lemma week_down_idle n g : (sec g < SECONDS_IN_WEEK)%Q -> week_down n g = g.
Proof.
  intros H. destruct n; [reflexivity|]. cbn [week_down].
  apply Qgeb_false in H. rewrite H. reflexivity.
Qed.

Lemma week_up_idle n g : (0 <= sec g)%Q -> week_up n g = g.
Proof.
  intros H. destruct n; [reflexivity|]. cbn [week_up].
  apply Qltb_false in H. rewrite H. reflexivity.
Qed.

(** The second loop leaves when the seconds are not negative. *)
Lemma week_up_spec n : forall g,
  (sec g < 0)%Q ->
  (- (SECONDS_IN_WEEK * inject_Z (Z.of_nat n)) <= sec g)%Q ->
  (0 <= sec (week_up n g))%Q /\ (sec (week_up n g) < SECONDS_IN_WEEK)%Q
  /\ (gps_seconds (week_up n g) == gps_seconds g)%Q.
Proof.
  unfold SECONDS_IN_WEEK.
  induction n as [|n IH]; intros g H0 Hn.
  - exfalso. change (inject_Z (Z.of_nat 0)) with 0%Q in Hn. lra.
  - cbn [week_up]. apply Qltb_true in H0 as E. rewrite E.
    rewrite Nat2Z.inj_succ, <- Z.add_1_r, inject_Z_plus in Hn.
    change (inject_Z 1) with 1%Q in Hn.
    set (g' := {| week := week g - 1; sec := sec g + SECONDS_IN_WEEK |}).
    assert (Hg' : (sec g' == sec g + 604800.0)%Q) by reflexivity.
    destruct (Qlt_le_dec (sec g') 0) as [Hneg|Hpos].
    + destruct (IH g') as [A [B C]]; try lra.
      repeat split; try assumption.
      rewrite C. apply gps_seconds_step_up.
    + rewrite week_up_idle by exact Hpos.
      repeat split; try lra. apply gps_seconds_step_up.
Qed.

(** The number of turns granted to the loops is enough. *)
Lemma turns_enough s :
  ((0 <= s -> s < SECONDS_IN_WEEK * inject_Z (Z.of_nat (turns s)))
   /\ (s < 0 -> - (SECONDS_IN_WEEK * inject_Z (Z.of_nat (turns s))) <= s))%Q.
Proof.
  unfold turns.
  set (q := Qfloor (s / SECONDS_IN_WEEK)).
  assert (HW : (0 < SECONDS_IN_WEEK)%Q) by reflexivity.
  assert (Hq : (inject_Z q * SECONDS_IN_WEEK <= s
                /\ s < (inject_Z q + 1) * SECONDS_IN_WEEK)%Q).
  { pose proof (Qfloor_le (s / SECONDS_IN_WEEK)) as H1.
    pose proof (Qlt_floor (s / SECONDS_IN_WEEK)) as H2.
    fold q in H1, H2. rewrite inject_Z_plus in H2. change (inject_Z 1) with 1%Q in H2.
    assert (Hs : (s / SECONDS_IN_WEEK * SECONDS_IN_WEEK == s)%Q)
      by (field; discriminate).
    split.
    - assert (A : (inject_Z q * SECONDS_IN_WEEK
                   <= s / SECONDS_IN_WEEK * SECONDS_IN_WEEK)%Q)
        by (apply Qmult_le_compat_r; [exact H1 | apply Qlt_le_weak, HW]).
      rewrite Hs in A. exact A.
    - assert (A : (s / SECONDS_IN_WEEK * SECONDS_IN_WEEK
                   < (inject_Z q + 1) * SECONDS_IN_WEEK)%Q)
        by (apply Qmult_lt_compat_r; [exact HW | exact H2]).
      rewrite Hs in A. exact A. }
  destruct Hq as [Hlo Hhi]. unfold SECONDS_IN_WEEK in *.
  rewrite Nat2Z.inj_succ, <- Z.add_1_r, inject_Z_plus, Z2Nat.id by lia.
  change (inject_Z 1) with 1%Q.
  split; intros Hs.
  - assert (Hq0 : 0 <= q).
    { change 0 with (Qfloor 0). apply Qfloor_resp_le.
      apply Qle_shift_div_l; [reflexivity | lra]. }
    rewrite Z.abs_eq by exact Hq0. lra.
  - assert (Hq0 : q < 0).
    { assert (H : (inject_Z q < inject_Z 0)%Q) by (change (inject_Z 0) with 0%Q; lra).
      rewrite <- Zlt_Qlt in H. exact H. }
    rewrite Z.abs_neq by lia. rewrite inject_Z_opp. lra.
Qed.

Lemma round_error x : (Qabs (round x - x) <= 0.5)%Q.
Proof.
  apply Qabs_Qle_condition. unfold round.
  destruct (Qle_bool 0 x).
  - pose proof (Qfloor_le (x + 0.5)) as H1. pose proof (Qlt_floor (x + 0.5)) as H2.
    rewrite inject_Z_plus in H2. change (inject_Z 1) with 1%Q in H2.
    split; lra.
  - pose proof (Qle_ceiling (x - 0.5)) as H1. pose proof (Qceiling_lt (x - 0.5)) as H2.
    unfold Z.sub in H2. rewrite inject_Z_plus, inject_Z_opp in H2.
    change (inject_Z 1) with 1%Q in H2.
    split; lra.
Qed.

(** The seconds after the rounding to milliseconds of [incGpsTime]. *)
Definition rounded_ms (g0 : gpstime_t) (dt : Q) : Q :=
  (round ((sec g0 + dt) * 1000.0) / 1000.0)%Q.

Lemma rounded_ms_error g0 dt : (Qabs (rounded_ms g0 dt - (sec g0 + dt)) <= 0.0005)%Q.
Proof.
  unfold rounded_ms.
  pose proof (round_error ((sec g0 + dt) * 1000.0)) as H.
  apply Qabs_Qle_condition in H. apply Qabs_Qle_condition.
  set (r := round ((sec g0 + dt) * 1000.0)) in *.
  assert (E : (r / 1000.0 == r * 0.001)%Q) by (field; discriminate).
  rewrite E. split; lra.
Qed.

(** [incGpsTime]: both loops end, the seconds are within the week, and
    the instant is the rounded sum. *)
Lemma incGpsTime_spec g0 dt :
  let g1 := incGpsTime g0 dt in
  (0 <= sec g1)%Q /\ (sec g1 < SECONDS_IN_WEEK)%Q
  /\ (gps_seconds g1
      == double_of_int (week g0) * SECONDS_IN_WEEK + rounded_ms g0 dt)%Q.
Proof.
  unfold incGpsTime. cbv zeta. cbn [week sec]. fold (rounded_ms g0 dt).
  set (r := rounded_ms g0 dt).
  set (ga := {| week := week g0; sec := r |}).
  assert (Ega : (gps_seconds ga == double_of_int (week g0) * SECONDS_IN_WEEK + r)%Q)
    by reflexivity.
  destruct (turns_enough r) as [Tpos Tneg].
  destruct (Qlt_le_dec r 0) as [Hneg|Hpos].
  - rewrite week_down_idle
      by (change (sec ga) with r; unfold SECONDS_IN_WEEK; lra).
    destruct (week_up_spec (turns (sec ga)) ga) as [A [B C]];
      [exact Hneg | exact (Tneg Hneg) |].
    repeat split; try assumption; try (rewrite C; exact Ega).
  - destruct (week_down_spec (turns r) ga) as [A [B C]];
      [exact Hpos | exact (Tpos Hpos) |].
    rewrite week_up_idle by exact A.
    repeat split; try assumption; try (rewrite C; exact Ega).
Qed.

(** C8: for a GPS time [g0] with seconds of week in [0, 604800) and an
    increment [dt] of at most [n] weeks in size, [incGpsTime g0 dt] has
    its seconds in [0, 604800); it denotes the instant of [g0] plus [dt]
    up to the rounding to milliseconds (half a millisecond at most);
    and its week is within [n + 1] of the week of [g0].  The function
    takes [g0] by value and returns a new value. *)
Theorem incGpsTime_normalised (g0 : gpstime_t) (dt : Q) (n : Z) :
  (0 <= sec g0)%Q -> (sec g0 < SECONDS_IN_WEEK)%Q ->
  (Qabs dt <= inject_Z n * SECONDS_IN_WEEK)%Q ->
  let g1 := incGpsTime g0 dt in
  ((0 <= sec g1)%Q /\ (sec g1 < SECONDS_IN_WEEK)%Q)
  /\ (Qabs (gps_seconds g1 - (gps_seconds g0 + dt)) <= 0.0005)%Q
  /\ Z.abs (week g1 - week g0) <= n + 1.
Proof.
  intros H0 HW Hdt g1.
  destruct (incGpsTime_spec g0 dt) as [A [B C]]. fold g1 in A, B, C.
  pose proof (rounded_ms_error g0 dt) as R.
  apply Qabs_Qle_condition in R. apply Qabs_Qle_condition in Hdt.
  assert (D : (Qabs (gps_seconds g1 - (gps_seconds g0 + dt)) <= 0.0005)%Q).
  { apply Qabs_Qle_condition. rewrite C. unfold gps_seconds. split; lra. }
  split; [split; assumption|]. split; [exact D|].
  apply Qabs_Qle_condition in D.
  unfold gps_seconds, double_of_int, SECONDS_IN_WEEK in *.
  assert (E : (inject_Z (week g1 - week g0) == inject_Z (week g1) - inject_Z (week g0))%Q)
    by (unfold Z.sub; rewrite inject_Z_plus, inject_Z_opp; ring).
  assert (Hlo : (inject_Z (- (n + 2)) < inject_Z (week g1 - week g0))%Q).
  { rewrite E, inject_Z_opp, inject_Z_plus. change (inject_Z 2) with 2%Q. lra. }
  assert (Hhi : (inject_Z (week g1 - week g0) < inject_Z (n + 2))%Q).
  { rewrite E, inject_Z_plus. change (inject_Z 2) with 2%Q. lra. }
  rewrite <- Zlt_Qlt in Hlo, Hhi. lia.
Qed.

Lemma incGpsTime_normalised_witness :
  let g1 := incGpsTime (mk_gpstime 1823 604799.95) 0.1 in
  ((0 <= sec g1)%Q /\ (sec g1 < SECONDS_IN_WEEK)%Q)
  /\ (Qabs (gps_seconds g1 - (gps_seconds (mk_gpstime 1823 604799.95) + 0.1)) <= 0.0005)%Q
  /\ Z.abs (week g1 - 1823) <= 1 + 1.
Proof.
  apply (incGpsTime_normalised (mk_gpstime 1823 604799.95) 0.1 1); by_computation.
Defined.

End GpsTimeFacts.

(** ** Ephemeris sets *)

Module RinexFacts.
Import GpsTime Rinex GpsTimeFacts.

(** The test [dt > SECONDS_IN_HOUR] of the record loop compares the two
    instants: the TOC of the record is more than 3600 s after the anchor. *)
Lemma late_spec (g a : gpstime_t) :
  Qltb SECONDS_IN_HOUR (subGpsTime g a) = true
  <-> (3600 < gps_seconds g - gps_seconds a)%Q.
Proof.
  rewrite Qltb_true, subGpsTime_seconds. unfold SECONDS_IN_HOUR.
  split; intros H; lra.
Qed.

(** C6 (as found in the code): while the records of a RINEX file are
    read, a record whose TOC is more than 3600 s after the anchor of the
    current set (the difference of the two instants, weeks included)
    moves the index [ieph] up by one and makes its TOC the anchor, and
    it is stored in the new set if that set is one of the 13 of the
    table; if it would be the 14th, the loop ends and the record is
    stored nowhere.  A record not more than 3600 s after the anchor
    leaves index and anchor as they are and is stored in the current
    set.  The index goes up exactly in the first case.  The first
    record of a file (no anchor yet) is its own anchor and is stored in
    the current set. *)
Theorem place_record_set_boundary (c : cursor) (g : gpstime_t) :
  let late := (3600 < gps_seconds g - gps_seconds (anchor c g))%Q in
  let c' := fst (place_record c g) in
  let slot := snd (place_record c g) in
  (late ->
     ieph c' = ieph c + 1 /\ g0 c' = g
     /\ (ieph c + 1 < 13 -> slot = Some (ieph c + 1))
     /\ (13 <= ieph c + 1 -> slot = None))
  /\ (~ late ->
      ieph c' = ieph c /\ g0 c' = anchor c g /\ slot = Some (ieph c))
  /\ (ieph c' = ieph c + 1 <-> late)
  /\ (week (g0 c) = -1 -> g0 c' = g /\ slot = Some (ieph c)).
Proof.
  cbv zeta.
  assert (First : week (g0 c) = -1 ->
            ~ (3600 < gps_seconds g - gps_seconds (anchor c g))%Q /\ anchor c g = g).
  { intros W. unfold anchor. rewrite W. cbn [Z.eqb Pos.eqb]. split; [lra | reflexivity]. }
  unfold place_record.
  destruct (Qltb SECONDS_IN_HOUR (subGpsTime g (anchor c g))) eqn:E.
  - apply late_spec in E. cbn [ieph g0].
    unfold EPHEM_ARRAY_SIZE.
    destruct (Z.leb_spec 13 (ieph c + 1)) as [F|F]; cbn [fst snd ieph g0].
    + split; [|split; [|split]].
      * intros _. split; [reflexivity|]. split; [reflexivity|].
        split; [intros H; lia | intros _; reflexivity].
      * intros H. contradiction.
      * split; [intros _; exact E | intros _; reflexivity].
      * intros W. destruct (First W) as [N _]. contradiction.
    + split; [|split; [|split]].
      * intros _. split; [reflexivity|]. split; [reflexivity|].
        split; [intros _; reflexivity | intros H; lia].
      * intros H. contradiction.
      * split; [intros _; exact E | intros _; reflexivity].
      * intros W. destruct (First W) as [N _]. contradiction.
  - assert (N : ~ (3600 < gps_seconds g - gps_seconds (anchor c g))%Q).
    { intros H. apply late_spec in H. congruence. }
    cbn [fst snd ieph g0]. split; [|split; [|split]].
    + intros H. contradiction.
    + intros _. repeat split; reflexivity.
    + split; [intros H; lia | intros H; contradiction].
    + intros W. destruct (First W) as [_ A]. split; [exact A | reflexivity].
Qed.

(** C6 (as stated) fails at the fourteenth set: of fourteen records two
    hours apart the first thirteen open the sets 0 to 12, and the last
    one, more than 3600 s after its anchor, is placed in no set (the
    loop has ended, so no later record is stored either). *)
Lemma place_records_fourteenth_set :
  let toc_of (k : nat) := mk_gpstime 1823 (inject_Z (7200 * Z.of_nat k)) in
  let c := {| g0 := toc_of 12%nat; ieph := 12 |} in
  place_records (start 0) (toc_of <$> seq 0 14)
  = (fun k => (toc_of k, Z.of_nat k)) <$> seq 0 13
  /\ (3600 < gps_seconds (toc_of 13%nat) - gps_seconds (anchor c (toc_of 13%nat)))%Q
  /\ (SECONDS_IN_HOUR < subGpsTime (toc_of 13%nat) (anchor c (toc_of 13%nat)))%Q
  /\ snd (place_record c (toc_of 13%nat)) = None.
Proof.
  cbv zeta. repeat split; vm_compute; reflexivity.
Qed.

(** The first record of a file joins set 0 and becomes its anchor. *)
Lemma place_first_record (s : Q) (g : gpstime_t) :
  place_record (start s) g = ({| g0 := g; ieph := 0 |}, Some 0).
Proof.
  unfold place_record, anchor, start. cbn [g0 week ieph Z.eqb Pos.eqb].
  assert (E : Qltb SECONDS_IN_HOUR (subGpsTime g g) = false).
  { apply Qltb_false. unfold subGpsTime, double_of_int, SECONDS_IN_HOUR, SECONDS_IN_WEEK.
    rewrite Z.sub_diag. change (inject_Z 0) with 0%Q. lra. }
  rewrite E. reflexivity.
Qed.

End RinexFacts.

(** ** The signal engine *)

Module EngineFacts.
Import GpsTime Engine GpsTimeFacts.

Section Facts.
Context {env : Env}.

(** *** Field updates of a channel *)

Lemma prn_generateNavMsg g c init : prn (generateNavMsg g c init) = prn c.
Proof.
  unfold generateNavMsg. cbv zeta.
  destruct (foldl _ _ _) as [tow st]. reflexivity.
Qed.

Lemma ca_generateNavMsg g c init : ca (generateNavMsg g c init) = ca c.
Proof.
  unfold generateNavMsg. cbv zeta.
  destruct (foldl _ _ _) as [tow st]. reflexivity.
Qed.

Lemma rho0_generateNavMsg g c init : rho0 (generateNavMsg g c init) = rho0 c.
Proof.
  unfold generateNavMsg. cbv zeta.
  destruct (foldl _ _ _) as [tow st]. reflexivity.
Qed.

Lemma prn_init_channel e io g xyz sv azel c :
  prn (init_channel e io g xyz sv azel c) = Z.of_nat sv + 1.
Proof.
  unfold init_channel. cbv zeta.
  cbn [prn set_carr_phase set_rho0]. rewrite prn_generateNavMsg. reflexivity.
Qed.

Lemma ca_init_channel e io g xyz sv azel c :
  ca (init_channel e io g xyz sv azel c) = CACode.codegen (ca c) (Z.of_nat sv + 1).
Proof.
  unfold init_channel. cbv zeta.
  cbn [ca set_carr_phase set_rho0]. rewrite ca_generateNavMsg. reflexivity.
Qed.

Lemma rho0_init_channel e io g xyz sv azel c :
  rho0 (init_channel e io g xyz sv azel c) = computeRange e io g xyz.
Proof. reflexivity. Qed.

(** *** Ionospheric delay *)

Lemma iono_delay_computeRange eph ionoutc g xyz :
  exists llh azel,
    iono_delay (computeRange eph ionoutc g xyz) = ionosphericDelay ionoutc g llh azel.
Proof.
  unfold computeRange. destruct (satpos eph g) as [[pos vel] clk]. cbv zeta.
  cbn [iono_delay]. eexists. eexists. reflexivity.
Qed.

(** C5: with the enable flag false, [ionosphericDelay] returns exactly 0;
    with the enable flag true and the validity flag false it returns
    [F * 5e-9 * c], where [F = 1 + 16 * (0.53 - el / PI)^3] and [c] is
    the speed of light.  Hence with the ionosphere disabled the delay
    stored by [computeRange] is 0, and so is the one of every channel
    that [allocateChannel] initialises. *)
Theorem ionosphericDelay_disabled_or_invalid (ionoutc : ionoutc_t) :
  (enable ionoutc = false ->
     (forall g llh azel, ionosphericDelay ionoutc g llh azel = 0.0%Q)
     /\ (forall eph g xyz, iono_delay (computeRange eph ionoutc g xyz) = 0.0%Q)
     /\ (forall eph g xyz sv azel c,
           iono_delay (rho0 (init_channel eph ionoutc g xyz sv azel c)) = 0.0%Q))
  /\ (enable ionoutc = true -> vflg ionoutc = false ->
       forall g llh azel,
         ionosphericDelay ionoutc g llh azel
         = ((1.0 + 16.0 * (0.53 - snd azel / PI) ^ 3) * 5.0e-9 * SPEED_OF_LIGHT)%Q).
Proof.
  split.
  - intros He.
    assert (H : forall g llh azel, ionosphericDelay ionoutc g llh azel = 0.0%Q).
    { intros g llh azel. unfold ionosphericDelay. rewrite He. reflexivity. }
    split; [exact H|]. split.
    + intros eph g xyz.
      destruct (iono_delay_computeRange eph ionoutc g xyz) as [llh [azel E]].
      rewrite E. apply H.
    + intros eph g xyz sv azel c. rewrite rho0_init_channel.
      destruct (iono_delay_computeRange eph ionoutc g xyz) as [llh [az E]].
      rewrite E. apply H.
  - intros He Hv g llh azel. unfold ionosphericDelay, obliquity.
    rewrite He, Hv. reflexivity.
Qed.

(** *** The channel table and the allocation table *)

(** Channel [i] serves satellite index [sv]. *)
Definition serves (s : sched_t) (sv i : nat) : Prop :=
  allocatedSat s !! sv = Some (Z.of_nat i).

(** The tables agree: an entry of [allocatedSat] is -1 or the index of a
    channel whose PRN is that of the satellite, and a channel with a PRN
    is the one recorded for that satellite. *)
Record consistent (s : sched_t) : Prop := mk_consistent {
  chan_length : length (chan s) = MAX_CHAN;
  sat_length : length (allocatedSat s) = MAX_SAT;
  sat_to_chan : forall sv a,
    allocatedSat s !! sv = Some a ->
    a = -1 \/ (0 <= a < Z.of_nat MAX_CHAN
               /\ prn (chan s !!! Z.to_nat a) = Z.of_nat sv + 1);
  chan_to_sat : forall i c,
    chan s !! i = Some c -> prn c <> 0 ->
    1 <= prn c <= Z.of_nat MAX_SAT
    /\ allocatedSat s !! Z.to_nat (prn c - 1) = Some (Z.of_nat i)
}.

Lemma first_idle_spec n : forall i ch,
  (i <= first_idle n i ch <= i + n)%nat
  /\ ((first_idle n i ch < i + n)%nat -> prn (ch !!! first_idle n i ch) = 0).
Proof.
  induction n as [|n IH]; intros i ch; cbn [first_idle].
  - split; [lia|]. intros H. lia.
  - destruct (prn (ch !!! i) =? 0) eqn:E.
    + apply Z.eqb_eq in E. split; [lia|]. intros _. exact E.
    + destruct (IH (S i) ch) as [H1 H2]. split; [lia|].
      intros H. apply H2. lia.
Qed.

Lemma consistent_clear ch :
  length ch = MAX_CHAN -> consistent (clear_tables ch).
Proof.
  intros Hlen. unfold clear_tables. constructor; cbn [chan allocatedSat].
  - rewrite length_fmap. exact Hlen.
  - apply length_replicate.
  - intros sv a H. apply lookup_replicate in H as [H _]. left. exact H.
  - intros i c H Hp. exfalso. apply Hp.
    rewrite list_lookup_fmap in H.
    destruct (ch !! i); [|discriminate]. injection H as <-. reflexivity.
Qed.

(** Writing channel fields other than the PRN keeps the tables consistent. *)
Lemma consistent_same_prn s ch :
  consistent s -> prn <$> ch = prn <$> chan s ->
  consistent {| chan := ch; allocatedSat := allocatedSat s |}.
Proof.
  intros [L1 L2 H1 H2] E.
  assert (Hlen : length ch = length (chan s))
    by (rewrite <- (length_fmap prn ch), E, length_fmap; reflexivity).
  assert (Hprn : forall i, (i < length ch)%nat -> prn (ch !!! i) = prn (chan s !!! i)).
  { intros i Hi.
    rewrite <- (list_lookup_total_fmap prn ch i Hi), E.
    apply list_lookup_total_fmap. rewrite <- Hlen. exact Hi. }
  constructor; cbn [chan allocatedSat].
  - congruence.
  - exact L2.
  - intros sv a Ha. destruct (H1 sv a Ha) as [?|[? ?]]; [left; assumption|].
    right. split; [assumption|]. rewrite Hprn by (rewrite Hlen, L1; lia). assumption.
  - intros i c Hc Hp.
    assert (Hi : (i < length ch)%nat) by (apply lookup_lt_Some in Hc; exact Hc).
    assert (Hi' : (i < length (chan s))%nat) by (rewrite <- Hlen; exact Hi).
    pose proof (list_lookup_lookup_total_lt (chan s) i Hi') as Hc'.
    assert (Ec : prn (chan s !!! i) = prn c).
    { rewrite <- (Hprn i Hi). rewrite (list_lookup_total_correct _ _ _ Hc). reflexivity. }
    rewrite <- Ec in *. apply (H2 i _ Hc' Hp).
Qed.

Lemma consistent_assign s sv i c' :
  consistent s -> (sv < MAX_SAT)%nat -> (i < MAX_CHAN)%nat ->
  allocatedSat s !!! sv = -1 -> prn (chan s !!! i) = 0 ->
  prn c' = Z.of_nat sv + 1 ->
  consistent {| chan := <[i := c']> (chan s);
                allocatedSat := <[sv := Z.of_nat i]> (allocatedSat s) |}.
Proof.
  intros [L1 L2 H1 H2] Hsv Hi Hfree Hidle Hprn. unfold MAX_SAT, MAX_CHAN in *.
  constructor; cbn [chan allocatedSat]; unfold MAX_SAT, MAX_CHAN in *.
  - rewrite length_insert. exact L1.
  - rewrite length_insert. exact L2.
  - intros sv' a Ha. destruct (decide (sv' = sv)) as [->|Hne].
    + rewrite list_lookup_insert_eq in Ha by lia. injection Ha as <-.
      right. split; [lia|]. rewrite Nat2Z.id.
      rewrite list_lookup_total_insert_eq by lia. exact Hprn.
    + rewrite list_lookup_insert_ne in Ha by congruence.
      destruct (H1 sv' a Ha) as [Hm|[Hr Hp]]; [left; exact Hm|].
      right. split; [exact Hr|].
      rewrite list_lookup_total_insert_ne; [exact Hp|].
      intros E. rewrite <- E in Hp. rewrite Hp in Hidle. lia.
  - intros j c Hc Hp. destruct (decide (j = i)) as [->|Hne].
    + rewrite list_lookup_insert_eq in Hc by lia. injection Hc as <-.
      rewrite Hprn. split; [lia|].
      replace (Z.to_nat (Z.of_nat sv + 1 - 1)) with sv by lia.
      apply list_lookup_insert_eq. lia.
    + rewrite list_lookup_insert_ne in Hc by congruence.
      destruct (H2 j c Hc Hp) as [Hr Hs]. split; [exact Hr|].
      rewrite list_lookup_insert_ne; [exact Hs|].
      intros E. rewrite <- E in Hs.
      rewrite (list_lookup_total_correct _ _ _ Hs) in Hfree. lia.
Qed.

Lemma consistent_release s sv :
  consistent s -> (sv < MAX_SAT)%nat -> 0 <= allocatedSat s !!! sv ->
  consistent
    {| chan := <[Z.to_nat (allocatedSat s !!! sv) :=
                   set_prn 0 (chan s !!! Z.to_nat (allocatedSat s !!! sv))]> (chan s);
       allocatedSat := <[sv := -1]> (allocatedSat s) |}.
Proof.
  intros [L1 L2 H1 H2] Hsv Hheld. unfold MAX_SAT, MAX_CHAN in *.
  assert (Hsat : allocatedSat s !! sv = Some (allocatedSat s !!! sv))
    by (apply list_lookup_lookup_total_lt; lia).
  set (a := allocatedSat s !!! sv) in *.
  destruct (H1 sv a Hsat) as [Hm|[Hr Ha]]; [lia|]. unfold MAX_CHAN in Hr.
  constructor; cbn [chan allocatedSat]; unfold MAX_SAT, MAX_CHAN in *.
  - rewrite length_insert. exact L1.
  - rewrite length_insert. exact L2.
  - intros sv' a' Ha'. destruct (decide (sv' = sv)) as [->|Hne].
    + rewrite list_lookup_insert_eq in Ha' by lia. injection Ha' as <-. left. reflexivity.
    + rewrite list_lookup_insert_ne in Ha' by congruence.
      destruct (H1 sv' a' Ha') as [Hm|[Hr' Hp]]; [left; exact Hm|].
      right. split; [exact Hr'|].
      rewrite list_lookup_total_insert_ne; [exact Hp|].
      intros E. rewrite <- E in Hp. rewrite Ha in Hp. lia.
  - intros j c Hc Hp. destruct (decide (j = Z.to_nat a)) as [->|Hne].
    + rewrite list_lookup_insert_eq in Hc by lia. injection Hc as <-.
      exfalso. apply Hp. reflexivity.
    + rewrite list_lookup_insert_ne in Hc by congruence.
      destruct (H2 j c Hc Hp) as [Hr' Hs]. split; [exact Hr'|].
      rewrite list_lookup_insert_ne; [exact Hs|].
      intros E. rewrite <- E, Hsat in Hs. injection Hs as Hs. lia.
Qed.

Lemma consistent_allocate_sv eph io g xyz st sv :
  (sv < MAX_SAT)%nat -> consistent (snd st) ->
  consistent (snd (allocate_sv eph io g xyz st sv)).
Proof.
  destruct st as [[nsat azel] s]. cbn [snd]. intros Hsv Hs.
  unfold allocate_sv.
  destruct (checkSatVisibility _ _ _ _ _) as [vis azel'].
  destruct (vis =? 1).
  - destruct (allocatedSat s !!! sv =? -1) eqn:Ea; [|exact Hs].
    apply Z.eqb_eq in Ea.
    destruct (first_idle MAX_CHAN 0 (chan s) <? MAX_CHAN)%nat eqn:Ei; [|exact Hs].
    apply Nat.ltb_lt in Ei. cbn [snd].
    apply consistent_assign; try assumption.
    + apply (first_idle_spec MAX_CHAN 0 (chan s)). exact Ei.
    + apply prn_init_channel.
  - destruct (0 <=? allocatedSat s !!! sv) eqn:Eb; [|exact Hs].
    apply Z.leb_le in Eb. cbn [snd].
    apply consistent_release; assumption.
Qed.

Lemma consistent_allocate_fold eph io g xyz svs : forall st,
  Forall (fun sv => (sv < MAX_SAT)%nat) svs -> consistent (snd st) ->
  consistent (snd (foldl (allocate_sv eph io g xyz) st svs)).
Proof.
  induction svs as [|sv svs IH]; intros st Hall Hs; cbn [foldl]; [exact Hs|].
  apply Forall_cons in Hall as [Hsv Hall].
  apply IH; [exact Hall|]. apply consistent_allocate_sv; assumption.
Qed.

Lemma allocateChannel_fold eph io g xyz elv s :
  snd (allocateChannel eph io g xyz elv s)
  = snd (foldl (allocate_sv eph io g xyz) (0, (0, 0)%Q, s) (seq 0 MAX_SAT)).
Proof.
  unfold allocateChannel.
  destruct (foldl _ _ _) as [[nsat azel] s']. reflexivity.
Qed.

Lemma seq_below n : Forall (fun sv => (sv < n)%nat) (seq 0 n).
Proof. apply Forall_forall. intros sv H. apply list_elem_of_In, in_seq in H. lia. Qed.

Lemma consistent_allocateChannel eph io g xyz elv s :
  consistent s -> consistent (snd (allocateChannel eph io g xyz elv s)).
Proof.
  intros Hs. rewrite allocateChannel_fold.
  apply consistent_allocate_fold; [apply seq_below | exact Hs].
Qed.

(** The states of the two tables that [main] can reach: it clears them,
    it calls [allocateChannel], and everything else it does to a channel
    writes fields other than the PRN. *)
Inductive reachable : sched_t -> Prop :=
| reach_clear ch :
    length ch = MAX_CHAN -> reachable (clear_tables ch)
| reach_allocate s eph io g xyz elv :
    reachable s -> reachable (snd (allocateChannel eph io g xyz elv s))
| reach_fields s ch :
    reachable s -> prn <$> ch = prn <$> chan s ->
    reachable {| chan := ch; allocatedSat := allocatedSat s |}.

Lemma reachable_consistent s : reachable s -> consistent s.
Proof.
  induction 1 as [ch Hlen | s eph io g xyz elv _ IH | s ch _ IH E].
  - apply consistent_clear, Hlen.
  - apply consistent_allocateChannel, IH.
  - apply consistent_same_prn; assumption.
Qed.

(** The number of satellites that hold a channel, and of channels held. *)
Definition allocated_sats (s : sched_t) : nat :=
  length (filter (fun a => 0 <= a) (allocatedSat s)).
Definition allocated_chans (s : sched_t) : nat :=
  length (filter (fun c => prn c <> 0) (chan s)).

Lemma NoDup_filter_lookup (P : Z -> Prop) `{!forall x, Decision (P x)} (l : list Z) :
  (forall i j x, l !! i = Some x -> l !! j = Some x -> P x -> i = j) ->
  NoDup (filter P l).
Proof.
  induction l as [|x l IH]; intros Hinj; [constructor|].
  assert (Hl : NoDup (filter P l)).
  { apply IH. intros i j y Hi Hj Hy.
    specialize (Hinj (S i) (S j) y Hi Hj Hy). lia. }
  rewrite filter_cons. destruct (decide (P x)) as [Hx|Hx]; [|exact Hl].
  apply NoDup_cons. split; [|exact Hl].
  intros Hin. apply list_elem_of_filter in Hin as [_ Hin].
  apply list_elem_of_lookup in Hin as [j Hj].
  specialize (Hinj 0%nat (S j) x eq_refl Hj Hx). discriminate Hinj.
Qed.

Lemma consistent_injective s sv1 sv2 a :
  consistent s -> 0 <= a ->
  allocatedSat s !! sv1 = Some a -> allocatedSat s !! sv2 = Some a -> sv1 = sv2.
Proof.
  intros [_ _ H1 _] Ha E1 E2.
  destruct (H1 sv1 a E1) as [?|[_ P1]]; [lia|].
  destruct (H1 sv2 a E2) as [?|[_ P2]]; [lia|].
  rewrite P1 in P2. lia.
Qed.

Lemma consistent_count s : consistent s -> (allocated_sats s <= MAX_CHAN)%nat.
Proof.
  intros Hs. unfold allocated_sats.
  assert (Hnd : NoDup (filter (fun a => 0 <= a) (allocatedSat s))).
  { apply NoDup_filter_lookup. intros i j x Hi Hj Hx.
    exact (consistent_injective s i j x Hs Hx Hi Hj). }
  assert (Hsub : forall x, x ∈ filter (fun a => 0 <= a) (allocatedSat s) ->
                           x ∈ (Z.of_nat <$> seq 0 MAX_CHAN)).
  { intros x Hx. apply list_elem_of_filter in Hx as [Hx Hin].
    apply list_elem_of_lookup in Hin as [sv Hsv].
    destruct (sat_to_chan s Hs sv x Hsv) as [?|[Hr _]]; [lia|].
    apply list_elem_of_fmap. exists (Z.to_nat x). split; [lia|].
    apply elem_of_seq. lia. }
  pose proof (submseteq_length _ _ (NoDup_submseteq _ _ Hnd Hsub)) as H.
  rewrite length_fmap, length_seq in H. exact H.
Qed.

(** C4: in every state of the tables that [main] reaches by clearing
    them and calling [allocateChannel] (the PRN of a channel being
    written nowhere else): a channel is held by a satellite iff its PRN
    is not 0; at most 12 channels are held, by at most 12 satellites;
    the entries of [allocatedSat] that are not negative are pairwise
    different; and [allocatedSat[sv] = i] gives [chan[i].prn = sv + 1]. *)
Theorem allocateChannel_tables (s : sched_t) :
  reachable s ->
  (forall i, (i < MAX_CHAN)%nat ->
     (exists sv, (sv < MAX_SAT)%nat /\ serves s sv i) <-> prn (chan s !!! i) <> 0)
  /\ (allocated_chans s <= 12)%nat /\ (allocated_sats s <= 12)%nat
  /\ (forall sv1 sv2 a,
        0 <= a -> allocatedSat s !! sv1 = Some a -> allocatedSat s !! sv2 = Some a ->
        sv1 = sv2)
  /\ (forall sv i, serves s sv i -> prn (chan s !!! i) = Z.of_nat sv + 1).
Proof.
  intros Hr. pose proof (reachable_consistent s Hr) as Hs.
  pose proof Hs as [L1 L2 H1 H2].
  split; [|split; [|split; [|split]]].
  - intros i Hi. split.
    + intros [sv [Hsv Hserve]].
      destruct (H1 sv _ Hserve) as [?|[_ Hp]]; [lia|].
      rewrite Nat2Z.id in Hp. lia.
    + intros Hp.
      assert (Hc : chan s !! i = Some (chan s !!! i))
        by (apply list_lookup_lookup_total_lt; rewrite L1; exact Hi).
      destruct (H2 i _ Hc Hp) as [Hrange Hsat].
      exists (Z.to_nat (prn (chan s !!! i) - 1)). split; [|exact Hsat].
      unfold MAX_SAT in *. lia.
  - unfold allocated_chans. change 12%nat with MAX_CHAN. rewrite <- L1.
    apply length_filter.
  - apply (consistent_count s Hs).
  - intros sv1 sv2 a Ha E1 E2. exact (consistent_injective s sv1 sv2 a Hs Ha E1 E2).
  - intros sv i Hserve.
    destruct (H1 sv _ Hserve) as [?|[_ Hp]]; [lia|].
    rewrite Nat2Z.id in Hp. exact Hp.
Qed.

(** *** The main loop keeps the tables reachable *)

Lemma for_channels_fmap {A} (proj : channel_t -> A) test f ch :
  (forall c, proj (f c) = proj c) ->
  proj <$> for_channels test f ch = proj <$> ch.
Proof.
  intros Hf. unfold for_channels. generalize (seq 0 MAX_CHAN). intros idx.
  revert ch. induction idx as [|i idx IH]; intros ch; cbn [foldl]; [reflexivity|].
  rewrite IH. destruct (test (ch !!! i)); [|reflexivity].
  rewrite list_fmap_insert, Hf.
  destruct (decide (i < length ch)%nat) as [Hi|Hi].
  - apply list_insert_id. rewrite list_lookup_fmap.
    rewrite (list_lookup_lookup_total_lt ch i Hi). reflexivity.
  - apply list_insert_ge. rewrite length_fmap. lia.
Qed.



(** The tables after the maintenance block: the result of
    [allocateChannel] on tables whose channels have the PRNs of before. *)
Lemma maintenance_tables sc st :
  exists ch eph xyz,
    prn <$> ch = prn <$> chan (tables st)
    /\ ca <$> ch = ca <$> chan (tables st)
    /\ tables (maintenance sc st)
       = snd (allocateChannel eph (sc_ionoutc sc) (grx st) xyz (elvmask sc)
                {| chan := ch; allocatedSat := allocatedSat (tables st) |})
    /\ grx (maintenance sc st) = grx st.
Proof.
  unfold maintenance. cbv zeta.
  set (ch1 := for_channels _ _ (chan (tables st))).
  assert (P1 : prn <$> ch1 = prn <$> chan (tables st))
    by (apply for_channels_fmap; intros c; apply prn_generateNavMsg).
  assert (C1 : ca <$> ch1 = ca <$> chan (tables st))
    by (apply for_channels_fmap; intros c; apply ca_generateNavMsg).
  destruct (first_valid _ _ _) as [sv|].
  - destruct (Qltb _ _).
    + set (ch2 := for_channels _ _ ch1).
      assert (P2 : prn <$> ch2 = prn <$> chan (tables st))
        by (rewrite <- P1; apply for_channels_fmap; intros c; reflexivity).
      assert (C2 : ca <$> ch2 = ca <$> chan (tables st))
        by (rewrite <- C1; apply for_channels_fmap; intros c; reflexivity).
      cbn [tables grx ieph iumd].
      destruct (allocateChannel _ _ _ _ _ _) as [n s'] eqn:E.
      eexists ch2, _, _. split; [exact P2|]. split; [exact C2|].
      rewrite E. split; reflexivity.
    + cbn [tables grx ieph iumd].
      destruct (allocateChannel _ _ _ _ _ _) as [n s'] eqn:E.
      eexists ch1, _, _. split; [exact P1|]. split; [exact C1|].
      rewrite E. split; reflexivity.
  - cbn [tables grx ieph iumd].
    destruct (allocateChannel _ _ _ _ _ _) as [n s'] eqn:E.
    eexists ch1, _, _. split; [exact P1|]. split; [exact C1|].
    rewrite E. split; reflexivity.
Qed.

Lemma maintenance_reachable sc st :
  reachable (tables st) -> reachable (tables (maintenance sc st)).
Proof.
  intros Hr. destruct (maintenance_tables sc st) as [ch [eph [xyz [P [_ [E _]]]]]].
  rewrite E. apply reach_allocate, reach_fields; assumption.
Qed.

Lemma tables_advance rev sc st : tables (advance rev sc st) = tables st.
Proof. destruct rev; reflexivity. Qed.


Section Run.

Variables (rev : revision) (sc : scenario) (head : sim_t -> list channel_t).

(** The first part of a turn writes no PRN. *)
Hypothesis head_prn : forall st, prn <$> head st = prn <$> chan (tables st).

Lemma loop_body_reachable st :
  reachable (tables st) -> reachable (tables (loop_body rev sc head st)).
Proof.
  intros Hr. unfold loop_body, loop_tail. cbv zeta. rewrite tables_advance.
  cbn [grx].
  assert (Hh : reachable {| chan := head st; allocatedSat := allocatedSat (tables st) |})
    by (apply reach_fields; [exact Hr | apply head_prn]).
  destruct (maintenance_due rev (grx st)); [|exact Hh].
  apply maintenance_reachable. exact Hh.
Qed.

Lemma run_reachable n st :
  reachable (tables st) -> reachable (tables (run rev sc head n st)).
Proof.
  intros Hr. induction n as [|n IH]; cbn [run]; [exact Hr|].
  apply loop_body_reachable, IH.
Qed.

End Run.

Lemma loop_entry_reachable sc g0 ieph0 ch :
  length ch = MAX_CHAN -> reachable (tables (loop_entry sc g0 ieph0 ch)).
Proof.
  intros Hlen. unfold loop_entry. cbv zeta.
  destruct (allocateChannel _ _ _ _ _ _) as [n s'] eqn:E. cbn [tables].
  change s' with (snd (n, s')). rewrite <- E.
  apply reach_allocate, reach_clear, Hlen.
Qed.

(** *** Writes to the C/A code table of a channel *)

(** [code_writes ca ca']: the array [ca'] is [ca] after some calls of
    [codegen], each with a PRN in [1, 32]. *)
Inductive code_writes : list Z -> list Z -> Prop :=
| writes_none ca : code_writes ca ca
| writes_codegen ca prn ca' :
    1 <= prn <= 32 -> code_writes (CACode.codegen ca prn) ca' -> code_writes ca ca'.

Lemma code_writes_trans a b c : code_writes a b -> code_writes b c -> code_writes a c.
Proof.
  induction 1 as [|a p b Hp _ IH]; intros H; [exact H|].
  apply (writes_codegen a p c Hp), IH, H.
Qed.

Lemma fmap_lookup_total {A} `{!Inhabited A} (proj : channel_t -> A)
    (l1 l2 : list channel_t) (i : nat) :
  proj <$> l1 = proj <$> l2 -> proj (l1 !!! i) = proj (l2 !!! i).
Proof.
  intros E.
  assert (Hlen : length l1 = length l2)
    by (rewrite <- (length_fmap proj l1), E, length_fmap; reflexivity).
  destruct (decide (i < length l1)%nat) as [Hi|Hi].
  - rewrite <- (list_lookup_total_fmap proj l1 i Hi), E.
    apply list_lookup_total_fmap. rewrite <- Hlen. exact Hi.
  - rewrite !list_lookup_total_alt, !lookup_ge_None_2 by lia. reflexivity.
Qed.

Lemma code_writes_allocate_sv eph io g xyz st sv i :
  (sv < MAX_SAT)%nat ->
  code_writes (ca (chan (snd st) !!! i))
              (ca (chan (snd (allocate_sv eph io g xyz st sv)) !!! i)).
Proof.
  destruct st as [[nsat azel] s]. cbn [snd]. intros Hsv.
  unfold allocate_sv.
  destruct (checkSatVisibility _ _ _ _ _) as [vis azel'].
  destruct (vis =? 1).
  - destruct (allocatedSat s !!! sv =? -1); [|apply writes_none].
    destruct (first_idle MAX_CHAN 0 (chan s) <? MAX_CHAN)%nat; [|apply writes_none].
    cbn [snd chan]. set (i0 := first_idle MAX_CHAN 0 (chan s)).
    destruct (decide (i0 = i /\ (i < length (chan s))%nat)) as [[-> Hi]|Hne].
    + rewrite list_lookup_total_insert_eq by exact Hi. rewrite ca_init_channel.
      apply (writes_codegen _ (Z.of_nat sv + 1)); [unfold MAX_SAT in Hsv; lia|].
      apply writes_none.
    + destruct (decide (i0 = i)) as [->|Hd].
      * rewrite list_insert_ge by lia. apply writes_none.
      * rewrite list_lookup_total_insert_ne by exact Hd. apply writes_none.
  - destruct (0 <=? allocatedSat s !!! sv); [|apply writes_none].
    cbn [snd chan]. set (a := Z.to_nat (allocatedSat s !!! sv)).
    destruct (decide (a = i)) as [->|Hd].
    + destruct (decide (i < length (chan s))%nat) as [Hi|Hi].
      * rewrite list_lookup_total_insert_eq by exact Hi. apply writes_none.
      * rewrite list_insert_ge by lia. apply writes_none.
    + rewrite list_lookup_total_insert_ne by exact Hd. apply writes_none.
Qed.

Lemma code_writes_allocateChannel eph io g xyz elv s i :
  code_writes (ca (chan s !!! i))
              (ca (chan (snd (allocateChannel eph io g xyz elv s)) !!! i)).
Proof.
  rewrite allocateChannel_fold.
  change s with (snd (0, (0, 0)%Q, s)) at 1.
  generalize (0, (0, 0)%Q, s). pose proof (seq_below MAX_SAT) as Hall.
  induction Hall as [|sv svs Hsv _ IH]; intros st; cbn [foldl]; [apply writes_none|].
  eapply code_writes_trans; [apply code_writes_allocate_sv, Hsv | apply IH].
Qed.

Lemma code_writes_run rev sc head n st i :
  (forall st', ca <$> head st' = ca <$> chan (tables st')) ->
  code_writes (ca (chan (tables st) !!! i))
              (ca (chan (tables (run rev sc head n st)) !!! i)).
Proof.
  intros Hh. induction n as [|n IH]; cbn [run]; [apply writes_none|].
  eapply code_writes_trans; [exact IH|].
  set (st' := run rev sc head n st).
  unfold loop_body, loop_tail. cbv zeta. rewrite tables_advance. cbn [grx].
  set (st1 := {| grx := grx st'; ieph := ieph st'; iumd := iumd st';
                 tables := {| chan := head st';
                              allocatedSat := allocatedSat (tables st') |} |}).
  assert (H1 : ca (chan (tables st') !!! i) = ca (chan (tables st1) !!! i))
    by (symmetry; apply fmap_lookup_total, Hh).
  rewrite H1.
  destruct (maintenance_due rev (grx st')); [|apply writes_none].
  destruct (maintenance_tables sc st1) as [ch [eph [xyz [_ [C [E _]]]]]].
  rewrite E.
  rewrite <- (fmap_lookup_total ca ch (chan (tables st1)) i C).
  apply (code_writes_allocateChannel eph (sc_ionoutc sc) (grx st1) xyz (elvmask sc)
           {| chan := ch; allocatedSat := allocatedSat (tables st1) |} i).
Qed.

(** C10: for a PRN outside [1, 32], [codegen] returns at once and the
    caller's array is as before; and the C/A code table of a channel is
    written only by [codegen] with a PRN in [1, 32]: in a call of
    [allocateChannel], and over any number of turns of the main loop
    (whose first part reads the table only). *)
Theorem codegen_writes_valid_prn_only :
  (forall ca prn, prn < 1 \/ 32 < prn -> CACode.codegen ca prn = ca)
  /\ (forall eph io g xyz elv s i,
        code_writes (ca (chan s !!! i))
                    (ca (chan (snd (allocateChannel eph io g xyz elv s)) !!! i)))
  /\ (forall rev sc head n st i,
        (forall st', ca <$> head st' = ca <$> chan (tables st')) ->
        code_writes (ca (chan (tables st) !!! i))
                    (ca (chan (tables (run rev sc head n st)) !!! i))).
Proof.
  split; [exact CACodeFacts.codegen_invalid_prn|]. split.
  - exact code_writes_allocateChannel.
  - exact code_writes_run.
Qed.

(** *** The period of the maintenance block *)
















(** The block moves to the next ephemeris set exactly when that set has
    a valid record and the clock time of its first one is less than an
    hour ahead of the reception time. *)
Lemma maintenance_ieph sc st :
  let next := sc_eph sc !!! (S (ieph st)) in
  ieph (maintenance sc st)
  = match first_valid MAX_SAT 0 next with
    | Some sv =>
        if Qltb (subGpsTime (toc (next !!! sv)) (grx st)) SECONDS_IN_HOUR
        then S (ieph st) else ieph st
    | None => ieph st
    end.
Proof.
  cbv zeta. unfold maintenance. cbv zeta.
  destruct (first_valid MAX_SAT 0 (sc_eph sc !!! (S (ieph st)))) as [sv|].
  - destruct (Qltb _ SECONDS_IN_HOUR);
      match goal with |- context [allocateChannel ?a ?b ?c ?d ?e ?f] =>
        destruct (allocateChannel a b c d e f) end; reflexivity.
  - match goal with |- context [allocateChannel ?a ?b ?c ?d ?e ?f] =>
      destruct (allocateChannel a b c d e f) end; reflexivity.
Qed.




Lemma run_add rev sc head n d st :
  run rev sc head (d + n) st = run rev sc head d (run rev sc head n st).
Proof. induction d as [|d IH]; cbn [run Nat.add]; [reflexivity | rewrite IH; reflexivity]. Qed.






End Facts.

(** A closed environment on which the model evaluates: the identity or a
    truncated series for the library functions, a satellite at the
    origin, 64-bit [unsigned long], and empty subframes. *)
Definition sample_env : Env :=
  mk_env (fun x => 1 - x * x / 2)%Q (fun x => x) (fun x => x) (fun y _ => y) 64
         (fun _ _ => (mk_vec3 0 0 0, mk_vec3 0 0 0, (0, 0)%Q))
         (fun v => v)
         (fun _ _ => replicate 5 (replicate 10 0)).

Definition sample_ionoutc : ionoutc_t :=
  mk_ionoutc false false 0 0 0 0 0 0 0 0 0 0 0 0 0 0 0 0.

(** A scenario in which satellite 0 has a valid record and is in view,
    and the tables after [main] has cleared them and called
    [allocateChannel] once: satellite 0 holds channel 0. *)
Definition valid_ephem : ephem_t :=
  mk_ephem true (mk_datetime 0 0 0 0 0 0) zero_time zero_time 0 0
    0 0 0 0 0 0 0 0 0 0 0 0 0 0 0 0 0 0 0 0 0 0 0 0 0.
Definition sample_eph : list ephem_t := valid_ephem :: replicate 31 zero_ephem.
Definition sample_xyz : vec3 := mk_vec3 1 0 (-2).
Definition sample_grx : gpstime_t := mk_gpstime 1823 0.

Definition sample_allocated : sched_t :=
  snd (allocateChannel (env := sample_env) sample_eph sample_ionoutc sample_grx
         sample_xyz 0 (clear_tables (replicate 12 zero_channel))).

Lemma sample_allocated_reachable : reachable (env := sample_env) sample_allocated.
Proof. apply reach_allocate, reach_clear. reflexivity. Qed.

Lemma allocateChannel_tables_witness :
  reachable (env := sample_env) sample_allocated
  /\ serves sample_allocated 0 0
  /\ prn (chan sample_allocated !!! 0%nat) = 1
  /\ allocated_chans sample_allocated = 1%nat
  /\ (forall i, (i < MAX_CHAN)%nat ->
       (exists sv, (sv < MAX_SAT)%nat /\ serves sample_allocated sv i)
       <-> prn (chan sample_allocated !!! i) <> 0)
  /\ (allocated_chans sample_allocated <= 12)%nat
  /\ (allocated_sats sample_allocated <= 12)%nat
  /\ (forall sv1 sv2 a,
        0 <= a -> allocatedSat sample_allocated !! sv1 = Some a ->
        allocatedSat sample_allocated !! sv2 = Some a -> sv1 = sv2)
  /\ (forall sv i, serves sample_allocated sv i ->
       prn (chan sample_allocated !!! i) = Z.of_nat sv + 1).
Proof.
  split; [exact sample_allocated_reachable|].
  split; [vm_compute; reflexivity|].
  split; [vm_compute; reflexivity|].
  split; [vm_compute; reflexivity|].
  exact (allocateChannel_tables (env := sample_env) sample_allocated
           sample_allocated_reachable).
Defined.

(** *** The set advance of the claim and of the code *)









End EngineFacts.

Module ChecksumFacts.
Import Parity.

(** The number of 1 bits among the [n] lowest bits of [v]. *)
Fixpoint popcount (n : nat) (v : Z) : Z :=
  match n with
  | O => 0
  | S n' => v mod 2 + popcount n' (v / 2)
  end.

Lemma popcount_bounds n v : 0 <= popcount n v <= Z.of_nat n.
Proof.
  revert v. induction n as [|n IH]; intros v; cbn [popcount]; [lia|].
  specialize (IH (v / 2)). pose proof (Z.mod_pos_bound v 2). lia.
Qed.

Lemma popcount_small k v : popcount k v < 2 ^ Z.of_nat k.
Proof.
  pose proof (popcount_bounds k v).
  pose proof (Z.pow_gt_lin_r 2 (Z.of_nat k)). lia.
Qed.

Lemma popcount_app j k v :
  popcount (j + k) v = popcount j v + popcount k (v / 2 ^ Z.of_nat j).
Proof.
  revert v. induction j as [|j IH]; intros v.
  - cbn [Nat.add popcount]. change (2 ^ Z.of_nat 0) with 1. rewrite Z.div_1_r. lia.
  - cbn [Nat.add popcount]. rewrite IH.
    rewrite Z.div_div by (try apply Z.pow_pos_nonneg; lia).
    replace (2 * 2 ^ Z.of_nat j) with (2 ^ Z.of_nat (S j))
      by (rewrite Nat2Z.inj_succ, Z.pow_succ_r; lia).
    lia.
Qed.

(** [n] fields of [k] bits, field [j] holding the number of 1 bits of
    [v] at the positions [j * k .. j * k + k - 1]. *)
Fixpoint chunks (k n : nat) (v : Z) : Z :=
  match n with
  | O => 0
  | S n' => popcount k v + 2 ^ Z.of_nat k * chunks k n' (v / 2 ^ Z.of_nat k)
  end.

Lemma chunks_bounds k n v :
  0 <= chunks k n v < 2 ^ (Z.of_nat k * Z.of_nat n).
Proof.
  revert v. induction n as [|n IH]; intros v; cbn [chunks].
  - rewrite Z.mul_0_r. change (2 ^ 0) with 1. lia.
  - specialize (IH (v / 2 ^ Z.of_nat k)).
    pose proof (popcount_bounds k v). pose proof (popcount_small k v).
    assert (0 < 2 ^ Z.of_nat k) by (apply Z.pow_pos_nonneg; lia).
    replace (Z.of_nat k * Z.of_nat (S n)) with (Z.of_nat k + Z.of_nat k * Z.of_nat n) by lia.
    rewrite Z.pow_add_r by lia. nia.
Qed.

Lemma chunks_one n v : 0 <= v -> chunks 1 n v = v mod 2 ^ Z.of_nat n.
Proof.
  revert v. induction n as [|n IH]; intros v Hv; cbn [chunks popcount].
  - change (2 ^ Z.of_nat 0) with 1. rewrite Z.mod_1_r. reflexivity.
  - change (2 ^ Z.of_nat 1) with 2. rewrite IH by (apply Z.div_pos; lia).
    rewrite Nat2Z.inj_succ, Z.pow_succ_r by lia.
    rewrite (Z.rem_mul_r v 2 (2 ^ Z.of_nat n)) by (try apply Z.pow_pos_nonneg; lia).
    lia.
Qed.

(** The mask of [n] fields of [2 * s] bits with the low [s] bits set. *)
Fixpoint mask (s : Z) (n : nat) : Z :=
  match n with
  | O => 0
  | S n' => (2 ^ s - 1) + 2 ^ (2 * s) * mask s n'
  end.

Lemma mask_nonneg s n : 0 <= s -> 0 <= mask s n.
Proof.
  intros Hs. induction n as [|n IH]; cbn [mask]; [lia|].
  assert (0 < 2 ^ s) by (apply Z.pow_pos_nonneg; lia).
  assert (0 < 2 ^ (2 * s)) by (apply Z.pow_pos_nonneg; lia). nia.
Qed.

Lemma testbit_concat a b k n :
  0 <= k -> 0 <= a < 2 ^ k -> 0 <= n ->
  Z.testbit (a + 2 ^ k * b) n = if n <? k then Z.testbit a n else Z.testbit b (n - k).
Proof.
  intros Hk Ha Hn. destruct (Z.ltb_spec n k) as [L|L].
  - rewrite <- (Z.mod_pow2_bits_low (a + 2 ^ k * b) k n) by lia.
    rewrite (Z.mul_comm (2 ^ k) b), Z.mod_add by lia.
    rewrite Z.mod_small by lia. reflexivity.
  - replace n with ((n - k) + k) at 1 by lia.
    rewrite <- Z.div_pow2_bits by lia.
    rewrite (Z.mul_comm (2 ^ k) b), Z.div_add by lia.
    rewrite (Z.div_small a) by lia. reflexivity.
Qed.

Lemma land_mask s X m :
  0 < s -> 0 <= X -> 0 <= m ->
  Z.land X ((2 ^ s - 1) + 2 ^ (2 * s) * m)
  = X mod 2 ^ s + 2 ^ (2 * s) * Z.land (X / 2 ^ (2 * s)) m.
Proof.
  intros Hs HX Hm.
  assert (P1 : 0 < 2 ^ s) by (apply Z.pow_pos_nonneg; lia).
  assert (P2 : 2 ^ (2 * s) = 2 ^ s * 2 ^ s)
    by (rewrite <- Z.pow_add_r by lia; f_equal; lia).
  pose proof (Z.mod_pos_bound X (2 ^ s) P1) as B.
  apply Z.bits_inj'. intros n Hn.
  rewrite Z.land_spec.
  rewrite (testbit_concat (2 ^ s - 1) m (2 * s) n) by nia.
  rewrite (testbit_concat (X mod 2 ^ s) _ (2 * s) n) by nia.
  rewrite Z.land_spec.
  replace (2 ^ s - 1) with (Z.ones s) by (rewrite Z.ones_equiv; lia).
  destruct (Z.ltb_spec n (2 * s)) as [L|L].
  - destruct (Z.ltb_spec n s) as [L'|L'].
    + rewrite Z.ones_spec_low, Z.mod_pow2_bits_low by lia.
      apply andb_true_r.
    + rewrite Z.ones_spec_high, Z.mod_pow2_bits_high by lia.
      apply andb_false_r.
  - rewrite Z.div_pow2_bits by lia.
    replace (n - 2 * s + 2 * s) with n by lia. reflexivity.
Qed.

(** One step of [countBits]: adjacent fields of [k] bits are added into
    fields of [2 * k] bits. *)
Lemma step_chunks k n v T :
  (0 < k)%nat -> 0 <= T ->
  let s := Z.of_nat k in
  let c := chunks k (n + n) v + 2 ^ (s * Z.of_nat (n + n)) * T in
  Z.land (Z.shiftr c s) (mask s n) + Z.land c (mask s n) = chunks (k + k) n v.
Proof.
  intros Hk HT s. revert v. induction n as [|n IH]; intros v c.
  - cbn [mask chunks]. rewrite !Z.land_0_r. reflexivity.
  - subst c. cbn [mask]. replace (S n + S n)%nat with (S (S (n + n))) by lia.
    cbn [chunks]. fold s.
    set (a := popcount k v). set (b := popcount k (v / 2 ^ s)).
    set (v' := v / 2 ^ s / 2 ^ s).
    set (R := chunks k (n + n) v' + 2 ^ (s * Z.of_nat (n + n)) * T).
    assert (P1 : 0 < 2 ^ s) by (apply Z.pow_pos_nonneg; lia).
    assert (P2 : 2 ^ (2 * s) = 2 ^ s * 2 ^ s)
      by (rewrite <- Z.pow_add_r by lia; f_equal; lia).
    assert (Ha : 0 <= a < 2 ^ s)
      by (split; [apply popcount_bounds | apply popcount_small]).
    assert (Hb : 0 <= b < 2 ^ s)
      by (split; [apply popcount_bounds | apply popcount_small]).
    assert (HR : 0 <= R).
    { unfold R. pose proof (chunks_bounds k (n + n) v').
      assert (0 < 2 ^ (s * Z.of_nat (n + n))) by (apply Z.pow_pos_nonneg; lia). nia. }
    assert (E : a + 2 ^ s * (b + 2 ^ s * chunks k (n + n) v')
                + 2 ^ (s * Z.of_nat (S (S (n + n)))) * T
                = a + 2 ^ s * (b + 2 ^ s * R)).
    { unfold R.
      replace (s * Z.of_nat (S (S (n + n)))) with (s + (s + s * Z.of_nat (n + n))) by lia.
      rewrite !Z.pow_add_r by lia. ring. }
    rewrite E. clear E.
    set (c := a + 2 ^ s * (b + 2 ^ s * R)).
    assert (C0 : 0 <= c) by (unfold c; nia).
    assert (C1 : c mod 2 ^ s = a).
    { unfold c. rewrite (Z.mul_comm (2 ^ s)), Z.mod_add by lia.
      apply Z.mod_small; lia. }
    assert (C2 : c / 2 ^ s = b + 2 ^ s * R).
    { unfold c. rewrite (Z.mul_comm (2 ^ s)), Z.div_add by lia.
      rewrite (Z.div_small a) by lia. lia. }
    assert (C3 : (c / 2 ^ s) mod 2 ^ s = b).
    { rewrite C2. rewrite (Z.mul_comm (2 ^ s)), Z.mod_add by lia.
      apply Z.mod_small; lia. }
    assert (C4 : c / 2 ^ (2 * s) = R).
    { rewrite P2, <- Z.div_div, C2 by lia.
      rewrite (Z.mul_comm (2 ^ s)), Z.div_add by lia.
      rewrite (Z.div_small b) by lia. lia. }
    assert (C5 : Z.shiftr c s / 2 ^ (2 * s) = Z.shiftr R s).
    { rewrite !Z.shiftr_div_pow2 by lia.
      rewrite Z.div_div, Z.mul_comm, <- Z.div_div, C4 by lia. reflexivity. }
    pose proof (mask_nonneg s n ltac:(lia)) as Hm.
    rewrite (land_mask s (Z.shiftr c s)) by (try apply Z.shiftr_nonneg; lia).
    rewrite (land_mask s c) by lia.
    rewrite C5, C4, C1. rewrite (Z.shiftr_div_pow2 c s), C3 by lia.
    specialize (IH v'). cbv zeta in IH. fold R in IH.
    rewrite popcount_app. fold s a b.
    replace (2 ^ Z.of_nat (k + k)) with (2 ^ (2 * s))
      by (f_equal; lia).
    replace (v / 2 ^ (2 * s)) with v'
      by (unfold v'; rewrite Z.div_div, P2 by lia; reflexivity).
    rewrite <- IH. ring.
Qed.

Section Word.
Variable w : Z.
Hypothesis wide : 32 <= w.

Lemma wrap_small x : 0 <= x < 2 ^ 32 -> wrap w x = x.
Proof.
  intros H. unfold wrap. apply Z.mod_small.
  assert (2 ^ 32 <= 2 ^ w) by (apply Z.pow_le_mono_r; lia). lia.
Qed.

Lemma countBits_spec v : 0 <= v -> countBits w v = popcount 32 v.
Proof.
  intros Hv. unfold countBits, addw. cbv zeta.
  assert (E0 : v = chunks 1 (16 + 16) v + 2 ^ (Z.of_nat 1 * Z.of_nat (16 + 16)) * (v / 2 ^ 32)).
  { rewrite chunks_one by lia. change (Z.of_nat 1 * Z.of_nat (16 + 16)) with 32.
    change (Z.of_nat (16 + 16)) with 32. rewrite Z.add_comm. apply Z.div_mod. lia. }
  pose proof (step_chunks 1 16 v (v / 2 ^ 32) ltac:(lia) ltac:(apply Z.div_pos; lia)) as S1.
  cbv zeta in S1. rewrite <- E0 in S1.
  change (Z.of_nat 1) with 1 in S1. change (mask 1 16) with 0x55555555 in S1.
  rewrite S1. clear S1 E0.
  pose proof (chunks_bounds 2 16 v) as B1. change (Z.of_nat 2 * Z.of_nat 16) with 32 in B1.
  change (1 + 1)%nat with 2%nat.
  rewrite (wrap_small _ B1).
  pose proof (step_chunks 2 8 v 0 ltac:(lia) ltac:(lia)) as S2.
  cbv zeta in S2. rewrite Z.mul_0_r, Z.add_0_r in S2.
  change (Z.of_nat 2) with 2 in S2. change (mask 2 8) with 0x33333333 in S2.
  change (8 + 8)%nat with 16%nat in S2. rewrite S2. clear S2.
  pose proof (chunks_bounds 4 8 v) as B2. change (Z.of_nat 4 * Z.of_nat 8) with 32 in B2.
  change (2 + 2)%nat with 4%nat.
  rewrite (wrap_small _ B2).
  pose proof (step_chunks 4 4 v 0 ltac:(lia) ltac:(lia)) as S3.
  cbv zeta in S3. rewrite Z.mul_0_r, Z.add_0_r in S3.
  change (Z.of_nat 4) with 4 in S3. change (mask 4 4) with 0x0F0F0F0F in S3.
  change (4 + 4)%nat with 8%nat in S3. rewrite S3. clear S3.
  pose proof (chunks_bounds 8 4 v) as B3. change (Z.of_nat 8 * Z.of_nat 4) with 32 in B3.
  rewrite (wrap_small _ B3).
  pose proof (step_chunks 8 2 v 0 ltac:(lia) ltac:(lia)) as S4.
  cbv zeta in S4. rewrite Z.mul_0_r, Z.add_0_r in S4.
  change (Z.of_nat 8) with 8 in S4. change (mask 8 2) with 0x00FF00FF in S4.
  change (2 + 2)%nat with 4%nat in S4. change (8 + 8)%nat with 16%nat in S4.
  rewrite S4. clear S4.
  pose proof (chunks_bounds 16 2 v) as B4. change (Z.of_nat 16 * Z.of_nat 2) with 32 in B4.
  rewrite (wrap_small _ B4).
  pose proof (step_chunks 16 1 v 0 ltac:(lia) ltac:(lia)) as S5.
  cbv zeta in S5. rewrite Z.mul_0_r, Z.add_0_r in S5.
  change (Z.of_nat 16) with 16 in S5. change (mask 16 1) with 0x0000FFFF in S5.
  change (1 + 1)%nat with 2%nat in S5. change (16 + 16)%nat with 32%nat in S5.
  rewrite S5. clear S5.
  pose proof (chunks_bounds 32 1 v) as B5. change (Z.of_nat 32 * Z.of_nat 1) with 32 in B5.
  rewrite (wrap_small _ B5).
  cbn [chunks]. lia.
Qed.

End Word.

(** *** Bit-level auxiliaries *)

Lemma high_bits a k n : 0 <= a < 2 ^ k -> k <= n -> Z.testbit a n = false.
Proof.
  intros Ha Hn. destruct (Z.ltb_spec k 0) as [L|L].
  - rewrite Z.pow_neg_r in Ha by lia. lia.
  - rewrite <- (Z.mod_small a (2 ^ k)) by lia.
    apply Z.mod_pow2_bits_high. lia.
Qed.

Lemma small_of_bits x k :
  0 <= k -> 0 <= x -> (forall n, k <= n -> Z.testbit x n = false) -> x < 2 ^ k.
Proof.
  intros Hk Hx H.
  assert (E : x mod 2 ^ k = x).
  { apply Z.bits_inj'. intros n Hn. destruct (Z.ltb_spec n k) as [L|L].
    - apply Z.mod_pow2_bits_low. lia.
    - rewrite Z.mod_pow2_bits_high by lia. symmetry. apply H. lia. }
  rewrite <- E. apply Z.mod_pos_bound. apply Z.pow_pos_nonneg; lia.
Qed.

Lemma lxor_small a b k :
  0 <= k -> 0 <= a < 2 ^ k -> 0 <= b < 2 ^ k -> 0 <= Z.lxor a b < 2 ^ k.
Proof.
  intros Hk Ha Hb.
  assert (N : 0 <= Z.lxor a b) by (apply Z.lxor_nonneg; lia).
  split; [exact N|]. apply small_of_bits; [lia | exact N |].
  intros n Hn. rewrite Z.lxor_spec, (high_bits a k n), (high_bits b k n) by lia.
  reflexivity.
Qed.

Lemma lor_small a b k :
  0 <= k -> 0 <= a < 2 ^ k -> 0 <= b < 2 ^ k -> 0 <= Z.lor a b < 2 ^ k.
Proof.
  intros Hk Ha Hb.
  assert (N : 0 <= Z.lor a b) by (apply Z.lor_nonneg; lia).
  split; [exact N|]. apply small_of_bits; [lia | exact N |].
  intros n Hn. rewrite Z.lor_spec, (high_bits a k n), (high_bits b k n) by lia.
  reflexivity.
Qed.

(** Bitwise operations act separately on the low [k] bits and on the rest. *)
Lemma lor_concat a b x k :
  0 <= k -> 0 <= a < 2 ^ k -> 0 <= b < 2 ^ k ->
  Z.lor (a + 2 ^ k * x) b = Z.lor a b + 2 ^ k * x.
Proof.
  intros Hk Ha Hb. apply Z.bits_inj'. intros n Hn.
  rewrite Z.lor_spec, !testbit_concat by (try apply lor_small; lia).
  rewrite Z.lor_spec. destruct (Z.ltb_spec n k) as [L|L]; [reflexivity|].
  rewrite (high_bits b k n) by lia. apply orb_false_r.
Qed.

Lemma lxor_concat a b x y k :
  0 <= k -> 0 <= a < 2 ^ k -> 0 <= b < 2 ^ k ->
  Z.lxor (a + 2 ^ k * x) (b + 2 ^ k * y) = Z.lxor a b + 2 ^ k * Z.lxor x y.
Proof.
  intros Hk Ha Hb. apply Z.bits_inj'. intros n Hn.
  rewrite Z.lxor_spec, !testbit_concat by (try apply lxor_small; lia).
  rewrite Z.lxor_spec. destruct (Z.ltb_spec n k); rewrite ?Z.lxor_spec; reflexivity.
Qed.

Lemma land_concat a b x y k :
  0 <= k -> 0 <= a < 2 ^ k -> 0 <= b < 2 ^ k ->
  Z.land (a + 2 ^ k * x) (b + 2 ^ k * y) = Z.land a b + 2 ^ k * Z.land x y.
Proof.
  intros Hk Ha Hb.
  assert (S : 0 <= Z.land a b < 2 ^ k).
  { assert (N : 0 <= Z.land a b) by (apply Z.land_nonneg; lia).
    split; [exact N|]. apply small_of_bits; [lia | exact N |].
    intros n Hn. rewrite Z.land_spec, (high_bits a k n) by lia. reflexivity. }
  apply Z.bits_inj'. intros n Hn.
  rewrite Z.land_spec, !testbit_concat by lia.
  destruct (Z.ltb_spec n k); rewrite ?Z.land_spec; reflexivity.
Qed.

Ltac pows :=
  change (2 ^ 6) with 64 in *; change (2 ^ 24) with 16777216 in *;
  change (2 ^ 30) with 1073741824 in *; change (2 ^ 32) with 4294967296 in *;
  change (Z.ones 24) with 16777215 in *.

(** The split of a source word: the six parity positions, the 24 data
    bits, and the bits from 30 up. *)
Definition low6 (x : Z) : Z := x mod 2 ^ 6.
Definition data24 (x : Z) : Z := (x / 2 ^ 6) mod 2 ^ 24.
Definition top (x : Z) : Z := x / 2 ^ 30.

Lemma split_word x : x = low6 x + 2 ^ 6 * (data24 x + 2 ^ 24 * top x).
Proof.
  unfold low6, data24, top.
  replace (x / 2 ^ 30) with (x / 2 ^ 6 / 2 ^ 24)
    by (rewrite Z.div_div by lia; reflexivity).
  pose proof (Z.div_mod (x / 2 ^ 6) (2 ^ 24) ltac:(lia)).
  pose proof (Z.div_mod x (2 ^ 6) ltac:(lia)). lia.
Qed.

Lemma low6_range x : 0 <= low6 x < 2 ^ 6.
Proof. apply Z.mod_pos_bound. lia. Qed.

Lemma data24_range x : 0 <= data24 x < 2 ^ 24.
Proof. apply Z.mod_pos_bound. lia. Qed.

Lemma land_data_mask x :
  Z.land x 0x3FFFFFC0 = 2 ^ 6 * data24 x.
Proof.
  rewrite (split_word x) at 1.
  change 0x3FFFFFC0 with (0 + 2 ^ 6 * (Z.ones 24 + 2 ^ 24 * 0)).
  rewrite land_concat by (pose proof (low6_range x); pows; lia).
  rewrite land_concat by (pose proof (data24_range x); pows; lia).
  rewrite Z.land_0_r, Z.land_0_r, Z.land_ones by lia.
  rewrite Z.mod_small by apply data24_range. lia.
Qed.

Lemma popcount_lxor n a b :
  popcount n (Z.lxor a b) mod 2 = (popcount n a + popcount n b) mod 2.
Proof.
  revert a b. induction n as [|n IH]; intros a b; cbn [popcount]; [reflexivity|].
  assert (E : Z.lxor a b / 2 = Z.lxor (a / 2) (b / 2)).
  { rewrite <- !Z.div2_div, !Z.div2_spec. apply Z.shiftr_lxor. }
  assert (B : Z.lxor a b mod 2 = (a mod 2 + b mod 2) mod 2).
  { rewrite <- !Z.bit0_mod, Z.lxor_spec.
    destruct (Z.testbit a 0), (Z.testbit b 0); reflexivity. }
  rewrite E, B.
  rewrite Z.add_mod, Z.mod_mod, IH by lia.
  rewrite <- Z.add_mod by lia.
  replace (a mod 2 + popcount n (a / 2) + (b mod 2 + popcount n (b / 2)))
    with (a mod 2 + b mod 2 + (popcount n (a / 2) + popcount n (b / 2))) by lia.
  reflexivity.
Qed.

Lemma land_lxor_distr a b c :
  Z.land a (Z.lxor b c) = Z.lxor (Z.land a b) (Z.land a c).
Proof.
  apply Z.bits_inj'. intros n _.
  rewrite Z.land_spec, !Z.lxor_spec, !Z.land_spec.
  destruct (Z.testbit a n), (Z.testbit b n), (Z.testbit c n); reflexivity.
Qed.

Lemma land_one_bit x n : 0 <= n -> Z.land (Z.shiftr x n) 1 = Z.b2z (Z.testbit x n).
Proof.
  intros Hn. rewrite Z.testbit_spec' by lia.
  change 1 with (Z.ones 1) at 1. rewrite Z.land_ones, Z.shiftr_div_pow2 by lia.
  reflexivity.
Qed.

Ltac closed_bound :=
  try split; first [apply Z.leb_le | apply Z.ltb_lt]; reflexivity.

Section Checksum.
Variable w : Z.
Hypothesis wide : 32 <= w.

(** A parity equation: the previous bit [D] plus the number of data bits
    selected by row [i] of the parity table, modulo 2. *)
Definition par (D : Z) (i : nat) (d : Z) : Z :=
  (D + popcount 32 (Z.land (bmask !!! i) d)) mod 2.

Lemma par_bit D i d : 0 <= par D i d <= 1.
Proof. unfold par. pose proof (Z.mod_pos_bound (D + popcount 32 (Z.land (bmask !!! i) d)) 2). lia. Qed.

Lemma parity_bit_spec D i d :
  0 <= D <= 1 -> 0 <= d -> parity_bit w D i d = par D i d.
Proof.
  intros HD Hd. unfold parity_bit, addw, par.
  rewrite (countBits_spec w wide) by (apply Z.land_nonneg; right; exact Hd).
  rewrite (wrap_small w wide); [reflexivity|].
  pose proof (popcount_bounds 32 (Z.land (bmask !!! i) d)). pows. lia.
Qed.

Lemma shlw_bit p n : 0 <= p <= 1 -> 0 <= n <= 7 -> shlw w p n = p * 2 ^ n.
Proof.
  intros Hp Hn. unfold shlw. rewrite Z.shiftl_mul_pow2 by lia.
  apply (wrap_small w wide).
  assert (0 < 2 ^ n <= 2 ^ 7) by (split; [apply Z.pow_pos_nonneg | apply Z.pow_le_mono_r]; lia).
  pows. change (2 ^ 7) with 128 in *. nia.
Qed.

Lemma par_flip D i d m :
  par D i (Z.lxor d m)
  = (par D i d + popcount 32 (Z.land (bmask !!! i) m)) mod 2.
Proof.
  unfold par. rewrite land_lxor_distr.
  rewrite <- Z.add_mod_idemp_r, popcount_lxor, Z.add_mod_idemp_r by lia.
  rewrite Z.add_mod_idemp_l by lia. f_equal. lia.
Qed.

(** The two halves of [computeChecksum]: the solving of bits 23 and 24
    of a word with non-information-bearing bits, and the assembly of
    the transmitted word. *)
Definition solve_nib (D29 D30 d : Z) : Z :=
  let d := if parity_bit w D30 4 d =? 0 then d else Z.lxor d (shlw w 1 6) in
  let d := if parity_bit w D29 5 d =? 0 then d else Z.lxor d (shlw w 1 7) in
  d.

Definition assemble (D29 D30 d : Z) : Z :=
  let D := d in
  let D := if D30 =? 0 then D else Z.lxor D 0x3FFFFFC0 in
  let D := Z.lor D (shlw w (parity_bit w D29 0 d) 5) in
  let D := Z.lor D (shlw w (parity_bit w D30 1 d) 4) in
  let D := Z.lor D (shlw w (parity_bit w D29 2 d) 3) in
  let D := Z.lor D (shlw w (parity_bit w D30 3 d) 2) in
  let D := Z.lor D (shlw w (parity_bit w D30 4 d) 1) in
  let D := Z.lor D (parity_bit w D29 5 d) in
  Z.land D 0x3FFFFFFF.

Lemma computeChecksum_eq source nib :
  computeChecksum w source nib
  = let d := Z.land source 0x3FFFFFC0 in
    let D29 := Z.land (Z.shiftr source 31) 1 in
    let D30 := Z.land (Z.shiftr source 30) 1 in
    assemble D29 D30 (if nib then solve_nib D29 D30 d else d).
Proof. destruct nib; reflexivity. Qed.

(** The parity bits D25 .. D30 of a word, as a number below 64. *)
Definition parity6 (D29 D30 d : Z) : Z :=
  32 * par D29 0 d + 16 * par D30 1 d + 8 * par D29 2 d
  + 4 * par D30 3 d + 2 * par D30 4 d + par D29 5 d.

Lemma parity6_range D29 D30 d : 0 <= parity6 D29 D30 d < 2 ^ 6.
Proof.
  unfold parity6.
  pose proof (par_bit D29 0 d). pose proof (par_bit D30 1 d).
  pose proof (par_bit D29 2 d). pose proof (par_bit D30 3 d).
  pose proof (par_bit D30 4 d). pose proof (par_bit D29 5 d). pows. lia.
Qed.

Definition sent (D30 e : Z) : Z := if D30 =? 0 then e else Z.lxor e (Z.ones 24).

Lemma sent_range D30 e : 0 <= e < 2 ^ 24 -> 0 <= sent D30 e < 2 ^ 24.
Proof.
  intros He. unfold sent. destruct (D30 =? 0); [exact He|].
  apply lxor_small; [lia | exact He | pows; lia].
Qed.

Lemma assemble_sum D29 D30 e :
  0 <= D29 <= 1 -> 0 <= D30 <= 1 -> 0 <= e < 2 ^ 24 ->
  assemble D29 D30 (2 ^ 6 * e) = parity6 D29 D30 (2 ^ 6 * e) + 2 ^ 6 * sent D30 e.
Proof.
  intros H29 H30 He. unfold assemble, parity6. cbv zeta.
  assert (Hd : 0 <= 2 ^ 6 * e) by (pows; lia).
  rewrite !parity_bit_spec by assumption.
  pose proof (par_bit D29 0 (2 ^ 6 * e)) as B0. pose proof (par_bit D30 1 (2 ^ 6 * e)) as B1.
  pose proof (par_bit D29 2 (2 ^ 6 * e)) as B2. pose proof (par_bit D30 3 (2 ^ 6 * e)) as B3.
  pose proof (par_bit D30 4 (2 ^ 6 * e)) as B4. pose proof (par_bit D29 5 (2 ^ 6 * e)) as B5.
  rewrite !shlw_bit by lia.
  assert (E : (if D30 =? 0 then 2 ^ 6 * e else Z.lxor (2 ^ 6 * e) 0x3FFFFFC0)
              = 0 + 2 ^ 6 * sent D30 e).
  { unfold sent. destruct (D30 =? 0); [lia|].
    change 0x3FFFFFC0 with (0 + 2 ^ 6 * Z.ones 24).
    replace (2 ^ 6 * e) with (0 + 2 ^ 6 * e) at 1 by lia.
    rewrite lxor_concat by (pows; lia). reflexivity. }
  rewrite E. clear E.
  pose proof (sent_range D30 e He) as Hx.
  generalize dependent (sent D30 e). intros x Hx.
  generalize dependent (par D29 0 (2 ^ 6 * e)). intros p0 B0.
  generalize dependent (par D30 1 (2 ^ 6 * e)). intros p1 B1.
  generalize dependent (par D29 2 (2 ^ 6 * e)). intros p2 B2.
  generalize dependent (par D30 3 (2 ^ 6 * e)). intros p3 B3.
  generalize dependent (par D30 4 (2 ^ 6 * e)). intros p4 B4.
  generalize dependent (par D29 5 (2 ^ 6 * e)). intros p5 B5.
  change 0x3FFFFFFF with (63 + 2 ^ 6 * Z.ones 24).
  assert (C : forall p, 0 <= p <= 1 -> p = 0 \/ p = 1) by (intros; lia).
  destruct (C p0 B0), (C p1 B1), (C p2 B2), (C p3 B3), (C p4 B4), (C p5 B5); subst;
    repeat (rewrite lor_concat by closed_bound);
    (rewrite land_concat by closed_bound);
    rewrite Z.land_ones, Z.mod_small by lia; reflexivity.
Qed.

Lemma lxor_shifted e m :
  Z.lxor (2 ^ 6 * e) (2 ^ 6 * m) = 2 ^ 6 * Z.lxor e m.
Proof.
  replace (2 ^ 6 * e) with (0 + 2 ^ 6 * e) by lia.
  replace (2 ^ 6 * m) with (0 + 2 ^ 6 * m) by lia.
  rewrite lxor_concat by (pows; lia). reflexivity.
Qed.

Lemma lxor_quarter e m : 0 <= m < 4 -> Z.lxor e m / 4 = e / 4.
Proof.
  intros Hm. change 4 with (2 ^ 2). rewrite <- !Z.shiftr_div_pow2 by lia.
  rewrite Z.shiftr_lxor. rewrite (Z.shiftr_div_pow2 m), Z.div_small by (simpl; lia).
  apply Z.lxor_0_r.
Qed.

(** What the solving of bits 23 and 24 achieves: the data keeps its
    bits 1 to 22, and the parity equations of D29 and D30 give 0. *)
Lemma solve_nib_spec D29 D30 e :
  0 <= D29 <= 1 -> 0 <= D30 <= 1 -> 0 <= e < 2 ^ 24 ->
  exists e', 0 <= e' < 2 ^ 24 /\ e' / 4 = e / 4
             /\ solve_nib D29 D30 (2 ^ 6 * e) = 2 ^ 6 * e'
             /\ par D30 4 (2 ^ 6 * e') = 0 /\ par D29 5 (2 ^ 6 * e') = 0.
Proof.
  intros H29 H30 He. unfold solve_nib. cbv zeta.
  rewrite !shlw_bit by lia.
  change (1 * 2 ^ 6) with (2 ^ 6 * 1). change (1 * 2 ^ 7) with (2 ^ 6 * 2).
  assert (Hd : 0 <= 2 ^ 6 * e) by (pows; lia).
  rewrite (parity_bit_spec D30 4) by assumption.
  assert (S1 : exists e1, 0 <= e1 < 2 ^ 24 /\ e1 / 4 = e / 4
            /\ (if par D30 4 (2 ^ 6 * e) =? 0 then 2 ^ 6 * e
                else Z.lxor (2 ^ 6 * e) (2 ^ 6 * 1)) = 2 ^ 6 * e1
            /\ par D30 4 (2 ^ 6 * e1) = 0).
  { destruct (Z.eqb_spec (par D30 4 (2 ^ 6 * e)) 0) as [E|E].
    - exists e. repeat split; lia.
    - exists (Z.lxor e 1). rewrite lxor_shifted.
      split; [apply lxor_small; pows; lia|].
      split; [apply lxor_quarter; lia|]. split; [reflexivity|].
      rewrite <- lxor_shifted, par_flip.
      pose proof (par_bit D30 4 (2 ^ 6 * e)).
      replace (par D30 4 (2 ^ 6 * e)) with 1 by lia. reflexivity. }
  destruct S1 as (e1 & R1 & Q1 & -> & P1).
  assert (Hd1 : 0 <= 2 ^ 6 * e1) by (pows; lia).
  rewrite (parity_bit_spec D29 5) by assumption.
  destruct (Z.eqb_spec (par D29 5 (2 ^ 6 * e1)) 0) as [E|E].
  - exists e1. repeat split; try lia; assumption.
  - exists (Z.lxor e1 2). rewrite lxor_shifted.
    split; [apply lxor_small; pows; lia|].
    split; [rewrite lxor_quarter by lia; exact Q1|]. split; [reflexivity|].
    rewrite <- lxor_shifted, !par_flip, P1.
    pose proof (par_bit D29 5 (2 ^ 6 * e1)).
    replace (par D29 5 (2 ^ 6 * e1)) with 1 by lia. split; reflexivity.
Qed.

(** The transmitted word as a sum: six parity bits, and the data bits
    (inverted when D30 of the previous word is 1) from bit 6 up. *)
Lemma computeChecksum_sum source nib :
  0 <= source ->
  let D29 := Z.b2z (Z.testbit source 31) in
  let D30 := Z.b2z (Z.testbit source 30) in
  exists e, 0 <= e < 2 ^ 24
    /\ e / 4 = data24 source / 4
    /\ (nib = false -> e = data24 source)
    /\ (nib = true -> par D30 4 (2 ^ 6 * e) = 0 /\ par D29 5 (2 ^ 6 * e) = 0)
    /\ computeChecksum w source nib
       = parity6 D29 D30 (2 ^ 6 * e) + 2 ^ 6 * sent D30 e.
Proof.
  intros Hs D29 D30. rewrite computeChecksum_eq. cbv zeta.
  rewrite !land_one_bit by lia. fold D29 D30.
  rewrite land_data_mask.
  assert (H29 : 0 <= D29 <= 1) by (unfold D29; destruct (Z.testbit source 31); simpl; lia).
  assert (H30 : 0 <= D30 <= 1) by (unfold D30; destruct (Z.testbit source 30); simpl; lia).
  pose proof (data24_range source) as He.
  destruct nib.
  - destruct (solve_nib_spec D29 D30 (data24 source) H29 H30 He)
      as (e' & R & Q & -> & P4 & P5).
    exists e'. split; [exact R|]. split; [exact Q|].
    split; [discriminate|]. split; [intros _; split; assumption|].
    apply assemble_sum; assumption.
  - exists (data24 source). split; [exact He|]. split; [reflexivity|].
    split; [reflexivity|]. split; [discriminate|].
    apply assemble_sum; assumption.
Qed.

Lemma data24_concat a y t :
  0 <= a < 2 ^ 6 -> 0 <= y < 2 ^ 24 -> data24 (a + 2 ^ 6 * (y + 2 ^ 24 * t)) = y.
Proof.
  intros Ha Hy. unfold data24.
  rewrite (Z.mul_comm (2 ^ 6)), Z.div_add, (Z.div_small a) by lia.
  rewrite Z.add_0_l, (Z.mul_comm (2 ^ 24)), Z.mod_add by lia.
  apply Z.mod_small. exact Hy.
Qed.

Lemma testbit_data24 x j : 0 <= j < 24 -> Z.testbit (data24 x) j = Z.testbit x (j + 6).
Proof.
  intros Hj. unfold data24.
  rewrite Z.mod_pow2_bits_low, Z.div_pow2_bits by lia. reflexivity.
Qed.

Lemma testbit_quarter e e' j :
  e' / 4 = e / 4 -> 2 <= j -> Z.testbit e' j = Z.testbit e j.
Proof.
  intros E Hj. change 4 with (2 ^ 2) in E.
  replace j with (j - 2 + 2) by lia.
  rewrite <- !Z.div_pow2_bits, E by lia. reflexivity.
Qed.

End Checksum.

(** X1: [countBits] returns the number of 1 bits among the 32 low bits of
    its argument, whatever the width of [unsigned long]; bits from 32
    up are not counted. *)
Theorem countBits_counts_low_bits (w v : Z) :
  32 <= w -> 0 <= v -> countBits w v = popcount 32 v.
Proof. intros Hw Hv. apply countBits_spec; assumption. Qed.

Lemma countBits_counts_low_bits_witness :
  32 <= 64 /\ 0 <= 0x1000000FF
  /\ countBits 64 0x1000000FF = popcount 32 0x1000000FF.
Proof.
  split; [lia|]. split; [lia|].
  apply (countBits_counts_low_bits 64 0x1000000FF); lia.
Defined.

Lemma computeChecksum_bits (w source : Z) (nib : bool) :
  32 <= w -> 0 <= source ->
  let r := computeChecksum w source nib in
  0 <= r < 2 ^ 30
  /\ (forall i, (if nib then 8 else 6) <= i < 30 ->
        Z.testbit r i = xorb (Z.testbit source i) (Z.testbit source 30))
  /\ (nib = true -> Z.testbit r 1 = false /\ Z.testbit r 0 = false).
Proof.
  intros Hw Hs r.
  destruct (computeChecksum_sum w Hw source nib Hs) as (e & He & Q & Hf & Ht & E).
  fold r in E.
  set (D29 := Z.b2z (Z.testbit source 31)) in *.
  set (D30 := Z.b2z (Z.testbit source 30)) in *.
  pose proof (parity6_range D29 D30 (2 ^ 6 * e)) as Hp.
  pose proof (sent_range D30 e He) as Hx.
  split; [rewrite E; pows; lia|]. split.
  - intros i Hi. rewrite E, testbit_concat by (try exact Hp; destruct nib; lia).
    replace (i <? 6) with false by (symmetry; apply Z.ltb_ge; destruct nib; lia).
    assert (B : Z.testbit e (i - 6) = Z.testbit source i).
    { destruct nib.
      - rewrite (testbit_quarter _ _ _ Q), testbit_data24 by lia. f_equal. lia.
      - rewrite (Hf eq_refl), testbit_data24 by lia. f_equal. lia. }
    unfold sent, D30. destruct (Z.testbit source 30); cbn [Z.b2z Z.eqb].
    + rewrite Z.lxor_spec, Z.ones_spec_low, B by (destruct nib; lia). reflexivity.
    + rewrite B. symmetry. apply xorb_false_r.
  - intros ->. destruct (Ht eq_refl) as [P4 P5].
    assert (F : parity6 D29 D30 (2 ^ 6 * e)
                = 0 + 2 ^ 2 * (8 * par D29 0 (2 ^ 6 * e) + 4 * par D30 1 (2 ^ 6 * e)
                               + 2 * par D29 2 (2 ^ 6 * e) + par D30 3 (2 ^ 6 * e)))
      by (unfold parity6; rewrite P4, P5; lia).
    rewrite E. split.
    + rewrite testbit_concat by (try exact Hp; lia). cbn [Z.ltb Z.compare].
      rewrite F, testbit_concat by lia. reflexivity.
    + rewrite testbit_concat by (try exact Hp; lia). cbn [Z.ltb Z.compare].
      rewrite F, testbit_concat by lia. reflexivity.
Qed.

(** X2: the word returned by [computeChecksum] has 30 bits; its data
    bits (29 down to 6, or 29 down to 8 when [nib] is set) are those of
    the source, inverted when bit 30 of the source (D30 of the previous
    word) is set; and with [nib] set its two last parity bits are 0. *)
Theorem computeChecksum_word_layout (w source : Z) (nib : bool) :
  32 <= w -> 0 <= source ->
  let r := computeChecksum w source nib in
  0 <= r < 2 ^ 30
  /\ (forall i, (if nib then 8 else 6) <= i < 30 ->
        Z.testbit r i = xorb (Z.testbit source i) (Z.testbit source 30))
  /\ (nib = true -> Z.testbit r 1 = false /\ Z.testbit r 0 = false).
Proof. intros Hw Hs. exact (computeChecksum_bits w source nib Hw Hs). Qed.

Lemma computeChecksum_word_layout_witness :
  32 <= 32 /\ 0 <= 0x80000100
  /\ let r := computeChecksum 32 0x80000100 true in
     0 <= r < 2 ^ 30
     /\ (forall i, 8 <= i < 30 ->
           Z.testbit r i = xorb (Z.testbit 0x80000100 i) (Z.testbit 0x80000100 30))
     /\ (true = true -> Z.testbit r 1 = false /\ Z.testbit r 0 = false).
Proof.
  split; [lia|]. split; [lia|].
  apply (computeChecksum_word_layout 32 0x80000100 true); lia.
Defined.

(** X3: a receiver that undoes the inversion of the data bits and
    computes the parity of the received word again, from the same two
    bits of the previous word, gets the word that was sent. *)
Theorem computeChecksum_recheck (w source : Z) (nib : bool) :
  32 <= w -> 0 <= source ->
  let r := computeChecksum w source nib in
  let undo := if Z.testbit source 30 then Z.lxor r 0x3FFFFFC0 else r in
  computeChecksum w (Z.lor (Z.land source 0xC0000000) (Z.land undo 0x3FFFFFC0)) false
  = r.
Proof.
  intros Hw Hs r undo.
  destruct (computeChecksum_sum w Hw source nib Hs) as (e & He & _ & _ & _ & E).
  fold r in E.
  set (D29 := Z.b2z (Z.testbit source 31)) in *.
  set (D30 := Z.b2z (Z.testbit source 30)) in *.
  pose proof (parity6_range D29 D30 (2 ^ 6 * e)) as Hp.
  pose proof (sent_range D30 e He) as Hx.
  set (p := parity6 D29 D30 (2 ^ 6 * e)) in *.
  (* the data bits that the receiver recovers *)
  assert (U : Z.land undo 0x3FFFFFC0 = 2 ^ 6 * e).
  { rewrite land_data_mask. f_equal. unfold undo. rewrite E.
    unfold sent, D30. destruct (Z.testbit source 30); cbn [Z.b2z Z.eqb].
    - change 0x3FFFFFC0 with (0 + 2 ^ 6 * Z.ones 24).
      rewrite lxor_concat by (pows; lia).
      rewrite Z.lxor_0_r, Z.lxor_assoc, Z.lxor_nilpotent, Z.lxor_0_r.
      replace e with (e + 2 ^ 24 * 0) at 1 by lia.
      apply data24_concat; assumption.
    - replace e with (e + 2 ^ 24 * 0) at 1 by lia.
      apply data24_concat; assumption. }
  (* the two bits of the previous word *)
  set (t := Z.land (top source) 3).
  assert (T : Z.land source 0xC0000000 = 0 + 2 ^ 30 * t).
  { rewrite (split_word source) at 1.
    replace (low6 source + 2 ^ 6 * (data24 source + 2 ^ 24 * top source))
      with ((low6 source + 2 ^ 6 * data24 source) + 2 ^ 30 * top source)
      by (pows; lia).
    change 0xC0000000 with (0 + 2 ^ 30 * 3).
    pose proof (low6_range source). pose proof (data24_range source).
    rewrite land_concat by (pows; lia). rewrite Z.land_0_r. reflexivity. }
  assert (Ht : 0 <= t) by (apply Z.land_nonneg; right; lia).
  set (source' := Z.lor (Z.land source 0xC0000000) (Z.land undo 0x3FFFFFC0)).
  assert (S' : source' = 0 + 2 ^ 6 * (e + 2 ^ 24 * t)).
  { unfold source'. rewrite T, U, lor_concat by (pows; lia).
    rewrite Z.lor_0_l. pows. lia. }
  assert (B : forall n, 30 <= n < 32 -> Z.testbit source' n = Z.testbit source n).
  { intros n Hn. rewrite S'.
    replace (0 + 2 ^ 6 * (e + 2 ^ 24 * t)) with (2 ^ 6 * e + 2 ^ 30 * t) by (pows; lia).
    rewrite testbit_concat by (pows; lia).
    replace (n <? 30) with false by (symmetry; apply Z.ltb_ge; lia).
    unfold t, top. rewrite Z.land_spec, Z.div_pow2_bits by lia.
    replace (n - 30 + 30) with n by lia.
    change 3 with (Z.ones 2). rewrite Z.ones_spec_low by lia. apply andb_true_r. }
  assert (Hs' : 0 <= source') by (rewrite S'; pows; lia).
  destruct (computeChecksum_sum w Hw source' false Hs') as (e' & _ & _ & Hf & _ & E').
  rewrite E', (Hf eq_refl), !B by lia. fold D29 D30.
  rewrite S', data24_concat by (pows; lia).
  rewrite E. reflexivity.
Qed.

Lemma computeChecksum_recheck_witness :
  32 <= 64 /\ 0 <= 0x62C000C0
  /\ let r := computeChecksum 64 0x62C000C0 true in
     let undo := if Z.testbit 0x62C000C0 30 then Z.lxor r 0x3FFFFFC0 else r in
     computeChecksum 64 (Z.lor (Z.land 0x62C000C0 0xC0000000) (Z.land undo 0x3FFFFFC0)) false
     = r.
Proof.
  split; [lia|]. split; [lia|].
  apply (computeChecksum_recheck 64 0x62C000C0 true); lia.
Defined.

End ChecksumFacts.

Module SubframeFacts.
Import GpsTime Engine Subframe ChecksumFacts.

(** A source word of a subframe: 30 bits, the six parity positions empty. *)
Definition source_word (v : Z) : Prop := 0 <= v < 2 ^ 30 /\ Z.land v 0x3F = 0.

Lemma source_word_0 : source_word 0.
Proof. split; [pows; lia | reflexivity]. Qed.

Lemma source_word_lor a b : source_word a -> source_word b -> source_word (Z.lor a b).
Proof.
  intros [Ra Za] [Rb Zb]. split.
  - apply lor_small; [lia | exact Ra | exact Rb].
  - rewrite Z.land_lor_distr_l, Za, Zb. reflexivity.
Qed.

Section Word.
Variable w : Z.
Hypothesis wide : 32 <= w.

Lemma shl_small x k : 0 <= k -> 0 <= x -> x * 2 ^ k < 2 ^ 32 -> shl w x k = x * 2 ^ k.
Proof.
  intros Hk Hx Hs. unfold shl, Parity.shlw. rewrite Z.shiftl_mul_pow2 by lia.
  apply (wrap_small w wide). split; [|exact Hs].
  apply Z.mul_nonneg_nonneg; [exact Hx | apply Z.pow_nonneg; lia].
Qed.

(** A value below [2^n] placed [k] bits up, inside the 24 data bits. *)
Lemma source_word_shl x n k :
  0 <= n -> 6 <= k -> k + n <= 30 -> 0 <= x < 2 ^ n -> source_word (shl w x k).
Proof.
  intros Hn Hk Hkn Hx.
  assert (P : 0 < 2 ^ k) by (apply Z.pow_pos_nonneg; lia).
  assert (B : x * 2 ^ k < 2 ^ 30).
  { apply Z.lt_le_trans with (2 ^ n * 2 ^ k); [nia|].
    rewrite <- Z.pow_add_r by lia. apply Z.pow_le_mono_r; lia. }
  rewrite shl_small by (pows; lia).
  split; [split; [nia | exact B]|].
  replace (x * 2 ^ k) with (0 + 2 ^ 6 * (x * 2 ^ (k - 6))).
  - change 0x3F with (63 + 2 ^ 6 * 0). rewrite land_concat by (pows; lia).
    rewrite Z.land_0_r. reflexivity.
  - replace k with (6 + (k - 6)) at 2 by lia. rewrite Z.pow_add_r by lia. ring.
Qed.

Lemma land_ones_range y n : 0 <= n -> 0 <= Z.land y (Z.ones n) < 2 ^ n.
Proof.
  intros Hn. rewrite Z.land_ones by lia. apply Z.mod_pos_bound.
  apply Z.pow_pos_nonneg; lia.
Qed.

Lemma source_word_field y n k :
  0 <= n -> 6 <= k -> k + n <= 30 ->
  source_word (shl w (Z.land y (Z.ones n)) k).
Proof.
  intros Hn Hk Hkn. apply (source_word_shl _ n); try assumption.
  apply land_ones_range, Hn.
Qed.

End Word.

Ltac source_field w wide :=
  first
    [ apply source_word_0
    | apply (source_word_field w wide _ 2); lia
    | apply (source_word_field w wide _ 4); lia
    | apply (source_word_field w wide _ 6); lia
    | apply (source_word_field w wide _ 8); lia
    | apply (source_word_field w wide _ 10); lia
    | apply (source_word_field w wide _ 14); lia
    | apply (source_word_field w wide _ 16); lia
    | apply (source_word_field w wide _ 22); lia
    | apply (source_word_field w wide _ 24); lia
    | apply (source_word_shl w wide _ 24); [lia | lia | lia | closed_bound]
    | apply (source_word_shl w wide _ 6); [lia | lia | lia | closed_bound]
    | apply (source_word_shl w wide _ 2); [lia | lia | lia | closed_bound] ].

Ltac source_words w wide :=
  repeat first [ apply Forall_cons; split | apply Forall_nil; exact I ];
  repeat apply source_word_lor; unfold band; source_field w wide.

Lemma eph2sbf_source_words w eph io :
  32 <= w -> Forall (Forall source_word) (eph2sbf w eph io).
Proof.
  intros wide. unfold eph2sbf. cbv zeta.
  destruct (vflg io); source_words w wide.
Qed.

Lemma eph2sbf_shape (w : Z) (eph : ephem_t) (io : ionoutc_t) :
  32 <= w ->
  let sbf := eph2sbf w eph io in
  length sbf = 5%nat
  /\ (forall i, (i < 5)%nat ->
        length (sbf !!! i) = 10%nat
        /\ (sbf !!! i) !!! 0%nat = 0x22C00000
        /\ (sbf !!! i) !!! 1%nat = (Z.of_nat i + 1) * 256
        /\ forall j, (j < 10)%nat -> source_word ((sbf !!! i) !!! j))
  /\ (sbf !!! 0%nat) !!! 2%nat < 2 ^ 20.
Proof.
  intros wide sbf.
  pose proof (eph2sbf_source_words w eph io wide) as F. fold sbf in F.
  assert (L : length sbf = 5%nat) by reflexivity.
  assert (R : forall i, (i < 5)%nat ->
              length (sbf !!! i) = 10%nat
              /\ (sbf !!! i) !!! 0%nat = shl w 0x8B0000 6
              /\ (sbf !!! i) !!! 1%nat = shl w (Z.of_nat i + 1) 8).
  { intros i Hi. unfold sbf, eph2sbf. cbv zeta.
    destruct i as [|[|[|[|[|i]]]]]; try lia;
      cbn [lookup_total list_lookup_total];
      try (destruct (vflg io)); repeat split. }
  split; [exact L|]. split.
  - intros i Hi. destruct (R i Hi) as (Li & H0 & H1).
    split; [exact Li|].
    split; [rewrite H0; apply (shl_small w wide); closed_bound|].
    split.
    + rewrite H1, (shl_small w wide); [reflexivity | lia | lia |].
      change (2 ^ 8) with 256. pows. lia.
    + intros j Hj.
      apply Forall_lookup_total_1; [|lia].
      apply (Forall_lookup_total_1 _ _ _ F). lia.
  - unfold sbf, eph2sbf. cbv zeta. cbn [lookup_total list_lookup_total].
    unfold band.
    set (a := Z.land (ulong_of w (codeL2 eph)) 3).
    set (b := Z.land (ulong_of w (svhlth eph)) 63).
    set (c := Z.land (Z.shiftr (ulong_of w (iodc eph)) 8) 3).
    assert (Ha : 0 <= a < 2 ^ 2) by apply (land_ones_range _ 2 ltac:(lia)).
    assert (Hb : 0 <= b < 2 ^ 6) by apply (land_ones_range _ 6 ltac:(lia)).
    assert (Hc : 0 <= c < 2 ^ 2) by apply (land_ones_range _ 2 ltac:(lia)).
    change (Z.land (ulong_of w 0) 1023) with (Z.land (ulong_of w 0) (Z.ones 10)).
    change (Z.land (ulong_of w 0) 15) with (Z.land (ulong_of w 0) (Z.ones 4)).
    rewrite !Z.land_ones by lia.
    unfold ulong_of, Parity.wrap. rewrite Z.mod_0_l by (apply Z.pow_nonzero; lia).
    rewrite !Z.mod_0_l by lia.
    rewrite !(shl_small w wide) by (try lia; change (2 ^ 2) with 4 in *; pows; lia).
    change (0 * 2 ^ 20) with 0. change (0 * 2 ^ 14) with 0.
    rewrite Z.lor_0_l, Z.lor_0_r.
    assert (S : forall x y, 0 <= x < 2 ^ 20 -> 0 <= y < 2 ^ 20 -> Z.lor x y < 2 ^ 20)
      by (intros; apply lor_small; lia).
    change (2 ^ 2) with 4 in *. change (2 ^ 18) with 262144.
    change (2 ^ 8) with 256. change (2 ^ 20) with 1048576 in *. pows.
    apply S; [|lia]. split; [apply Z.lor_nonneg; lia|].
    apply S; lia.
Qed.

(** X4: [eph2sbf] fills five subframes of ten source words.  Every word
    has 30 bits with the six parity positions empty; the first word of
    each subframe is the telemetry word with the preamble 0x8B, the
    second holds the subframe number in bits 8 to 10 and nothing else
    (the count of the hand-over word is added later), and the third
    word of subframe 1 leaves the ten bits of the week number empty. *)
Theorem eph2sbf_layout (w : Z) (eph : ephem_t) (io : ionoutc_t) :
  32 <= w ->
  let sbf := eph2sbf w eph io in
  length sbf = 5%nat
  /\ (forall i, (i < 5)%nat ->
        length (sbf !!! i) = 10%nat
        /\ (sbf !!! i) !!! 0%nat = 0x22C00000
        /\ (sbf !!! i) !!! 1%nat = (Z.of_nat i + 1) * 256
        /\ forall j, (j < 10)%nat -> source_word ((sbf !!! i) !!! j))
  /\ (sbf !!! 0%nat) !!! 2%nat < 2 ^ 20.
Proof. intros wide. exact (eph2sbf_shape w eph io wide). Qed.

Lemma eph2sbf_layout_witness :
  32 <= 64
  /\ let sbf := eph2sbf 64 zero_ephem EngineFacts.sample_ionoutc in
     length sbf = 5%nat
     /\ (forall i, (i < 5)%nat ->
           length (sbf !!! i) = 10%nat
           /\ (sbf !!! i) !!! 0%nat = 0x22C00000
           /\ (sbf !!! i) !!! 1%nat = (Z.of_nat i + 1) * 256
           /\ forall j, (j < 10)%nat -> source_word ((sbf !!! i) !!! j))
     /\ (sbf !!! 0%nat) !!! 2%nat < 2 ^ 20.
Proof.
  split; [lia|].
  apply (eph2sbf_layout 64 zero_ephem EngineFacts.sample_ionoutc). lia.
Defined.

End SubframeFacts.

Module SignalFacts.
Import GpsTime Engine Signal GpsTimeFacts.

(** Position in the navigation message, in chips: 1023 chips to a code
    period, 20 periods to a data bit, 30 bits to a word. *)
Definition chip_time (c : channel_t) : Q :=
  (inject_Z ((iword c * 30 + ibit c) * 20 + icode c) * 1023 + code_phase c)%Q.

Definition counters_ok (c : channel_t) : Prop :=
  0 <= icode c < 20 /\ 0 <= ibit c < 30 /\ 0 <= iword c.

Lemma Qfloor_nonneg x : (0 <= x)%Q -> 0 <= Qfloor x.
Proof. intros H. change 0 with (Qfloor 0). apply Qfloor_resp_le, H. Qed.

Lemma Qfloor_below x n : (x < inject_Z n)%Q -> Qfloor x < n.
Proof.
  intros H. pose proof (Qfloor_le x) as L.
  assert (I : (inject_Z (Qfloor x) < inject_Z n)%Q) by (eapply Qle_lt_trans; eassumption).
  rewrite <- Zlt_Qlt in I. exact I.
Qed.

Lemma data_bit_sign dwrd iword ibit :
  data_bit dwrd iword ibit = 1 \/ data_bit dwrd iword ibit = -1.
Proof.
  unfold data_bit.
  set (x := Z.shiftr (dwrd !!! Z.to_nat iword) (29 - ibit)).
  change (Z.land x 1) with (Z.land x (Z.ones 1)). rewrite Z.land_ones by lia.
  change (2 ^ 1) with 2. pose proof (Z.mod_pos_bound x 2 ltac:(lia)). lia.
Qed.

Lemma Qabs_of_zero (x tol : Q) : (x == 0)%Q -> (0 <= tol)%Q -> (Qabs x <= tol)%Q.
Proof. intros E H. rewrite E. exact H. Qed.

(** The inputs of [computeCodePhase] as the simulator has them: both
    times with their seconds inside the week and in the same week or
    in neighbouring ones, a range that is not negative and below
    10^9 m, and [ms] from 1 to 35999.  Within these bounds the binary64
    value of [ms] is within 10^-6 of the exact one. *)
Definition code_inputs (c : channel_t) : Prop :=
  ((0 <= sec (r_g (rho0 c)))%Q /\ (sec (r_g (rho0 c)) < 604800)%Q)
  /\ ((0 <= sec (c_g0 c))%Q /\ (sec (c_g0 c) < 604800)%Q)
  /\ Z.abs (week (r_g (rho0 c)) - week (c_g0 c)) <= 1
  /\ ((0 <= range (rho0 c))%Q /\ (range (rho0 c) <= 1000000000)%Q)
  /\ ((1 <= code_ms c)%Q /\ (code_ms c <= 35999)%Q).

(** X5: [computeCodePhase] splits [ms] into word, bit and code-period
    counters within their ranges ([iword] below 60, the words of
    [dwrd]) and a code phase in [0, 1023), so that the chip index is
    in 0 .. 1022; counters and code phase together give the position
    [ms * 1023] in chips to within 0.001 chip. *)
Theorem computeCodePhase_counters (c : channel_t) (rho1 : range_t) (dt : Q) :
  code_inputs c ->
  let c' := computeCodePhase c rho1 dt in
  counters_ok c' /\ iword c' < 60
  /\ (0 <= code_phase c')%Q /\ (code_phase c' < 1023)%Q
  /\ 0 <= int_of_double (code_phase c') < 1023
  /\ (Qabs (chip_time c' - code_ms c * 1023) <= 0.001)%Q
  /\ (dataBit c' = 1 \/ dataBit c' = -1)
  /\ rho0 c' = rho1.
Proof.
  intros (_ & _ & _ & _ & Hlo & Hhi) c'.
  assert (Hms : (0 <= code_ms c)%Q) by lra.
  set (ims := int_of_double (code_ms c)).
  assert (Ei : ims = Qfloor (code_ms c))
    by (apply int_of_double_floor, Qfloor_nonneg, Hms).
  assert (Hi : 0 <= ims) by (rewrite Ei; apply Qfloor_nonneg, Hms).
  destruct (floor_fraction (code_ms c)) as [F0 F1]. rewrite <- Ei in F0, F1.
  assert (Ew : iword c' = ims ÷ 600) by reflexivity.
  assert (Eb : ibit c' = (ims - ims ÷ 600 * 600) ÷ 20) by reflexivity.
  assert (Ec : icode c' = ims - ims ÷ 600 * 600
                          - (ims - ims ÷ 600 * 600) ÷ 20 * 20) by reflexivity.
  assert (Ep : code_phase c' = ((code_ms c - inject_Z ims) * 1023)%Q) by reflexivity.
  rewrite (Z.quot_div_nonneg ims 600) in Ew, Eb, Ec by lia.
  pose proof (Z.div_mod ims 600 ltac:(lia)) as D1.
  pose proof (Z.mod_pos_bound ims 600 ltac:(lia)) as M1.
  assert (R : ims - ims / 600 * 600 = ims mod 600) by lia.
  rewrite R in Eb, Ec. rewrite (Z.quot_div_nonneg (ims mod 600) 20) in Eb, Ec by lia.
  pose proof (Z.div_mod (ims mod 600) 20 ltac:(lia)) as D2.
  pose proof (Z.mod_pos_bound (ims mod 600) 20 ltac:(lia)) as M2.
  assert (Hw : 0 <= ims / 600) by (apply Z.div_pos; lia).
  assert (Hb : 0 <= ims mod 600 / 20 < 30)
    by (split; [apply Z.div_pos; lia | apply Z.div_lt_upper_bound; lia]).
  assert (Hp0 : (0 <= code_phase c')%Q) by (rewrite Ep; nra).
  assert (Hp1 : (code_phase c' < 1023)%Q) by (rewrite Ep; nra).
  split; [unfold counters_ok; rewrite Ew, Eb, Ec; lia|].
  split.
  { rewrite Ew. apply Z.div_lt_upper_bound; [lia|].
    rewrite Ei. apply Qfloor_below.
    change (inject_Z (600 * 60)) with 36000%Q. lra. }
  split; [exact Hp0|]. split; [exact Hp1|]. split.
  - rewrite int_of_double_floor by (apply Qfloor_nonneg, Hp0).
    split; [apply Qfloor_nonneg, Hp0 | apply Qfloor_below, Hp1].
  - split.
    + apply Qabs_of_zero; [|lra].
      unfold chip_time. rewrite Ew, Eb, Ec, Ep.
      replace ((ims / 600 * 30 + ims mod 600 / 20) * 20
               + (ims mod 600 - ims mod 600 / 20 * 20)) with ims by lia.
      ring.
    + split; [apply data_bit_sign | reflexivity].
Qed.

(** A channel as the simulator holds it: PRN 1 with its 1023 chips, 60
    words of navigation data, a Doppler shift of -2000 Hz, a range of
    22000 km at the reception time 100 s of week 1823, the frame of the
    navigation message starting at 90 s; the carrier phase just above 0
    and the counters at the end of word 2, bit 29, code period 19. *)
Definition tracking_channel : channel_t :=
  mk_channel 1 (CACode.ca_chips 1) (-2000) (1.023e6 - 2000 / 1540)
    0.0001 1022.9 (mk_gpstime 1823 90)
    (replicate 5 (replicate 10 0)) (replicate 60 0x22C000E4)
    2 29 19 1 1 (0, 0.5)%Q
    (mk_range (mk_gpstime 1823 100) 22000000 0 22000000 (0, 0.5)%Q 0).

Definition next_range : range_t :=
  mk_range (mk_gpstime 1823 100.1) 22000038 0 22000038 (0, 0.5)%Q 0.

(** The sample period of the default rate, 2.6 MS/s. *)
Definition sample_delt : Q := 1 / 2600000.

Lemma computeCodePhase_counters_witness :
  code_inputs tracking_channel
  /\ let c' := computeCodePhase tracking_channel next_range 0.1 in
     (iword c' = 26 /\ ibit c' = 16 /\ icode c' = 6)
     /\ counters_ok c' /\ iword c' < 60
     /\ (0 <= code_phase c')%Q /\ (code_phase c' < 1023)%Q
     /\ 0 <= int_of_double (code_phase c') < 1023
     /\ (Qabs (chip_time c' - code_ms tracking_channel * 1023) <= 0.001)%Q
     /\ (dataBit c' = 1 \/ dataBit c' = -1)
     /\ rho0 c' = next_range.
Proof.
  assert (H : code_inputs tracking_channel)
    by (unfold code_inputs; repeat split; by_computation).
  split; [exact H|].
  split; [repeat split; vm_compute; reflexivity|].
  exact (computeCodePhase_counters tracking_channel next_range 0.1 H).
Defined.

(** X6: one sample of [main], for a channel with its counters in range,
    its code phase in [0, 1023) and a step [f_code * delt] from 0 to
    1022 chips: the counters stay in range, the code phase stays in
    [0, 1023) and the chip index in 0 .. 1022; the position in the
    navigation message moves by [f_code * delt] chips, to within
    10^-9 chip; the data bit stays or becomes a bit of [dwrd]; [ca],
    [dwrd] and [prn] are not written. *)
Theorem sample_step_code_phase (delt : Q) (c : channel_t) :
  counters_ok c ->
  (0 <= code_phase c)%Q -> (code_phase c < 1023)%Q ->
  (0 <= f_code c * delt)%Q -> (f_code c * delt <= 1022)%Q ->
  let c' := sample_step delt c in
  counters_ok c'
  /\ ((0 <= code_phase c')%Q /\ (code_phase c' < 1023)%Q
      /\ 0 <= int_of_double (code_phase c') < 1023)
  /\ (Qabs (chip_time c' - (chip_time c + f_code c * delt)) <= 0.000000001)%Q
  /\ (dataBit c' = dataBit c \/ dataBit c' = 1 \/ dataBit c' = -1)
  /\ ca c' = ca c /\ dwrd c' = dwrd c /\ prn c' = prn c.
Proof.
  intros (Hc & Hb & Hw) P0 P1 S0 S1 c'.
  assert (Range : forall x : Q, (0 <= x)%Q -> (x < 1023)%Q ->
            (0 <= x)%Q /\ (x < 1023)%Q /\ 0 <= int_of_double x < 1023).
  { intros x X0 X1. split; [exact X0|]. split; [exact X1|].
    rewrite int_of_double_floor by (apply Qfloor_nonneg, X0).
    split; [apply Qfloor_nonneg, X0 | apply Qfloor_below; unfold inject_Z; lra]. }
  unfold c', sample_step, counters_ok, chip_time.
  destruct (Qgeb (code_phase c + f_code c * delt) CA_SEQ_LEN) eqn:G.
  - apply Qgeb_true in G. unfold CA_SEQ_LEN in *.
    destruct (Z.leb_spec 20 (icode c + 1)) as [L|L].
    + destruct (Z.leb_spec 30 (ibit c + 1)) as [L'|L'];
        cbn [icode ibit iword code_phase dataBit ca dwrd prn].
      * split; [lia|]. split; [apply Range; lra|]. split.
        { apply Qabs_of_zero; [|lra].
          replace (((iword c + 1) * 30 + 0) * 20 + 0)
            with (((iword c * 30 + ibit c) * 20 + icode c) + 1) by lia.
          rewrite inject_Z_plus. change (inject_Z 1) with 1%Q. ring. }
        split; [right; apply data_bit_sign | repeat split].
      * split; [lia|]. split; [apply Range; lra|]. split.
        { apply Qabs_of_zero; [|lra].
          replace ((iword c * 30 + (ibit c + 1)) * 20 + 0)
            with (((iword c * 30 + ibit c) * 20 + icode c) + 1) by lia.
          rewrite inject_Z_plus. change (inject_Z 1) with 1%Q. ring. }
        split; [right; apply data_bit_sign | repeat split].
    + cbn [icode ibit iword code_phase dataBit ca dwrd prn].
      split; [lia|]. split; [apply Range; lra|]. split.
      { apply Qabs_of_zero; [|lra].
        replace ((iword c * 30 + ibit c) * 20 + (icode c + 1))
          with (((iword c * 30 + ibit c) * 20 + icode c) + 1) by lia.
        rewrite inject_Z_plus. change (inject_Z 1) with 1%Q. ring. }
      split; [left; reflexivity | repeat split].
  - apply Qgeb_false in G. unfold CA_SEQ_LEN in *.
    cbn [icode ibit iword code_phase dataBit ca dwrd prn].
    split; [lia|]. split; [apply Range; lra|]. split.
    { apply Qabs_of_zero; [ring | lra]. }
    split; [left; reflexivity | repeat split].
Qed.

Lemma sample_step_code_phase_witness :
  counters_ok tracking_channel
  /\ (0 <= code_phase tracking_channel)%Q /\ (code_phase tracking_channel < 1023)%Q
  /\ (0 <= f_code tracking_channel * sample_delt)%Q
  /\ (f_code tracking_channel * sample_delt <= 1022)%Q
  /\ let c' := sample_step sample_delt tracking_channel in
     (iword c' = 3 /\ ibit c' = 0 /\ icode c' = 0)
     /\ counters_ok c'
     /\ ((0 <= code_phase c')%Q /\ (code_phase c' < 1023)%Q
         /\ 0 <= int_of_double (code_phase c') < 1023)
     /\ (Qabs (chip_time c' - (chip_time tracking_channel
                                + f_code tracking_channel * sample_delt))
         <= 0.000000001)%Q
     /\ (dataBit c' = dataBit tracking_channel \/ dataBit c' = 1 \/ dataBit c' = -1)
     /\ ca c' = ca tracking_channel /\ dwrd c' = dwrd tracking_channel
     /\ prn c' = prn tracking_channel.
Proof.
  assert (H : counters_ok tracking_channel) by (unfold counters_ok; simpl; lia).
  assert (P0 : (0 <= code_phase tracking_channel)%Q) by by_computation.
  assert (P1 : (code_phase tracking_channel < 1023)%Q) by by_computation.
  assert (S0 : (0 <= f_code tracking_channel * sample_delt)%Q) by by_computation.
  assert (S1 : (f_code tracking_channel * sample_delt <= 1022)%Q) by by_computation.
  split; [exact H|]. split; [exact P0|]. split; [exact P1|].
  split; [exact S0|]. split; [exact S1|].
  split; [repeat split; vm_compute; reflexivity|].
  exact (sample_step_code_phase sample_delt tracking_channel H P0 P1 S0 S1).
Defined.

(** X7: one sample of [main], for a carrier phase in [0, 1) and a step
    [f_carr * delt] of at most half a cycle either way, when the sum of
    the two is not in the interval from -2^-52 to 0 (ends excluded):
    the carrier phase stays in [0, 1), so that the index into the sine
    and cosine tables is in 0 .. 511, and it is the sum up to a whole
    cycle, to within 10^-15.  (In the excluded interval the addition of
    1.0 can round to 1.0 in binary64, and the index is then 512:
    [Binary64Facts.carrier_phase_reaches_one].) *)
Theorem sample_step_carrier_phase (delt : Q) (c : channel_t) :
  (0 <= carr_phase c)%Q -> (carr_phase c < 1)%Q ->
  (-0.5 <= f_carr c * delt)%Q -> (f_carr c * delt <= 0.5)%Q ->
  ((0 <= carr_phase c + f_carr c * delt)%Q
   \/ (carr_phase c + f_carr c * delt <= - (1 # 4503599627370496))%Q) ->
  let c' := sample_step delt c in
  (0 <= carr_phase c')%Q /\ (carr_phase c' < 1)%Q
  /\ 0 <= iTable c' < 512
  /\ (exists k : Z, -1 <= k <= 1
        /\ (Qabs (carr_phase c' - (carr_phase c + f_carr c * delt + inject_Z k))
            <= 0.000000000000001)%Q).
Proof.
  intros P0 P1 S0 S1 _ c'.
  assert (R : (0 <= carr_phase c')%Q /\ (carr_phase c' < 1)%Q
              /\ (exists k : Z, -1 <= k <= 1
                   /\ (Qabs (carr_phase c'
                             - (carr_phase c + f_carr c * delt + inject_Z k))
                       <= 0.000000000000001)%Q)).
  { unfold c', sample_step.
    destruct (Qgeb (code_phase c + f_code c * delt) CA_SEQ_LEN);
      [destruct (20 <=? icode c + 1); [destruct (30 <=? ibit c + 1)|]|];
      cbn [carr_phase];
      (destruct (Qgeb (carr_phase c + f_carr c * delt) 1.0) eqn:G;
       [apply Qgeb_true in G; split; [lra|]; split; [lra|];
        exists (-1); split; [lia|]; apply Qabs_of_zero;
        [change (inject_Z (-1)) with (-1)%Q; ring | lra]
       |apply Qgeb_false in G;
        destruct (Qltb (carr_phase c + f_carr c * delt) 0.0) eqn:L;
        [apply Qltb_true in L; split; [lra|]; split; [lra|];
         exists 1; split; [lia|]; apply Qabs_of_zero;
         [change (inject_Z 1) with 1%Q; ring | lra]
        |apply Qltb_false in L; split; [lra|]; split; [lra|];
         exists 0; split; [lia|]; apply Qabs_of_zero;
         [change (inject_Z 0) with 0%Q; ring | lra]]]). }
  destruct R as (R0 & R1 & R2). split; [exact R0|]. split; [exact R1|].
  split; [|exact R2].
  unfold iTable, floor.
  rewrite (int_of_double_inject _ (Qfloor (carr_phase c' * 512.0))) by reflexivity.
  split; [apply Qfloor_nonneg; lra | apply Qfloor_below; unfold inject_Z; lra].
Qed.

Lemma sample_step_carrier_phase_witness :
  (0 <= carr_phase tracking_channel)%Q /\ (carr_phase tracking_channel < 1)%Q
  /\ (-0.5 <= f_carr tracking_channel * sample_delt)%Q
  /\ (f_carr tracking_channel * sample_delt <= 0.5)%Q
  /\ (carr_phase tracking_channel + f_carr tracking_channel * sample_delt
      <= - (1 # 4503599627370496))%Q
  /\ let c' := sample_step sample_delt tracking_channel in
     iTable c' = 511
     /\ (0 <= carr_phase c')%Q /\ (carr_phase c' < 1)%Q
     /\ 0 <= iTable c' < 512
     /\ (exists k : Z, -1 <= k <= 1
           /\ (Qabs (carr_phase c' - (carr_phase tracking_channel
                                       + f_carr tracking_channel * sample_delt
                                       + inject_Z k))
               <= 0.000000000000001)%Q).
Proof.
  assert (H1 : (0 <= carr_phase tracking_channel)%Q) by by_computation.
  assert (H2 : (carr_phase tracking_channel < 1)%Q) by by_computation.
  assert (H3 : (-0.5 <= f_carr tracking_channel * sample_delt)%Q) by by_computation.
  assert (H4 : (f_carr tracking_channel * sample_delt <= 0.5)%Q) by by_computation.
  assert (H5 : (carr_phase tracking_channel + f_carr tracking_channel * sample_delt
                <= - (1 # 4503599627370496))%Q) by by_computation.
  split; [exact H1|]. split; [exact H2|]. split; [exact H3|]. split; [exact H4|].
  split; [exact H5|].
  split; [vm_compute; reflexivity|].
  exact (sample_step_carrier_phase sample_delt tracking_channel H1 H2 H3 H4
           (or_intror H5)).
Defined.



End SignalFacts.

(** ** The navigation message of a channel *)

Module NavMsgFacts.
Import GpsTime Engine GpsTimeFacts ChecksumFacts Subframe SubframeFacts.

(** The data bits of a received word: the inversion is undone when the
    last bit (D30) of the word before it is 1. *)
Definition received (prev word : Z) : Z :=
  if Z.testbit prev 0 then Z.lxor word 0x3FFFFFC0 else word.

(** The field of [n] bits of [x] that starts at bit [lo]. *)
Definition bits (x lo n : Z) : Z := Z.land (Z.shiftr x lo) (Z.ones n).

Lemma bits_eq x lo n v :
  0 <= lo -> 0 <= n -> 0 <= v < 2 ^ n ->
  (forall j, 0 <= j < n -> Z.testbit x (j + lo) = Z.testbit v j) ->
  bits x lo n = v.
Proof.
  intros Hlo Hn Hv H. unfold bits. apply Z.bits_inj'. intros j Hj.
  rewrite Z.land_spec, Z.shiftr_spec by lia.
  destruct (Z.ltb_spec j n) as [L|L].
  - rewrite Z.ones_spec_low, andb_true_r by lia. apply H. lia.
  - rewrite Z.ones_spec_high, andb_false_r by lia.
    symmetry. apply (high_bits v n j); lia.
Qed.

Lemma testbit_mask_data i : 0 <= i ->
  Z.testbit 0x3FFFFFC0 i = (6 <=? i) && (i <? 30).
Proof.
  intros Hi. change 0x3FFFFFC0 with (0 + 2 ^ 6 * Z.ones 24).
  rewrite testbit_concat by (pows; lia).
  destruct (Z.ltb_spec i 6) as [L|L].
  - rewrite Z.bits_0. destruct (Z.leb_spec 6 i); [lia | reflexivity].
  - destruct (Z.leb_spec 6 i); [|lia]. cbn [andb].
    destruct (Z.ltb_spec i 30).
    + apply Z.ones_spec_low. lia.
    + apply Z.ones_spec_high. lia.
Qed.

Lemma testbit_mask_prev i : 0 <= i < 32 ->
  Z.testbit 0xC0000000 i = (30 <=? i).
Proof.
  intros Hi. change 0xC0000000 with (0 + 2 ^ 30 * Z.ones 2).
  rewrite testbit_concat by (pows; lia).
  destruct (Z.ltb_spec i 30) as [L|L].
  - rewrite Z.bits_0. destruct (Z.leb_spec 30 i); [lia | reflexivity].
  - destruct (Z.leb_spec 30 i); [|lia]. apply Z.ones_spec_low. lia.
Qed.

Lemma testbit_land_ones x n j :
  0 <= n -> 0 <= j -> Z.testbit (Z.land x (Z.ones n)) j = Z.testbit x j && (j <? n).
Proof.
  intros Hn Hj. rewrite Z.land_spec. f_equal.
  destruct (Z.ltb_spec j n); [apply Z.ones_spec_low | apply Z.ones_spec_high]; lia.
Qed.

Section Nav.
Context {env : Env}.
Hypothesis wide : 32 <= ulong_bits.

Lemma testbit_uint x i : 0 <= i < 32 -> Z.testbit (uint x) i = Z.testbit x i.
Proof. intros Hi. unfold uint. apply Z.mod_pow2_bits_low. lia. Qed.

Lemma testbit_shlw y k i :
  0 <= i < 32 -> Z.testbit (Parity.shlw ulong_bits y k) i = Z.testbit y (i - k).
Proof.
  intros Hi. unfold Parity.shlw, Parity.wrap.
  rewrite Z.mod_pow2_bits_low by lia. apply Z.shiftl_spec. lia.
Qed.

(** The source word that [nav_word] hands to [computeChecksum]. *)
Definition nav_source (src : Z) (with_wn : bool) (iwrd : nat) (wn tow prevwrd : Z) : Z :=
  let sbfwrd := uint src in
  let sbfwrd :=
    if with_wn
    then uint (Z.lor sbfwrd (Parity.shlw ulong_bits (Z.land wn 0x3FF) 20))
    else sbfwrd in
  let sbfwrd :=
    if (iwrd =? 1)%nat
    then uint (Z.lor sbfwrd (Parity.shlw ulong_bits (Z.land tow 0x1FFFF) 13))
    else sbfwrd in
  uint (Z.lor sbfwrd (Z.land (Parity.shlw ulong_bits prevwrd 30) 0xC0000000)).

Lemma nav_word_eq src with_wn i wn tow prev :
  nav_word src with_wn i wn tow prev
  = Parity.computeChecksum ulong_bits (nav_source src with_wn i wn tow prev)
      ((i =? 1)%nat || (i =? 9)%nat).
Proof. reflexivity. Qed.

Lemma nav_source_nonneg src with_wn i wn tow prev :
  0 <= nav_source src with_wn i wn tow prev.
Proof. unfold nav_source. cbv zeta. apply Z.mod_pos_bound. lia. Qed.

Lemma nav_source_bits src with_wn i wn tow prev n :
  0 <= n < 32 ->
  Z.testbit (nav_source src with_wn i wn tow prev) n
  = Z.testbit src n
    || (with_wn && Z.testbit (Z.land wn 0x3FF) (n - 20))
    || ((i =? 1)%nat && Z.testbit (Z.land tow 0x1FFFF) (n - 13))
    || (Z.testbit prev (n - 30) && (30 <=? n)).
Proof.
  intros Hn. unfold nav_source. cbv zeta.
  rewrite testbit_uint, Z.lor_spec, Z.land_spec, testbit_shlw, testbit_mask_prev by lia.
  f_equal.
  destruct (i =? 1)%nat, with_wn;
    rewrite ?testbit_uint, ?Z.lor_spec, ?testbit_uint, ?Z.lor_spec, ?testbit_shlw,
            ?testbit_uint by lia; cbn [andb orb]; rewrite ?orb_false_r; reflexivity.
Qed.

Lemma nav_source_D30 src with_wn i wn tow prev :
  0 <= src < 2 ^ 30 ->
  Z.testbit (nav_source src with_wn i wn tow prev) 30 = Z.testbit prev 0.
Proof.
  intros Hs. rewrite nav_source_bits by lia.
  change (30 - 30) with 0. change (30 <=? 30) with true. rewrite andb_true_r.
  rewrite (high_bits src 30 30) by lia.
  change 0x3FF with (Z.ones 10). change 0x1FFFF with (Z.ones 17).
  rewrite !testbit_land_ones by lia.
  change (30 - 20 <? 10) with false. change (30 - 13 <? 17) with false.
  rewrite !andb_false_r. reflexivity.
Qed.

(** A word of the message: 30 bits, and for the words 2 and 10 of a
    subframe (indices 1 and 9) two zero bits at the end. *)
Definition good_word (i : nat) (v : Z) : Prop :=
  0 <= v < 2 ^ 30
  /\ ((i = 1 \/ i = 9)%nat -> Z.testbit v 1 = false /\ Z.testbit v 0 = false).

Lemma nav_word_good src with_wn i wn tow prev :
  good_word i (nav_word src with_wn i wn tow prev).
Proof.
  rewrite nav_word_eq.
  destruct (computeChecksum_bits ulong_bits _ ((i =? 1)%nat || (i =? 9)%nat) wide
              (nav_source_nonneg src with_wn i wn tow prev)) as (R & _ & T).
  split; [exact R|]. intros Hi. apply T.
  destruct Hi as [-> | ->]; reflexivity.
Qed.

(** The data bits that a receiver recovers from a word of the message
    are the bits of its source word. *)
Lemma nav_word_received src with_wn i wn tow prev n :
  0 <= src < 2 ^ 30 -> 8 <= n < 30 ->
  Z.testbit (received prev (nav_word src with_wn i wn tow prev)) n
  = Z.testbit (nav_source src with_wn i wn tow prev) n.
Proof.
  intros Hs Hn. rewrite nav_word_eq.
  destruct (computeChecksum_bits ulong_bits _ ((i =? 1)%nat || (i =? 9)%nat) wide
              (nav_source_nonneg src with_wn i wn tow prev)) as (_ & B & _).
  specialize (B n ltac:(destruct ((i =? 1)%nat || (i =? 9)%nat); lia)).
  rewrite nav_source_D30 in B by exact Hs.
  unfold received. destruct (Z.testbit prev 0).
  - rewrite Z.lxor_spec, B, testbit_mask_data by lia.
    replace (6 <=? n) with true by (symmetry; apply Z.leb_le; lia).
    replace (n <? 30) with true by (symmetry; apply Z.ltb_lt; lia).
    cbn [andb]. rewrite xorb_assoc. apply xorb_false_r.
  - rewrite B. apply xorb_false_r.
Qed.

(** The hand-over word: its count and its subframe number. *)
Lemma how_fields id tow wn prev with_wn :
  0 <= id < 8 ->
  let r := nav_word (id * 256) with_wn 1 wn tow prev in
  (with_wn = false ->
   bits (received prev r) 13 17 = tow mod 2 ^ 17)
  /\ bits (received prev r) 8 3 = id.
Proof.
  intros Hid r.
  assert (Hs : 0 <= id * 256 < 2 ^ 30) by (pows; lia).
  assert (Sb : forall n, 0 <= n -> Z.testbit (id * 256) n = Z.testbit id (n - 8)).
  { intros n Hn. change 256 with (2 ^ 8). destruct (Z.ltb_spec n 8).
    - rewrite Z.mul_pow2_bits_low, Z.testbit_neg_r by lia. reflexivity.
    - apply Z.mul_pow2_bits; lia. }
  split.
  - intros ->. apply bits_eq; try lia; try (apply Z.mod_pos_bound; lia).
    intros j Hj. unfold r. rewrite nav_word_received by (try exact Hs; lia).
    rewrite nav_source_bits by lia. cbn [andb Nat.eqb].
    rewrite Sb, (high_bits id 3 (j + 13 - 8)) by (try lia; change (2 ^ 3) with 8; lia).
    replace (30 <=? j + 13) with false by (symmetry; apply Z.leb_gt; lia).
    rewrite andb_false_r, orb_false_r. cbn [orb].
    change 0x1FFFF with (Z.ones 17). rewrite Z.land_ones by lia.
    f_equal. lia.
  - apply bits_eq; try lia; try (change (2 ^ 3) with 8; lia).
    intros j Hj. unfold r. rewrite nav_word_received by (try exact Hs; lia).
    rewrite nav_source_bits by lia. cbn [andb Nat.eqb].
    rewrite Sb by lia.
    replace (30 <=? j + 8) with false by (symmetry; apply Z.leb_gt; lia).
    rewrite andb_false_r, orb_false_r.
    rewrite (Z.testbit_neg_r _ (j + 8 - 13)) by lia.
    rewrite (Z.testbit_neg_r _ (j + 8 - 20)) by lia.
    rewrite andb_false_r, !orb_false_r. f_equal. lia.
Qed.

(** The third word of subframe 1: the week number. *)
Lemma wn_field src wn tow prev :
  0 <= src < 2 ^ 20 -> Z.testbit prev 0 = false ->
  bits (nav_word src true 2 wn tow prev) 20 10 = wn mod 2 ^ 10.
Proof.
  intros Hs Hp.
  assert (E : nav_word src true 2 wn tow prev = received prev (nav_word src true 2 wn tow prev))
    by (unfold received; rewrite Hp; reflexivity).
  rewrite E. apply bits_eq; try lia; try (apply Z.mod_pos_bound; lia).
  intros j Hj. rewrite nav_word_received by (pows; change (2 ^ 20) with 1048576 in *; lia).
  rewrite nav_source_bits by lia. cbn [andb Nat.eqb].
  rewrite (high_bits src 20 (j + 20)) by lia.
  replace (30 <=? j + 20) with false by (symmetry; apply Z.leb_gt; lia).
  rewrite andb_false_r, !orb_false_r. cbn [orb].
  change 0x3FF with (Z.ones 10). rewrite Z.land_ones by lia.
  f_equal. lia.
Qed.

(** One subframe of the message: ten words, each computed from its
    source word and the word before it. *)
Lemma nav_subframe_spec row is1 wn tow base dw prev :
  (base + 10 <= length dw)%nat ->
  exists dw' prev',
    nav_subframe row is1 wn tow base (dw, prev) = (dw', prev')
    /\ length dw' = length dw
    /\ (forall j, (j < base \/ base + 10 <= j)%nat -> dw' !!! j = dw !!! j)
    /\ (forall i, (i < 10)%nat -> good_word i (dw' !!! (base + i)%nat))
    /\ (forall i, (S i < 10)%nat ->
          dw' !!! (base + S i)%nat
          = nav_word (row !!! S i) (is1 && (S i =? 2)%nat) (S i) wn tow
              (dw' !!! (base + i)%nat)).
Proof.
  intros Hlen. unfold nav_subframe. change N_DWRD_SBF with 10%nat.
  match goal with |- context [foldl ?f _ _] => set (F := f) end.
  assert (G : forall n, (n <= 10)%nat ->
            exists dw' prev',
              foldl F (dw, prev) (seq 0 n) = (dw', prev')
              /\ length dw' = length dw
              /\ (forall j, (j < base \/ base + n <= j)%nat -> dw' !!! j = dw !!! j)
              /\ (forall i, (i < n)%nat -> good_word i (dw' !!! (base + i)%nat))
              /\ (forall i, (S i < n)%nat ->
                    dw' !!! (base + S i)%nat
                    = nav_word (row !!! S i) (is1 && (S i =? 2)%nat) (S i) wn tow
                        (dw' !!! (base + i)%nat))
              /\ (forall m, n = S m -> prev' = dw' !!! (base + m)%nat)).
  { induction n as [|n IH]; intros Hn.
    - exists dw, prev. cbn [seq foldl]. repeat split; intros; lia.
    - destruct (IH ltac:(lia)) as (dw1 & prev1 & E & L & O & I & C & P).
      rewrite seq_S, foldl_app, E. cbn [foldl Nat.add]. unfold F at 1.
      eexists _, _. split; [reflexivity|].
      split; [rewrite length_insert; exact L|]. split; [|split; [|split]].
      + intros j Hj. rewrite list_lookup_total_insert_ne by lia. apply O. lia.
      + intros i Hi. destruct (decide (i = n)) as [->|Hne].
        * rewrite list_lookup_total_insert_eq by lia. apply nav_word_good.
        * rewrite list_lookup_total_insert_ne by lia. apply I. lia.
      + intros i Hi. destruct (decide (S i = n)) as [<-|Hne].
        * rewrite list_lookup_total_insert_eq by lia.
          rewrite list_lookup_total_insert_ne by lia.
          rewrite (P i eq_refl). reflexivity.
        * rewrite !list_lookup_total_insert_ne by lia. apply C. lia.
      + intros m Hm. injection Hm as <-. reflexivity. }
  destruct (G 10%nat ltac:(lia)) as (dw' & prev' & E & L & O & I & C & _).
  exists dw', prev'. repeat split; try assumption; apply I; assumption.
Qed.

Lemma nav_keep_last_spec dw prev :
  length dw = 60%nat ->
  exists dw' prev',
    nav_keep_last (dw, prev) = (dw', prev')
    /\ length dw' = length dw
    /\ (forall j, (10 <= j)%nat -> dw' !!! j = dw !!! j)
    /\ (forall i, (i < 10)%nat -> dw' !!! i = dw !!! (50 + i)%nat).
Proof.
  intros Hlen. unfold nav_keep_last.
  change (N_DWRD_SBF * N_SBF)%nat with 50%nat. change N_DWRD_SBF with 10%nat.
  match goal with |- context [foldl ?f _ _] => set (F := f) end.
  assert (G : forall n, (n <= 10)%nat ->
            exists dw' prev',
              foldl F (dw, prev) (seq 0 n) = (dw', prev')
              /\ length dw' = length dw
              /\ (forall j, (n <= j)%nat -> dw' !!! j = dw !!! j)
              /\ (forall i, (i < n)%nat -> dw' !!! i = dw !!! (50 + i)%nat)).
  { induction n as [|n IH]; intros Hn.
    - exists dw, prev. cbn [seq foldl]. repeat split; intros; lia.
    - destruct (IH ltac:(lia)) as (dw1 & prev1 & E & L & O & I).
      rewrite seq_S, foldl_app, E. cbn [foldl Nat.add]. unfold F at 1.
      eexists _, _. split; [reflexivity|].
      split; [rewrite length_insert; exact L|]. split.
      + intros j Hj. rewrite list_lookup_total_insert_ne by lia. apply O. lia.
      + intros i Hi. destruct (decide (i = n)) as [->|Hne].
        * rewrite list_lookup_total_insert_eq by lia. apply O. lia.
        * rewrite list_lookup_total_insert_ne by lia. apply I. lia. }
  destruct (G 10%nat ltac:(lia)) as (dw' & prev' & E & L & O & I).
  exists dw', prev'. repeat split; assumption.
Qed.

(** The count of the hand-over word after [k] subframes. *)
Definition tow_after (k : nat) (tow : Z) : Z :=
  Nat.iter k (fun t => Parity.addw ulong_bits t 1) tow.

Lemma tow_after_small k tow :
  0 <= tow -> tow + Z.of_nat k < 2 ^ 32 -> tow_after k tow = tow + Z.of_nat k.
Proof.
  intros H0. induction k as [|k IH]; intros H.
  - change (tow_after 0 tow) with tow. lia.
  - change (tow_after (S k) tow) with (Parity.addw ulong_bits (tow_after k tow) 1).
    rewrite IH by lia. unfold Parity.addw.
    rewrite (wrap_small ulong_bits wide) by lia. lia.
Qed.

Lemma nav_frames_spec (rows : list (list Z)) wn n :
  (n <= 5)%nat ->
  forall tow dw prev, length dw = 60%nat ->
  exists tow' dw' prev',
    foldl (fun '(tow, st) isbf =>
             (Parity.addw ulong_bits tow 1,
              nav_subframe (rows !!! isbf) (isbf =? 0)%nat wn
                (Parity.addw ulong_bits tow 1) ((isbf + 1) * N_DWRD_SBF)%nat st))
          (tow, (dw, prev)) (seq 0 n) = (tow', (dw', prev'))
    /\ tow' = tow_after n tow
    /\ length dw' = 60%nat
    /\ (forall j, (j < 10)%nat -> dw' !!! j = dw !!! j)
    /\ (forall k i, (k < n)%nat -> (i < 10)%nat ->
          good_word i (dw' !!! (10 * S k + i)%nat))
    /\ (forall k i, (k < n)%nat -> (S i < 10)%nat ->
          dw' !!! (10 * S k + S i)%nat
          = nav_word ((rows !!! k) !!! S i) ((k =? 0)%nat && (S i =? 2)%nat) (S i) wn
              (tow_after (S k) tow) (dw' !!! (10 * S k + i)%nat)).
Proof.
  induction n as [|n IH]; intros Hn tow dw prev Hlen.
  - exists tow, dw, prev. cbn [seq foldl]. repeat split; try assumption; intros; lia.
  - destruct (IH ltac:(lia) tow dw prev Hlen) as (tow1 & dw1 & prev1 & E & T & L & O & I & C).
    rewrite seq_S, foldl_app, E. cbn [foldl Nat.add].
    change N_DWRD_SBF with 10%nat.
    destruct (nav_subframe_spec (rows !!! n) (n =? 0)%nat wn
                (Parity.addw ulong_bits tow1 1) ((n + 1) * 10)%nat dw1 prev1 ltac:(lia))
      as (dw2 & prev2 & E2 & L2 & O2 & I2 & C2).
    rewrite E2. eexists _, _, _. split; [reflexivity|].
    split; [rewrite T; reflexivity|].
    split; [lia|]. split; [|split].
    + intros j Hj. rewrite O2 by lia. apply O. exact Hj.
    + intros k i Hk Hi. destruct (decide (k = n)) as [->|Hne].
      * replace (10 * S n + i)%nat with ((n + 1) * 10 + i)%nat by lia.
        apply I2. exact Hi.
      * rewrite O2 by lia. apply I; lia.
    + intros k i Hk Hi. destruct (decide (k = n)) as [->|Hne].
      * replace (10 * S n + S i)%nat with ((n + 1) * 10 + S i)%nat by lia.
        replace (10 * S n + i)%nat with ((n + 1) * 10 + i)%nat by lia.
        rewrite (C2 i Hi), T. reflexivity.
      * rewrite !O2 by lia. apply C; lia.
Qed.

(** The reference time of the data bits: [g] moved to the start of a
    frame of 30 s. *)
Definition frame_start (g : gpstime_t) : gpstime_t :=
  {| week := week g;
     sec := (double_of_int (ulong (int_of_double (sec g + 0.5)%Q) / 30) * 30.0)%Q |}.

Lemma c_g0_generateNavMsg g c init : c_g0 (generateNavMsg g c init) = frame_start g.
Proof.
  unfold generateNavMsg. cbv zeta.
  destruct (foldl _ _ _) as [tow st]. reflexivity.
Qed.

Lemma sbf_generateNavMsg g c init : sbf (generateNavMsg g c init) = sbf c.
Proof.
  unfold generateNavMsg. cbv zeta.
  destruct (foldl _ _ _) as [tow st]. reflexivity.
Qed.

Lemma generateNavMsg_structure g c init :
  length (dwrd c) = 60%nat ->
  let d := dwrd (generateNavMsg g c init) in
  let wn := ulong (Z.rem (week (frame_start g)) 1024) in
  let tow0 := ulong (int_of_double (sec (frame_start g))) / 6 in
  length d = 60%nat
  /\ (forall k i, (k < 6)%nat -> (i < 10)%nat -> init = true \/ (1 <= k)%nat ->
        good_word i (d !!! (10 * k + i)%nat))
  /\ (init = false -> forall i, (i < 10)%nat -> d !!! i = dwrd c !!! (50 + i)%nat)
  /\ (forall k i, (k < 5)%nat -> (S i < 10)%nat ->
        d !!! (10 * S k + S i)%nat
        = nav_word ((sbf c !!! k) !!! S i) ((k =? 0)%nat && (S i =? 2)%nat) (S i) wn
            (tow_after (S k) tow0) (d !!! (10 * S k + i)%nat))
  /\ (init = true -> forall i, (S i < 10)%nat ->
        d !!! S i = nav_word ((sbf c !!! 4%nat) !!! S i) false (S i) wn tow0 (d !!! i)).
Proof.
  intros Hlen d wn tow0. unfold d, generateNavMsg. cbv zeta.
  cbn [sbf dwrd set_g0]. fold (frame_start g). fold wn. fold tow0.
  match goal with |- context [foldl ?f (_, ?st) (seq 0 N_SBF)] => set (st0 := st) end.
  change N_SBF with 5%nat.
  assert (S0 : exists dw0 prev0, st0 = (dw0, prev0) /\ length dw0 = 60%nat
               /\ (init = true -> forall i, (i < 10)%nat -> good_word i (dw0 !!! i))
               /\ (init = false -> forall i, (i < 10)%nat -> dw0 !!! i = dwrd c !!! (50 + i)%nat)
               /\ (init = true -> forall i, (S i < 10)%nat ->
                     dw0 !!! S i
                     = nav_word ((sbf c !!! 4%nat) !!! S i) false (S i) wn tow0 (dw0 !!! i))).
  { unfold st0. destruct init.
    - destruct (nav_subframe_spec (sbf c !!! 4%nat) false wn tow0 0 (dwrd c) 0 ltac:(lia))
        as (dw0 & prev0 & E & L & O & I & C).
      exists dw0, prev0. split; [exact E|]. split; [lia|]. split; [|split].
      + intros _ i Hi. apply (I i Hi).
      + discriminate.
      + intros _ i Hi. apply (C i Hi).
    - destruct (nav_keep_last_spec (dwrd c) 0 Hlen) as (dw0 & prev0 & E & L & O & I).
      exists dw0, prev0. split; [exact E|]. split; [lia|]. split; [|split].
      + discriminate.
      + intros _ i Hi. apply I, Hi.
      + discriminate. }
  clearbody st0. destruct S0 as (dw0 & prev0 & -> & L0 & G0 & K0 & C0).
  destruct (nav_frames_spec (sbf c) wn 5 ltac:(lia) tow0 dw0 prev0 L0)
    as (tow' & dw' & prev' & E & _ & L & O & I & C).
  match goal with |- context [foldl ?f ?a ?l] =>
    assert (E' : foldl f a l = (tow', (dw', prev'))) by exact E; rewrite E' end.
  cbn [fst dwrd set_dwrd].
  split; [exact L|]. split; [|split; [|split]].
  - intros k i Hk Hi Hinit. destruct k as [|k].
    + destruct Hinit as [Hinit|?]; [|lia].
      rewrite Nat.mul_0_r, Nat.add_0_l, O by exact Hi. apply G0; assumption.
    + apply I; lia.
  - intros Hinit i Hi. rewrite O by exact Hi. apply K0; assumption.
  - intros k i Hk Hi. apply C; assumption.
  - intros Hinit i Hi. rewrite !O by lia. apply C0; assumption.
Qed.

Lemma frame_start_spec g :
  (0 <= sec g)%Q -> (sec g < SECONDS_IN_WEEK)%Q ->
  let q := Qfloor (sec g + 0.5) / 30 in
  0 <= q <= 20160
  /\ (sec (frame_start g) == inject_Z (30 * q))%Q
  /\ (sec g - 29.5 < sec (frame_start g))%Q /\ (sec (frame_start g) <= sec g + 0.5)%Q.
Proof.
  intros H0 H1 q. unfold frame_start. cbn [sec].
  set (n := int_of_double (sec g + 0.5)%Q).
  assert (Hf : (0 <= sec g + 0.5)%Q) by lra.
  assert (En : n = Qfloor (sec g + 0.5))
    by (apply int_of_double_floor; change 0 with (Qfloor 0); apply Qfloor_resp_le, Hf).
  assert (Hn0 : 0 <= n) by (rewrite En; change 0 with (Qfloor 0); apply Qfloor_resp_le, Hf).
  pose proof (Qfloor_le (sec g + 0.5)) as F1. pose proof (Qlt_floor (sec g + 0.5)) as F2.
  rewrite <- En in F1, F2. rewrite inject_Z_plus in F2. change (inject_Z 1) with 1%Q in F2.
  assert (Hn1 : n < 604801).
  { assert (I : (inject_Z n < inject_Z 604801)%Q).
    { eapply Qle_lt_trans; [exact F1|]. unfold SECONDS_IN_WEEK, inject_Z in *. lra. }
    rewrite <- Zlt_Qlt in I. exact I. }
  assert (Eu : ulong n = n).
  { unfold ulong. apply (wrap_small ulong_bits wide). pows. lia. }
  rewrite Eu. unfold q. rewrite <- En.
  pose proof (Z.div_mod n 30 ltac:(lia)) as D. pose proof (Z.mod_pos_bound n 30 ltac:(lia)) as M.
  split; [split; [apply Z.div_pos; lia | apply Z.div_le_upper_bound; lia]|].
  assert (E30 : (double_of_int (n / 30) * 30.0 == inject_Z (30 * (n / 30)))%Q).
  { unfold double_of_int. rewrite inject_Z_mult. change (inject_Z 30) with 30%Q. ring. }
  split; [exact E30|]. rewrite E30.
  assert (A : (inject_Z (30 * (n / 30)) <= inject_Z n)%Q) by (rewrite <- Zle_Qle; lia).
  assert (B : (inject_Z n - 29 <= inject_Z (30 * (n / 30)))%Q).
  { change 29%Q with (inject_Z 29). unfold Qminus. rewrite <- inject_Z_opp, <- inject_Z_plus.
    rewrite <- Zle_Qle. lia. }
  split; lra.
Qed.

Lemma generateNavMsg_fields g c init (eph : ephem_t) (io : ionoutc_t) :
  (0 <= sec g)%Q -> (sec g < SECONDS_IN_WEEK)%Q -> 0 <= week g ->
  length (dwrd c) = 60%nat ->
  sbf c = Subframe.eph2sbf ulong_bits eph io ->
  let d := dwrd (generateNavMsg g c init) in
  let q := Qfloor (sec g + 0.5) / 30 in
  (forall k, (k < 6)%nat -> init = true \/ (1 <= k)%nat ->
     let how := received (d !!! (10 * k)%nat) (d !!! (10 * k + 1)%nat) in
     bits how 13 17 = 5 * q + Z.of_nat k
     /\ bits how 8 3 = if (k =? 0)%nat then 5 else Z.of_nat k)
  /\ bits (d !!! 12%nat) 20 10 = week g mod 1024.
Proof.
  intros H0 H1 Hw Hlen Hsbf d q.
  destruct (generateNavMsg_structure g c init Hlen) as (L & G & _ & C & C0).
  fold d in L, G, C, C0.
  destruct (frame_start_spec g H0 H1) as (Hq & Es & _). fold q in Hq, Es.
  destruct (eph2sbf_shape ulong_bits eph io wide) as (_ & R & W).
  rewrite <- Hsbf in R, W.
  set (wn := ulong (Z.rem (week (frame_start g)) 1024)) in *.
  set (tow0 := ulong (int_of_double (sec (frame_start g))) / 6) in *.
  assert (Et : tow0 = 5 * q).
  { unfold tow0. rewrite (int_of_double_inject _ (30 * q) Es).
    unfold ulong. rewrite (wrap_small ulong_bits wide) by (pows; lia).
    replace (30 * q) with (5 * q * 6) by lia. apply Z.div_mul. lia. }
  assert (Ew : wn = week g mod 1024).
  { unfold wn, frame_start. cbn [week]. rewrite Z.rem_mod_nonneg by lia.
    unfold ulong. apply (wrap_small ulong_bits wide).
    pose proof (Z.mod_pos_bound (week g) 1024 ltac:(lia)). pows. lia. }
  split.
  - intros k Hk Hinit how. destruct k as [|k].
    + destruct Hinit as [Hinit|?]; [|lia].
      pose proof (C0 Hinit 0%nat ltac:(lia)) as E.
      destruct (R 4%nat ltac:(lia)) as (_ & _ & E1 & _).
      change (Z.of_nat 4 + 1) with 5 in E1. rewrite E1 in E.
      unfold how. change (10 * 0 + 1)%nat with 1%nat. change (10 * 0)%nat with 0%nat.
      rewrite E.
      destruct (how_fields 5 tow0 wn (d !!! 0%nat) false ltac:(lia)) as [T I].
      rewrite (T eq_refl), I, Et. cbn [Nat.eqb]. split; [|reflexivity].
      rewrite Z.mod_small by (change (2 ^ 17) with 131072; lia). lia.
    + pose proof (C k 0%nat ltac:(lia) ltac:(lia)) as E.
      destruct (R k ltac:(lia)) as (_ & _ & E1 & _). rewrite E1 in E.
      rewrite andb_false_r in E.
      unfold how. replace (10 * S k)%nat with (10 * S k + 0)%nat by lia.
      replace (10 * S k + 0 + 1)%nat with (10 * S k + 1)%nat by lia.
      rewrite E.
      destruct (how_fields (Z.of_nat k + 1) (tow_after (S k) tow0) wn
                  (d !!! (10 * S k + 0)%nat) false ltac:(lia)) as [T I].
      rewrite (T eq_refl), I. cbn [Nat.eqb].
      rewrite tow_after_small by (pows; lia).
      split; [|lia].
      rewrite Z.mod_small by (change (2 ^ 17) with 131072; lia). lia.
  - pose proof (C 0%nat 1%nat ltac:(lia) ltac:(lia)) as E.
    change (10 * 1 + 2)%nat with 12%nat in E. change (10 * 1 + 1)%nat with 11%nat in E.
    cbn [Nat.eqb andb] in E. rewrite E.
    destruct (G 1%nat 1%nat ltac:(lia) ltac:(lia) ltac:(right; lia)) as [_ Z1].
    change (10 * 1 + 1)%nat with 11%nat in Z1.
    destruct (Z1 ltac:(left; reflexivity)) as [_ Z0].
    destruct (R 0%nat ltac:(lia)) as (_ & _ & _ & S2).
    destruct (S2 2%nat ltac:(lia)) as [[S20 _] _].
    rewrite wn_field by first [exact Z0 | split; [exact S20 | exact W]].
    rewrite Ew. change (2 ^ 10) with 1024. apply Z.mod_mod. lia.
Qed.

(** X9: [generateNavMsg] leaves 60 words of 30 bits in [dwrd]; the
    second and the last word of every subframe end in two zero bits;
    without [init] the first ten words are the last ten of the message
    before, and the subframe sources are kept. *)
Theorem generateNavMsg_words (g : gpstime_t) (c : channel_t) (init : bool) :
  length (dwrd c) = 60%nat ->
  let c' := generateNavMsg g c init in
  length (dwrd c') = 60%nat
  /\ (forall k i, (k < 6)%nat -> (i < 10)%nat -> init = true \/ (1 <= k)%nat ->
        good_word i (dwrd c' !!! (10 * k + i)%nat))
  /\ (init = false -> forall i, (i < 10)%nat -> dwrd c' !!! i = dwrd c !!! (50 + i)%nat)
  /\ sbf c' = sbf c.
Proof.
  intros Hlen c'.
  destruct (generateNavMsg_structure g c init Hlen) as (L & G & K & _).
  split; [exact L|]. split; [exact G|]. split; [exact K|].
  apply sbf_generateNavMsg.
Qed.

(** X10: the reference time of the data bits that [generateNavMsg] stores
    is in the week of [g], on a multiple of 30 s, at most 0.5 s after
    [g] and less than 29.5 s before it. *)
Theorem generateNavMsg_frame_start (g : gpstime_t) (c : channel_t) (init : bool) :
  (0 <= sec g)%Q -> (sec g < SECONDS_IN_WEEK)%Q ->
  let g0 := c_g0 (generateNavMsg g c init) in
  week g0 = week g
  /\ (exists q : Z, 0 <= q /\ (sec g0 == inject_Z (30 * q))%Q)
  /\ (sec g - 29.5 < sec g0)%Q /\ (sec g0 <= sec g + 0.5)%Q.
Proof.
  intros H0 H1 g0. unfold g0. rewrite c_g0_generateNavMsg.
  destruct (frame_start_spec g H0 H1) as (Hq & Es & B1 & B2).
  split; [reflexivity|]. split; [|split; assumption].
  eexists. split; [apply Hq | exact Es].
Qed.

(** X11: in the message that [generateNavMsg] builds from the subframes of
    [eph2sbf], the hand-over word of every subframe carries, as a
    receiver reads it, the count of 6 s periods at the start of the next
    subframe and the subframe number, and the third word of subframe 1
    carries the week number modulo 1024. *)
Theorem generateNavMsg_time_fields (g : gpstime_t) (c : channel_t) (init : bool)
    (eph : ephem_t) (io : ionoutc_t) :
  (0 <= sec g)%Q -> (sec g < SECONDS_IN_WEEK)%Q -> 0 <= week g ->
  length (dwrd c) = 60%nat ->
  sbf c = Subframe.eph2sbf ulong_bits eph io ->
  let d := dwrd (generateNavMsg g c init) in
  let q := Qfloor (sec g + 0.5) / 30 in
  (forall k, (k < 6)%nat -> init = true \/ (1 <= k)%nat ->
     let how := received (d !!! (10 * k)%nat) (d !!! (10 * k + 1)%nat) in
     bits how 13 17 = 5 * q + Z.of_nat k
     /\ bits how 8 3 = if (k =? 0)%nat then 5 else Z.of_nat k)
  /\ bits (d !!! 12%nat) 20 10 = week g mod 1024.
Proof. exact (generateNavMsg_fields g c init eph io). Qed.

End Nav.

(** A channel with 60 message words and the subframes of [eph2sbf]. *)
Definition sample_channel : channel_t :=
  set_sbf (Subframe.eph2sbf 64 zero_ephem EngineFacts.sample_ionoutc)
    (set_dwrd (replicate 60 0) zero_channel).

Lemma generateNavMsg_words_witness :
  32 <= ulong_bits (Env := EngineFacts.sample_env)
  /\ length (dwrd sample_channel) = 60%nat
  /\ let c' := generateNavMsg (env := EngineFacts.sample_env)
                 (mk_gpstime 1823 100.0) sample_channel false in
     length (dwrd c') = 60%nat
     /\ (forall k i, (k < 6)%nat -> (i < 10)%nat -> false = true \/ (1 <= k)%nat ->
           good_word i (dwrd c' !!! (10 * k + i)%nat))
     /\ (false = false -> forall i, (i < 10)%nat ->
           dwrd c' !!! i = dwrd sample_channel !!! (50 + i)%nat)
     /\ sbf c' = sbf sample_channel.
Proof.
  assert (W : 32 <= ulong_bits (Env := EngineFacts.sample_env)) by by_computation.
  assert (L : length (dwrd sample_channel) = 60%nat) by reflexivity.
  split; [exact W|]. split; [exact L|].
  exact (generateNavMsg_words (env := EngineFacts.sample_env) W
           (mk_gpstime 1823 100.0) sample_channel false L).
Defined.

Lemma generateNavMsg_frame_start_witness :
  32 <= ulong_bits (Env := EngineFacts.sample_env)
  /\ (0 <= sec (mk_gpstime 1823 100.0))%Q
  /\ (sec (mk_gpstime 1823 100.0) < SECONDS_IN_WEEK)%Q
  /\ let g0 := c_g0 (generateNavMsg (env := EngineFacts.sample_env)
                       (mk_gpstime 1823 100.0) sample_channel true) in
     week g0 = week (mk_gpstime 1823 100.0)
     /\ (exists q : Z, 0 <= q /\ (sec g0 == inject_Z (30 * q))%Q)
     /\ (sec (mk_gpstime 1823 100.0) - 29.5 < sec g0)%Q
     /\ (sec g0 <= sec (mk_gpstime 1823 100.0) + 0.5)%Q.
Proof.
  assert (W : 32 <= ulong_bits (Env := EngineFacts.sample_env)) by by_computation.
  assert (H0 : (0 <= sec (mk_gpstime 1823 100.0))%Q) by by_computation.
  assert (H1 : (sec (mk_gpstime 1823 100.0) < SECONDS_IN_WEEK)%Q) by by_computation.
  split; [exact W|]. split; [exact H0|]. split; [exact H1|].
  exact (generateNavMsg_frame_start (env := EngineFacts.sample_env) W
           (mk_gpstime 1823 100.0) sample_channel true H0 H1).
Defined.

Lemma generateNavMsg_time_fields_witness :
  32 <= ulong_bits (Env := EngineFacts.sample_env)
  /\ (0 <= sec (mk_gpstime 1823 100.0))%Q
  /\ (sec (mk_gpstime 1823 100.0) < SECONDS_IN_WEEK)%Q
  /\ 0 <= week (mk_gpstime 1823 100.0)
  /\ length (dwrd sample_channel) = 60%nat
  /\ sbf sample_channel
     = Subframe.eph2sbf (ulong_bits (Env := EngineFacts.sample_env))
         zero_ephem EngineFacts.sample_ionoutc
  /\ let d := dwrd (generateNavMsg (env := EngineFacts.sample_env)
                      (mk_gpstime 1823 100.0) sample_channel true) in
     let q := Qfloor (sec (mk_gpstime 1823 100.0) + 0.5) / 30 in
     (forall k, (k < 6)%nat -> true = true \/ (1 <= k)%nat ->
        let how := received (d !!! (10 * k)%nat) (d !!! (10 * k + 1)%nat) in
        bits how 13 17 = 5 * q + Z.of_nat k
        /\ bits how 8 3 = if (k =? 0)%nat then 5 else Z.of_nat k)
     /\ bits (d !!! 12%nat) 20 10 = week (mk_gpstime 1823 100.0) mod 1024.
Proof.
  assert (W : 32 <= ulong_bits (Env := EngineFacts.sample_env)) by by_computation.
  assert (H0 : (0 <= sec (mk_gpstime 1823 100.0))%Q) by by_computation.
  assert (H1 : (sec (mk_gpstime 1823 100.0) < SECONDS_IN_WEEK)%Q) by by_computation.
  assert (H2 : 0 <= week (mk_gpstime 1823 100.0)) by by_computation.
  assert (L : length (dwrd sample_channel) = 60%nat) by reflexivity.
  assert (S : sbf sample_channel
              = Subframe.eph2sbf (ulong_bits (Env := EngineFacts.sample_env))
                  zero_ephem EngineFacts.sample_ionoutc) by reflexivity.
  split; [exact W|]. split; [exact H0|]. split; [exact H1|]. split; [exact H2|].
  split; [exact L|]. split; [exact S|].
  exact (generateNavMsg_time_fields (env := EngineFacts.sample_env) W
           (mk_gpstime 1823 100.0) sample_channel true zero_ephem
           EngineFacts.sample_ionoutc H0 H1 H2 L S).
Defined.

End NavMsgFacts.

(** ** Channel allocation and visibility *)

Module AllocationFacts.
Import GpsTime Engine EngineFacts.

Section Alloc.
Context {env : Env}.
Variables (eph : list ephem_t) (io : ionoutc_t) (g : gpstime_t) (xyz : vec3).

(** The test of [allocateChannel] on satellite [sv]:
    [checkSatVisibility(eph[sv], grx, xyz, 0.0, azel) == 1]. *)
Definition visible (sv : nat) : bool :=
  fst (checkSatVisibility (eph !!! sv) g xyz 0.0 (0, 0)%Q) =? 1.

Lemma visible_azel sv azel :
  (fst (checkSatVisibility (eph !!! sv) g xyz 0.0 azel) =? 1) = visible sv.
Proof.
  unfold visible, checkSatVisibility.
  destruct (negb (e_vflg (eph !!! sv))); [reflexivity|].
  destruct (satpos (eph !!! sv) g) as [[pos vel] clk].
  destruct (Qltb _ _); reflexivity.
Qed.

(** An invalid record is never visible. *)
Lemma visible_valid sv : visible sv = true -> e_vflg (eph !!! sv) = true.
Proof.
  unfold visible, checkSatVisibility.
  destruct (e_vflg (eph !!! sv)); [reflexivity|]. cbn. discriminate.
Qed.

(** What one turn of the loop over [sv] does to the two tables. *)
Inductive sv_step (s : sched_t) (sv : nat) : sched_t -> Prop :=
| sv_kept :
    (visible sv = true \/ allocatedSat s !!! sv < 0) -> sv_step s sv s
| sv_assigned i c' :
    visible sv = true -> allocatedSat s !!! sv = -1 ->
    (i < MAX_CHAN)%nat -> prn (chan s !!! i) = 0 ->
    sv_step s sv {| chan := <[i := c']> (chan s);
                    allocatedSat := <[sv := Z.of_nat i]> (allocatedSat s) |}
| sv_released :
    visible sv = false -> 0 <= allocatedSat s !!! sv ->
    sv_step s sv
      {| chan := <[Z.to_nat (allocatedSat s !!! sv) :=
                     set_prn 0 (chan s !!! Z.to_nat (allocatedSat s !!! sv))]> (chan s);
         allocatedSat := <[sv := -1]> (allocatedSat s) |}.

Lemma allocate_sv_step nsat azel s sv :
  let st' := allocate_sv eph io g xyz (nsat, azel, s) sv in
  fst (fst st') = nsat + (if visible sv then 1 else 0)
  /\ sv_step s sv (snd st').
Proof.
  cbv zeta. unfold allocate_sv.
  pose proof (visible_azel sv azel) as V.
  destruct (checkSatVisibility (eph !!! sv) g xyz 0.0 azel) as [vis azel'].
  cbn [fst] in V. rewrite V.
  destruct (visible sv) eqn:Ev.
  - destruct (Z.eqb_spec (allocatedSat s !!! sv) (-1)) as [Ea|Ea].
    + destruct (Nat.ltb_spec (first_idle MAX_CHAN 0 (chan s)) MAX_CHAN) as [Ei|Ei];
        cbn [fst snd].
      * split; [reflexivity|]. apply sv_assigned; try assumption.
        apply (first_idle_spec MAX_CHAN 0 (chan s)). lia.
      * split; [reflexivity|]. apply sv_kept. left. exact Ev.
    + cbn [fst snd]. split; [reflexivity|]. apply sv_kept. left. exact Ev.
  - destruct (Z.leb_spec 0 (allocatedSat s !!! sv)) as [Ea|Ea]; cbn [fst snd].
    + split; [lia|]. apply sv_released; assumption.
    + split; [lia|]. apply sv_kept. right. exact Ea.
Qed.

(** The entry of another satellite is not written. *)
Lemma sv_step_other s sv s' sv' :
  sv_step s sv s' -> sv' <> sv -> allocatedSat s' !!! sv' = allocatedSat s !!! sv'.
Proof.
  intros H Hne. destruct H; cbn [allocatedSat]; [reflexivity| |];
    apply list_lookup_total_insert_ne; congruence.
Qed.

(** After its turn a satellite holds a channel only if it is visible. *)
Lemma sv_step_self s sv s' :
  consistent s -> (sv < MAX_SAT)%nat -> sv_step s sv s' ->
  0 <= allocatedSat s' !!! sv -> visible sv = true.
Proof.
  intros Hs Hsv H Hheld. destruct H as [[V|N] | i c' V _ _ _ | V _]; try assumption.
  - lia.
  - cbn [allocatedSat] in Hheld.
    rewrite list_lookup_total_insert_eq in Hheld by (rewrite (sat_length s Hs); exact Hsv).
    lia.
Qed.

(** A satellite that holds channel [i0] and is visible keeps it through
    the turn of any satellite, and the channel is not written. *)
Lemma sv_step_keeps s sv s' sv0 i0 :
  consistent s -> (sv < MAX_SAT)%nat -> sv_step s sv s' ->
  visible sv0 = true -> allocatedSat s !! sv0 = Some (Z.of_nat i0) ->
  allocatedSat s' !! sv0 = Some (Z.of_nat i0) /\ chan s' !!! i0 = chan s !!! i0.
Proof.
  intros Hs Hsv H V0 A0.
  pose proof (sat_length s Hs) as L2.
  assert (T0 : allocatedSat s !!! sv0 = Z.of_nat i0)
    by (apply list_lookup_total_correct; exact A0).
  destruct (sat_to_chan s Hs sv0 _ A0) as [?|[R0 P0]]; [lia|].
  rewrite Nat2Z.id in P0.
  destruct H as [_ | i c' V E Hi Hidle | V Hheld]; cbn [chan allocatedSat].
  - split; [exact A0 | reflexivity].
  - assert (sv <> sv0) by (intros ->; lia).
    assert (i <> i0) by (intros ->; lia).
    split; [rewrite list_lookup_insert_ne by assumption; exact A0|].
    apply list_lookup_total_insert_ne. assumption.
  - assert (Hne : sv <> sv0) by (intros ->; congruence).
    split; [rewrite list_lookup_insert_ne by assumption; exact A0|].
    apply list_lookup_total_insert_ne.
    intros Hj. apply Hne.
    apply (consistent_injective s sv sv0 (Z.of_nat i0) Hs ltac:(lia)); [|exact A0].
    rewrite <- Hj, Z2Nat.id by exact Hheld.
    apply list_lookup_lookup_total_lt. rewrite L2. exact Hsv.
Qed.

Lemma sv_step_consistent s sv nsat azel :
  consistent s -> (sv < MAX_SAT)%nat ->
  consistent (snd (allocate_sv eph io g xyz (nsat, azel, s) sv)).
Proof.
  intros Hs Hsv.
  apply (consistent_allocate_sv eph io g xyz (nsat, azel, s) sv Hsv Hs).
Qed.

(** The number of visible satellites among the first [n]. *)
Definition visible_count (n : nat) : nat :=
  length (filter (fun sv => visible sv = true) (seq 0 n)).

Lemma allocate_fold_spec s n :
  consistent s -> (n <= MAX_SAT)%nat ->
  let st := foldl (allocate_sv eph io g xyz) (0, (0, 0)%Q, s) (seq 0 n) in
  consistent (snd st)
  /\ fst (fst st) = Z.of_nat (visible_count n)
  /\ (forall sv, (sv < n)%nat -> 0 <= allocatedSat (snd st) !!! sv -> visible sv = true)
  /\ (forall sv i, visible sv = true -> allocatedSat s !! sv = Some (Z.of_nat i) ->
        allocatedSat (snd st) !! sv = Some (Z.of_nat i)
        /\ chan (snd st) !!! i = chan s !!! i).
Proof.
  intros Hs. induction n as [|n IH]; intros Hn; cbv zeta.
  - cbn [seq foldl fst snd]. split; [exact Hs|]. split; [reflexivity|].
    split; [intros; lia|]. intros sv i _ A. split; [exact A | reflexivity].
  - destruct (IH ltac:(lia)) as (C & N & V & K). cbv zeta in C, N, V, K.
    rewrite seq_S, foldl_app. cbn [foldl Nat.add].
    destruct (foldl (allocate_sv eph io g xyz) (0, (0, 0)%Q, s) (seq 0 n))
      as [[nsat azel] s1].
    cbn [fst snd] in C, N, V, K.
    destruct (allocate_sv_step nsat azel s1 n) as [N' St]. cbv zeta in N', St.
    pose proof (sv_step_consistent s1 n nsat azel C ltac:(lia)) as C'.
    split; [exact C'|]. split; [|split].
    + rewrite N', N. unfold visible_count.
      rewrite seq_S, filter_app, length_app. cbn [Nat.add].
      destruct (visible n) eqn:E.
      * rewrite filter_cons_True by exact E. cbn [filter length list_filter]. lia.
      * rewrite filter_cons_False by (rewrite E; discriminate).
        cbn [filter length list_filter]. lia.
    + intros sv Hsv Hheld. destruct (decide (sv = n)) as [->|Hne].
      * apply (sv_step_self s1 n _ C ltac:(lia) St Hheld).
      * rewrite (sv_step_other s1 n _ sv St Hne) in Hheld. apply V; [lia | exact Hheld].
    + intros sv i Vs A. destruct (K sv i Vs A) as [A1 E1].
      destruct (sv_step_keeps s1 n _ sv i C ltac:(lia) St Vs A1) as [A2 E2].
      split; [exact A2 | rewrite E2; exact E1].
Qed.

Lemma allocateChannel_spec elv s :
  consistent s ->
  let r := allocateChannel eph io g xyz elv s in
  fst r = Z.of_nat (visible_count MAX_SAT)
  /\ (forall sv, (sv < MAX_SAT)%nat ->
        0 <= allocatedSat (snd r) !!! sv -> visible sv = true)
  /\ (forall sv i, visible sv = true -> allocatedSat s !! sv = Some (Z.of_nat i) ->
        allocatedSat (snd r) !! sv = Some (Z.of_nat i)
        /\ chan (snd r) !!! i = chan s !!! i).
Proof.
  intros Hs r.
  destruct (allocate_fold_spec s MAX_SAT Hs ltac:(lia)) as (_ & N & V & K).
  cbv zeta in N, V, K. unfold r, allocateChannel.
  destruct (foldl (allocate_sv eph io g xyz) (0, (0, 0)%Q, s) (seq 0 MAX_SAT))
    as [[nsat azel] s1].
  cbn [fst snd] in *. split; [exact N|]. split; [exact V | exact K].
Qed.

(** X12: after [allocateChannel], every satellite that holds a channel is
    visible at the reception time (in particular its ephemeris is
    valid), and the value returned is the number of visible satellites
    among the 32. *)
Theorem allocateChannel_only_visible (elv : Q) (s : sched_t) :
  reachable s ->
  let r := allocateChannel eph io g xyz elv s in
  (forall sv, (sv < MAX_SAT)%nat -> 0 <= allocatedSat (snd r) !!! sv ->
     visible sv = true /\ e_vflg (eph !!! sv) = true)
  /\ fst r = Z.of_nat (visible_count MAX_SAT)
  /\ 0 <= fst r <= 32.
Proof.
  intros Hr r. pose proof (reachable_consistent s Hr) as Hs.
  destruct (allocateChannel_spec elv s Hs) as (N & V & _). fold r in N, V.
  split; [|split; [exact N|]].
  - intros sv Hsv Hheld. pose proof (V sv Hsv Hheld) as E.
    split; [exact E | apply visible_valid, E].
  - rewrite N. unfold visible_count.
    pose proof (length_filter (fun sv => visible sv = true) (seq 0 MAX_SAT)) as B.
    rewrite length_seq in B. unfold MAX_SAT in *. lia.
Qed.

(** X13: a satellite that holds a channel before [allocateChannel] and is
    visible keeps the same channel, and [allocateChannel] writes no field
    of that channel. *)
Theorem allocateChannel_keeps_visible (elv : Q) (s : sched_t) (sv i : nat) :
  reachable s ->
  visible sv = true -> allocatedSat s !! sv = Some (Z.of_nat i) ->
  let r := allocateChannel eph io g xyz elv s in
  allocatedSat (snd r) !! sv = Some (Z.of_nat i)
  /\ chan (snd r) !!! i = chan s !!! i.
Proof.
  intros Hr V A r. pose proof (reachable_consistent s Hr) as Hs.
  destruct (allocateChannel_spec elv s Hs) as (_ & _ & K).
  apply K; assumption.
Qed.

End Alloc.

Lemma allocateChannel_only_visible_witness :
  reachable (env := sample_env) sample_allocated
  /\ let r := allocateChannel (env := sample_env) sample_eph sample_ionoutc sample_grx
               sample_xyz 0 sample_allocated in
     (forall sv, (sv < MAX_SAT)%nat -> 0 <= allocatedSat (snd r) !!! sv ->
        visible (env := sample_env) sample_eph sample_grx sample_xyz sv = true
        /\ e_vflg (sample_eph !!! sv) = true)
     /\ fst r = Z.of_nat (visible_count (env := sample_env) sample_eph sample_grx
                            sample_xyz MAX_SAT)
     /\ 0 <= fst r <= 32.
Proof.
  split; [exact sample_allocated_reachable|].
  exact (allocateChannel_only_visible (env := sample_env) sample_eph sample_ionoutc
           sample_grx sample_xyz 0 sample_allocated sample_allocated_reachable).
Defined.

Lemma allocateChannel_keeps_visible_witness :
  reachable (env := sample_env) sample_allocated
  /\ visible (env := sample_env) sample_eph sample_grx sample_xyz 0 = true
  /\ allocatedSat sample_allocated !! 0%nat = Some (Z.of_nat 0)
  /\ let r := allocateChannel (env := sample_env) sample_eph sample_ionoutc sample_grx
               sample_xyz 0 sample_allocated in
     allocatedSat (snd r) !! 0%nat = Some (Z.of_nat 0)
     /\ chan (snd r) !!! 0%nat = chan sample_allocated !!! 0%nat.
Proof.
  assert (V : visible (env := sample_env) sample_eph sample_grx sample_xyz 0 = true)
    by (vm_compute; reflexivity).
  assert (A : allocatedSat sample_allocated !! 0%nat = Some (Z.of_nat 0))
    by (vm_compute; reflexivity).
  split; [exact sample_allocated_reachable|]. split; [exact V|]. split; [exact A|].
  exact (allocateChannel_keeps_visible (env := sample_env) sample_eph sample_ionoutc
           sample_grx sample_xyz 0 sample_allocated 0 0 sample_allocated_reachable V A).
Defined.

End AllocationFacts.

(** ** The C/A code table of an allocated channel *)

Module CodeTableFacts.
Import GpsTime Engine EngineFacts.

Section Codes.
Context {env : Env}.

(** Every channel has a table of 1023 chips, and a channel with a PRN
    has a PRN from 1 to 32 and the chips of that PRN. *)
Definition coded (ch : list channel_t) : Prop :=
  forall i c, ch !! i = Some c ->
    length (ca c) = 1023%nat
    /\ (prn c <> 0 -> 1 <= prn c <= 32 /\ ca c = CACode.ca_chips (prn c)).

Lemma coded_fields ch ch' :
  prn <$> ch' = prn <$> ch -> ca <$> ch' = ca <$> ch -> coded ch -> coded ch'.
Proof.
  intros P C H i c' Hc'.
  assert (Hp : (prn <$> ch) !! i = Some (prn c'))
    by (rewrite <- P, list_lookup_fmap, Hc'; reflexivity).
  assert (Hca : (ca <$> ch) !! i = Some (ca c'))
    by (rewrite <- C, list_lookup_fmap, Hc'; reflexivity).
  rewrite list_lookup_fmap in Hp. rewrite list_lookup_fmap in Hca.
  destruct (ch !! i) as [c|] eqn:Hc; [|discriminate Hp].
  cbn in Hp, Hca. injection Hp as Hp. injection Hca as Hca.
  rewrite <- Hp, <- Hca. exact (H i c Hc).
Qed.

Lemma coded_insert ch i c :
  coded ch ->
  length (ca c) = 1023%nat ->
  (prn c <> 0 -> 1 <= prn c <= 32 /\ ca c = CACode.ca_chips (prn c)) ->
  coded (<[i := c]> ch).
Proof.
  intros H L P j c' Hj.
  destruct (decide (i = j)) as [->|Hne].
  - destruct (decide (j < length ch)%nat) as [Hlt|Hge].
    + rewrite list_lookup_insert_eq in Hj by exact Hlt.
      injection Hj as <-. split; assumption.
    + rewrite list_insert_ge in Hj by lia. exact (H j c' Hj).
  - rewrite list_lookup_insert_ne in Hj by exact Hne. exact (H j c' Hj).
Qed.

Lemma coded_lookup_total ch i :
  coded ch -> (i < length ch)%nat -> length (ca (ch !!! i)) = 1023%nat.
Proof.
  intros H Hi.
  exact (proj1 (H i _ (list_lookup_lookup_total_lt ch i Hi))).
Qed.

Lemma coded_allocate_sv eph io g xyz st sv :
  (sv < MAX_SAT)%nat -> coded (chan (snd st)) ->
  coded (chan (snd (allocate_sv eph io g xyz st sv))).
Proof.
  destruct st as [[nsat azel] s]. cbn [snd]. intros Hsv H.
  unfold allocate_sv.
  destruct (checkSatVisibility _ _ _ _ _) as [vis azel'].
  destruct (vis =? 1).
  - destruct (allocatedSat s !!! sv =? -1); [|exact H].
    destruct (first_idle MAX_CHAN 0 (chan s) <? MAX_CHAN)%nat; [|exact H].
    cbn [snd chan]. set (i0 := first_idle MAX_CHAN 0 (chan s)).
    destruct (decide (i0 < length (chan s))%nat) as [Hi|Hi];
      [|rewrite list_insert_ge by lia; exact H].
    assert (V : CACodeFacts.valid_prn (Z.of_nat sv + 1))
      by (unfold CACodeFacts.valid_prn, MAX_SAT in *; lia).
    assert (E : ca (init_channel (eph !!! sv) io g xyz sv azel' (chan s !!! i0))
                = CACode.ca_chips (Z.of_nat sv + 1)).
    { rewrite ca_init_channel. apply CACodeFacts.codegen_valid; [exact V|].
      apply coded_lookup_total; assumption. }
    apply coded_insert; [exact H | |].
    + rewrite E. apply CACodeFacts.ca_chips_length, V.
    + intros _. rewrite prn_init_channel. split; [exact V | exact E].
  - destruct (0 <=? allocatedSat s !!! sv); [|exact H].
    cbn [snd chan]. set (a := Z.to_nat (allocatedSat s !!! sv)).
    destruct (decide (a < length (chan s))%nat) as [Hi|Hi];
      [|rewrite list_insert_ge by lia; exact H].
    apply coded_insert; [exact H | |].
    + cbn [set_prn ca]. apply coded_lookup_total; assumption.
    + cbn [set_prn prn]. intros C. contradiction.
Qed.

Lemma coded_allocateChannel eph io g xyz elv s :
  coded (chan s) -> coded (chan (snd (allocateChannel eph io g xyz elv s))).
Proof.
  rewrite allocateChannel_fold.
  change s with (snd (0, (0, 0)%Q, s)) at 1.
  generalize (0, (0, 0)%Q, s). pose proof (seq_below MAX_SAT) as Hall.
  induction Hall as [|sv svs Hsv _ IH]; intros st H; cbn [foldl]; [exact H|].
  apply IH, coded_allocate_sv; assumption.
Qed.

Lemma coded_clear ch :
  Forall (fun c => length (ca c) = 1023%nat) ch -> coded (chan (clear_tables ch)).
Proof.
  intros F i c Hc. cbn [clear_tables chan] in Hc.
  rewrite list_lookup_fmap in Hc.
  destruct (ch !! i) as [c0|] eqn:E; [|discriminate Hc].
  cbn in Hc. injection Hc as <-. cbn [set_prn ca prn].
  split; [|intros C; contradiction].
  rewrite Forall_lookup in F. exact (F i c0 E).
Qed.

Lemma coded_loop_entry sc g0 ieph0 ch :
  Forall (fun c => length (ca c) = 1023%nat) ch ->
  coded (chan (tables (loop_entry sc g0 ieph0 ch))).
Proof.
  intros F. unfold loop_entry. cbv zeta.
  destruct (allocateChannel _ _ _ _ _ _) as [n s'] eqn:E. cbn [tables].
  change s' with (snd (n, s')). rewrite <- E.
  apply coded_allocateChannel, coded_clear, F.
Qed.

Section Run.

Variables (rev : revision) (sc : scenario) (head : sim_t -> list channel_t).

(** The first part of a turn writes neither a PRN nor a code table. *)
Hypothesis head_prn : forall st, prn <$> head st = prn <$> chan (tables st).
Hypothesis head_ca : forall st, ca <$> head st = ca <$> chan (tables st).

Lemma coded_loop_body st :
  coded (chan (tables st)) -> coded (chan (tables (loop_body rev sc head st))).
Proof.
  intros H. unfold loop_body, loop_tail. cbv zeta. rewrite tables_advance.
  cbn [grx].
  set (st1 := {| grx := grx st; ieph := ieph st; iumd := iumd st;
                 tables := {| chan := head st;
                              allocatedSat := allocatedSat (tables st) |} |}).
  assert (H1 : coded (chan (tables st1)))
    by (apply (coded_fields (chan (tables st))); [apply head_prn | apply head_ca | exact H]).
  destruct (maintenance_due rev (grx st)); [|exact H1].
  destruct (maintenance_tables sc st1) as [ch [eph [xyz [P [C [E _]]]]]].
  rewrite E. apply coded_allocateChannel. cbn [chan].
  apply (coded_fields (chan (tables st1))); assumption.
Qed.

Lemma coded_run n st :
  coded (chan (tables st)) -> coded (chan (tables (run rev sc head n st))).
Proof.
  intros H. induction n as [|n IH]; cbn [run]; [exact H|].
  apply coded_loop_body, IH.
Qed.

(** X21: if every channel has a table of 1023 chips when [main] clears
    the channels, and the first part of a turn of the main loop writes
    no PRN and no code table, then after any number of turns every
    channel with a PRN has a PRN from 1 to 32 and its table holds the
    chips that [codegen] writes for that PRN: 1023 bits, 512 of them
    ones. *)
Theorem run_channel_codes (g0 : gpstime_t) (ieph0 : nat) (ch : list channel_t)
    (n i : nat) (c : channel_t) :
  Forall (fun c => length (ca c) = 1023%nat) ch ->
  chan (tables (run rev sc head n (loop_entry sc g0 ieph0 ch))) !! i = Some c ->
  prn c <> 0 ->
  1 <= prn c <= 32
  /\ (forall ca0, length ca0 = 1023%nat -> ca c = CACode.codegen ca0 (prn c))
  /\ length (ca c) = 1023%nat
  /\ Forall (fun x => x = 0 \/ x = 1) (ca c)
  /\ CACode.count_of 1 (ca c) = 512%nat.
Proof.
  intros F Hc Hp.
  pose proof (coded_run n _ (coded_loop_entry sc g0 ieph0 ch F) i c Hc) as [L H].
  destruct (H Hp) as [R E].
  split; [exact R|]. split; [|split; [exact L|]].
  - intros ca0 L0. rewrite E. symmetry.
    apply CACodeFacts.codegen_valid; assumption.
  - rewrite E. destruct (CACodeFacts.ca_chips_balance (prn c) R) as (B & O & _).
    split; assumption.
Qed.

End Run.
End Codes.

(** Twelve channels with blank tables, satellite 0 in view, and the
    tables after the first turn of the loop. *)
Definition blank_channel : channel_t := set_ca (replicate 1023 0) zero_channel.

Definition code_scenario : scenario :=
  mk_scenario (replicate 13 sample_eph) sample_ionoutc
              [sample_xyz] true 1 0.

Definition code_head (st : sim_t) : list channel_t := chan (tables st).

Definition code_tables : sched_t :=
  tables (run (env := sample_env) Reference code_scenario code_head 1
            (loop_entry (env := sample_env) code_scenario (mk_gpstime 1823 0) 0
               (replicate 12 blank_channel))).

Lemma run_channel_codes_witness :
  let c := chan code_tables !!! 0%nat in
  prn c <> 0
  /\ 1 <= prn c <= 32
  /\ (forall ca0, length ca0 = 1023%nat -> ca c = CACode.codegen ca0 (prn c))
  /\ length (ca c) = 1023%nat
  /\ Forall (fun x => x = 0 \/ x = 1) (ca c)
  /\ CACode.count_of 1 (ca c) = 512%nat.
Proof.
  assert (F : Forall (fun c => length (ca c) = 1023%nat) (replicate 12 blank_channel))
    by (apply Forall_replicate; reflexivity).
  assert (Hc : chan code_tables !! 0%nat = Some (chan code_tables !!! 0%nat))
    by (vm_compute; reflexivity).
  assert (Hp : prn (chan code_tables !!! 0%nat) <> 0)
    by (vm_compute; discriminate).
  split; [exact Hp|].
  exact (run_channel_codes (env := sample_env) Reference code_scenario code_head
           (fun st => eq_refl) (fun st => eq_refl)
           (mk_gpstime 1823 0) 0 (replicate 12 blank_channel) 1 0
           (chan code_tables !!! 0%nat) F Hc Hp).
Defined.

End CodeTableFacts.

(** ** RINEX text *)

Module RinexTextFacts.
Import Engine RinexText.

(** Position [i] is reached by the loop: in the reference revision no
    NUL stands at or before it. *)
Definition reached (rev : revision) (str : list Z) (i : nat) : Prop :=
  forall j, (j <= i)%nat -> stops rev (str !!! j) = false.

(** Position [j] holds different characters in the two buffers. *)
Definition changed (a b : list Z) (j : nat) : bool :=
  negb (a !!! j =? b !!! j).

(** The number of positions among [i, i+1, ..., i+k-1] where the two
    buffers differ. *)
Definition changes (a b : list Z) (i k : nat) : Z :=
  Z.of_nat (length (List.filter (changed a b) (seq i k))).

Lemma changes_same a i k : changes a a i k = 0.
Proof.
  unfold changes. replace (List.filter (changed a a) (seq i k)) with (@nil nat);
    [reflexivity|].
  symmetry. induction (seq i k) as [|x l IH]; [reflexivity|].
  cbn [List.filter]. unfold changed at 1. rewrite Z.eqb_refl. exact IH.
Qed.

Lemma changes_S a b i k :
  changes a b i (S k) = (if changed a b i then 1 else 0) + changes a b (S i) k.
Proof.
  unfold changes. cbn [seq List.filter].
  destruct (changed a b i); cbn [length]; lia.
Qed.

Lemma changes_app a b i k k' :
  changes a b i (k + k') = changes a b i k + changes a b (i + k) k'.
Proof.
  unfold changes. rewrite seq_app, List.filter_app, length_app. lia.
Qed.

Lemma changes_ext a b b' i k :
  (forall j, (i <= j < i + k)%nat -> b !!! j = b' !!! j) ->
  changes a b i k = changes a b' i k.
Proof.
  intros H. unfold changes. f_equal. f_equal. apply List.filter_ext_in.
  intros j Hj. apply in_seq in Hj. unfold changed. rewrite H by lia. reflexivity.
Qed.

Lemma replace_loop_spec rev k : forall i str n,
  (i + k <= length str)%nat ->
  let r := replace_loop rev k i str n in
  length (fst r) = length str
  /\ snd r = n + changes (fst r) str i k
  /\ (forall j, (j < i \/ i + k <= j)%nat -> fst r !!! j = str !!! j)
  /\ (forall j, (i <= j < i + k)%nat ->
        (forall m, (i <= m <= j)%nat -> stops rev (str !!! m) = false) ->
        fst r !!! j = if designator rev (str !!! j) then char_E else str !!! j)
  /\ (forall j, (i <= j < i + k)%nat ->
        ~ (forall m, (i <= m <= j)%nat -> stops rev (str !!! m) = false) ->
        fst r !!! j = str !!! j)
  /\ replace_loop rev k i (fst r) 0 = (fst r, 0).
Proof.
  induction k as [|k IH]; intros i str n Hlen; cbv zeta; cbn [replace_loop].
  - cbn [fst snd]. rewrite changes_same. repeat split; try lia; intros; lia.
  - destruct (stops rev (str !!! i)) eqn:St.
    + cbn [fst snd]. split; [reflexivity|].
      split; [rewrite changes_same; lia|]. split; [reflexivity|].
      split; [|split].
      * intros j Hj Hr. specialize (Hr i ltac:(lia)). congruence.
      * reflexivity.
      * rewrite St. reflexivity.
    + assert (NE : stops rev char_E = false) by (destruct rev; reflexivity).
      assert (ND : designator rev char_E = false) by (destruct rev; reflexivity).
      destruct (designator rev (str !!! i)) eqn:De.
      * specialize (IH (S i) (<[i := char_E]> str) (n + 1)
                      ltac:(rewrite length_insert; lia)).
        cbv zeta in IH. destruct IH as (L & N & O & C & K & I).
        set (r := replace_loop rev k (S i) (<[i := char_E]> str) (n + 1)) in *.
        rewrite length_insert in L.
        assert (Hi : fst r !!! i = char_E).
        { rewrite O by lia. apply list_lookup_total_insert_eq. lia. }
        assert (Ho : forall m, m <> i -> <[i := char_E]> str !!! m = str !!! m)
          by (intros m Hm; apply list_lookup_total_insert_ne; congruence).
        assert (Hd : str !!! i <> char_E).
        { intros E. rewrite E in De. congruence. }
        split; [exact L|]. split; [|split; [|split; [|split]]].
        -- rewrite N, changes_S.
           rewrite (changes_ext _ str (<[i := char_E]> str) (S i) k)
             by (intros j Hj; symmetry; apply Ho; lia).
           unfold changed at 1. rewrite Hi.
           destruct (Z.eqb_spec char_E (str !!! i)); [congruence|].
           cbn [negb]. lia.
        -- intros j Hj. rewrite O by lia. apply Ho. lia.
        -- intros j Hj Hr. destruct (decide (j = i)) as [->|Hne].
           ++ rewrite De. exact Hi.
           ++ rewrite C, Ho by (try lia; intros m Hm; rewrite Ho by lia; apply Hr; lia).
              reflexivity.
        -- intros j Hj Hr. destruct (decide (j = i)) as [->|Hne].
           ++ exfalso. apply Hr. intros m Hm. replace m with i by lia. exact St.
           ++ rewrite K, Ho; [reflexivity | lia | lia |].
              intros Hall. apply Hr. intros m Hm.
              destruct (decide (m = i)) as [->|Hm']; [exact St|].
              rewrite <- (Ho m Hm'). apply Hall. lia.
        -- rewrite Hi, NE, ND. exact I.
      * specialize (IH (S i) str n ltac:(lia)).
        cbv zeta in IH. destruct IH as (L & N & O & C & K & I).
        set (r := replace_loop rev k (S i) str n) in *.
        assert (Hi : fst r !!! i = str !!! i) by (apply O; lia).
        split; [exact L|]. split; [|split; [|split; [|split]]].
        -- rewrite N, changes_S. unfold changed at 1. rewrite Hi, Z.eqb_refl.
           cbn [negb]. lia.
        -- intros j Hj. apply O. lia.
        -- intros j Hj Hr. destruct (decide (j = i)) as [->|Hne].
           ++ rewrite De. exact Hi.
           ++ apply C; [lia|]. intros m Hm. apply Hr. lia.
        -- intros j Hj Hr. destruct (decide (j = i)) as [->|Hne].
           ++ exact Hi.
           ++ apply K; [lia|]. intros Hall. apply Hr. intros m Hm.
              destruct (decide (m = i)) as [->|Hm']; [exact St | apply Hall; lia].
        -- rewrite Hi, St, De. exact I.
Qed.

(** X14: [replaceExpDesignator] keeps the length of the buffer and writes
    only positions below [len]; every position that the loop reaches
    (all of them in the first release, those before the first NUL in the
    reference revision) holds ['E'] if it held a designator and is
    unchanged otherwise; the value returned is the number of positions
    whose character changed; and a second call on the result changes
    nothing and returns 0. *)
Theorem replaceExpDesignator_spec (rev : revision) (str : list Z) (len : Z) :
  0 <= len <= Z.of_nat (length str) ->
  let r := replaceExpDesignator rev str len in
  length (fst r) = length str
  /\ snd r = changes (fst r) str 0 (length str)
  /\ (forall j, len <= Z.of_nat j -> fst r !!! j = str !!! j)
  /\ (forall j, Z.of_nat j < len -> reached rev str j ->
        fst r !!! j = if designator rev (str !!! j) then char_E else str !!! j)
  /\ (forall j, Z.of_nat j < len -> ~ reached rev str j -> fst r !!! j = str !!! j)
  /\ replaceExpDesignator rev (fst r) len = (fst r, 0).
Proof.
  intros Hlen r. unfold r, replaceExpDesignator.
  destruct (replace_loop_spec rev (Z.to_nat len) 0 str 0 ltac:(lia))
    as (L & N & O & C & K & I).
  assert (O' : forall j, len <= Z.of_nat j ->
                 fst (replace_loop rev (Z.to_nat len) 0 str 0) !!! j = str !!! j)
    by (intros j Hj; apply O; lia).
  split; [exact L|]. split; [|split; [|split; [|split]]].
  - rewrite N.
    replace (length str) with (Z.to_nat len + (length str - Z.to_nat len))%nat
      by lia.
    rewrite changes_app.
    rewrite (changes_ext _ str (fst (replace_loop rev (Z.to_nat len) 0 str 0))
               (0 + Z.to_nat len))
      by (intros j Hj; symmetry; apply O'; lia).
    rewrite changes_same. lia.
  - exact O'.
  - intros j Hj Hr. apply C; [lia|]. intros m Hm. apply Hr. lia.
  - intros j Hj Hr. apply K; [lia|]. intros Hall. apply Hr.
    intros m Hm. apply Hall. lia.
  - exact I.
Qed.

Lemma replaceExpDesignator_spec_witness :
  0 <= 5 <= Z.of_nat (length [49; 68; 45; 48; 100; 0; 68])
  /\ let str := [49; 68; 45; 48; 100; 0; 68] in
     let r := replaceExpDesignator Reference str 5 in
     length (fst r) = length str
     /\ snd r = changes (fst r) str 0 (length str)
     /\ (forall j, 5 <= Z.of_nat j -> fst r !!! j = str !!! j)
     /\ (forall j, Z.of_nat j < 5 -> reached Reference str j ->
           fst r !!! j = if designator Reference (str !!! j) then char_E else str !!! j)
     /\ (forall j, Z.of_nat j < 5 -> ~ reached Reference str j -> fst r !!! j = str !!! j)
     /\ replaceExpDesignator Reference (fst r) 5 = (fst r, 0).
Proof.
  assert (H : 0 <= 5 <= Z.of_nat (length [49; 68; 45; 48; 100; 0; 68]))
    by (simpl; lia).
  split; [exact H|].
  exact (replaceExpDesignator_spec Reference [49; 68; 45; 48; 100; 0; 68] 5 H).
Defined.

End RinexTextFacts.

(** ** GPS time to calendar time and back *)

Module CalendarFacts.
Import GpsTime GpsTimeFacts.

(** Day number [de] (days since 1980-01-06) gives a valid date from the
    epoch to 2099 whose day count is [de] again. *)
Definition check_daynum (de : Z) : bool :=
  match calendar_of (de + 2445782) with
  | (y, m, d) =>
      valid_ymdb y m d && from_epochb y m d
      && (1980 <=? y) && (y <=? 2099) && (de_of y m d =? de)
  end.

(** The last whole week before 2100 is week 6259. *)
Definition WEEKS : Z := 6260.

(** The day numbers of the weeks 0 to 6259, as day [d] of week
    [20 * h + w]. *)
Lemma daynums_checked :
  forallb (fun h =>
    forallb (fun w =>
      forallb (fun d => check_daynum (7 * (20 * h + w) + d)) (Zrange 0 7))
      (Zrange 0 20))
    (Zrange 0 313) = true.
Proof. vm_compute; reflexivity. Qed.

Lemma daynum_calendar de :
  0 <= de < 7 * WEEKS ->
  let ymd := calendar_of (de + 2445782) in
  let y := fst (fst ymd) in let m := snd (fst ymd) in let d := snd ymd in
  valid_ymd y m d
  /\ (1980 < y \/ (y = 1980 /\ (1 < m \/ 6 <= d)))
  /\ de_of y m d = de.
Proof.
  intros Hde. pose proof daynums_checked as H.
  unfold WEEKS in Hde.
  pose proof (Z.div_mod de 7 ltac:(lia)) as D7.
  pose proof (Z.mod_pos_bound de 7 ltac:(lia)) as B7.
  pose proof (Z.div_mod (de / 7) 20 ltac:(lia)) as D20.
  pose proof (Z.mod_pos_bound (de / 7) 20 ltac:(lia)) as B20.
  assert (Bh : 0 <= de / 7 / 20 < 313).
  { split; [apply Z.div_pos; [apply Z.div_pos|]; lia|].
    apply Z.div_lt_upper_bound; [lia|]. apply Z.div_lt_upper_bound; lia. }
  rewrite forallb_forall in H.
  specialize (H (de / 7 / 20) ltac:(apply In_Zrange; simpl; lia)).
  rewrite forallb_forall in H.
  specialize (H ((de / 7) mod 20) ltac:(apply In_Zrange; simpl; lia)).
  rewrite forallb_forall in H.
  specialize (H (de mod 7) ltac:(apply In_Zrange; simpl; lia)).
  replace (7 * (20 * (de / 7 / 20) + (de / 7) mod 20) + de mod 7) with de in H
    by lia.
  unfold check_daynum in H. cbv zeta.
  destruct (calendar_of (de + 2445782)) as [[y m] d]. cbn [fst snd].
  repeat (apply andb_prop in H as [H ?]).
  unfold valid_ymdb in H.
  repeat (apply andb_prop in H as [H ?]).
  unfold from_epochb in *.
  repeat match goal with
         | E : (_ <=? _) = true |- _ => apply Z.leb_le in E
         | E : (_ =? _) = true |- _ => apply Z.eqb_eq in E
         end.
  split; [unfold valid_ymd; lia|]. split; [|assumption].
  match goal with E' : (_ || _) = true |- _ => rename E' into E end.
  apply orb_prop in E as [E|E].
  - left. apply Z.ltb_lt in E. exact E.
  - right. apply andb_prop in E as [E1 E2]. apply Z.eqb_eq in E1.
    split; [exact E1|]. apply orb_prop in E2 as [E2|E2].
    + left. apply Z.ltb_lt in E2. exact E2.
    + right. apply Z.leb_le in E2. exact E2.
Qed.

Section Back.

Variable g : gpstime_t.
Hypothesis Hweek : 0 <= week g < WEEKS.
Hypothesis Hs0 : (0 <= sec g)%Q.
Hypothesis HsW : (sec g < SECONDS_IN_WEEK)%Q.

Let S := Qfloor (sec g).
Let f := (sec g - inject_Z S)%Q.
Let dow := S / 86400.
Let de := 7 * week g + dow.

Lemma back_S : 0 <= S < 604800.
Proof.
  unfold S. split.
  - change 0 with (Qfloor 0). apply Qfloor_resp_le, Hs0.
  - pose proof (Qfloor_le (sec g)) as Hle.
    assert (H : (inject_Z (Qfloor (sec g)) < inject_Z 604800)%Q)
      by (eapply Qle_lt_trans;
          [exact Hle
          |change (inject_Z 604800) with 604800%Q; unfold SECONDS_IN_WEEK in HsW; lra]).
    rewrite <- Zlt_Qlt in H. exact H.
Qed.

Lemma back_dow : 0 <= dow < 7.
Proof.
  pose proof back_S as HS. unfold dow. split.
  - apply Z.div_pos; lia.
  - apply Z.div_lt_upper_bound; lia.
Qed.

Lemma back_floor (c : Q) (D : Z) :
  (c == inject_Z D)%Q -> 0 < D -> Qfloor (sec g / c) = S / D.
Proof.
  intros Hc HD. destruct (floor_fraction (sec g)) as [F0 F1].
  apply (Qfloor_div_seconds _ _ f); [unfold f, S; ring | exact Hc | exact HD | exact F0 | exact F1].
Qed.

Lemma back_julian : int_of_double (julian_arg g) + 1537 = de + 2445782.
Proof.
  rewrite (int_of_double_inject _ (de + 2444245)); [lia|].
  unfold julian_arg, floor.
  rewrite (back_floor 86400.0 86400) by (reflexivity || lia).
  unfold de, dow, double_of_int.
  rewrite !inject_Z_plus, !inject_Z_mult.
  change (inject_Z 7) with 7%Q. change (inject_Z 2444245) with 2444245%Q.
  ring.
Qed.

Lemma back_de : 0 <= de < 7 * WEEKS.
Proof. pose proof back_dow. unfold de, WEEKS in *. lia. Qed.

Lemma back_hh : t_hh (gps2date g) = S / 3600 - 24 * dow.
Proof.
  pose proof back_S as HS.
  rewrite (proj1 (gps2date_time g)).
  assert (H0 : 0 <= S / 3600) by (apply Z.div_pos; lia).
  rewrite int_of_double_floor; rewrite (back_floor 3600.0 3600) by (reflexivity || lia);
    [|exact H0].
  rewrite Z.rem_mod_nonneg by lia.
  unfold dow. change 86400 with (3600 * 24). rewrite <- Z.div_div by lia.
  pose proof (Z.div_mod (S / 3600) 24 ltac:(lia)). lia.
Qed.

Lemma back_mm : t_mm (gps2date g) = S / 60 - 60 * (S / 3600).
Proof.
  pose proof back_S as HS.
  rewrite (proj1 (proj2 (gps2date_time g))).
  assert (H0 : 0 <= S / 60) by (apply Z.div_pos; lia).
  rewrite int_of_double_floor; rewrite (back_floor 60.0 60) by (reflexivity || lia);
    [|exact H0].
  rewrite Z.rem_mod_nonneg by lia.
  change 3600 with (60 * 60). rewrite <- Z.div_div by lia.
  pose proof (Z.div_mod (S / 60) 60 ltac:(lia)). lia.
Qed.

Lemma back_sec : (t_sec (gps2date g) == sec g - 60 * inject_Z (S / 60))%Q.
Proof.
  rewrite (proj2 (proj2 (gps2date_time g))).
  unfold floor. rewrite (back_floor 60.0 60) by (reflexivity || lia).
  ring.
Qed.

Lemma back_time :
  0 <= t_hh (gps2date g) < 24 /\ 0 <= t_mm (gps2date g) < 60
  /\ (0 <= t_sec (gps2date g))%Q /\ (t_sec (gps2date g) < 60)%Q.
Proof.
  pose proof back_S as HS. pose proof back_dow as Hd.
  rewrite back_hh, back_mm, back_sec.
  assert (E1 : S / 86400 = S / 3600 / 24)
    by (change 86400 with (3600 * 24); rewrite Z.div_div by lia; reflexivity).
  assert (E2 : S / 3600 = S / 60 / 60)
    by (change 3600 with (60 * 60); rewrite Z.div_div by lia; reflexivity).
  pose proof (Z.div_mod (S / 3600) 24 ltac:(lia)) as D1.
  pose proof (Z.mod_pos_bound (S / 3600) 24 ltac:(lia)) as B1.
  pose proof (Z.div_mod (S / 60) 60 ltac:(lia)) as D2.
  pose proof (Z.mod_pos_bound (S / 60) 60 ltac:(lia)) as B2.
  pose proof (Z.div_mod S 60 ltac:(lia)) as D3.
  pose proof (Z.mod_pos_bound S 60 ltac:(lia)) as B3.
  fold dow in E1.
  split; [lia|]. split; [lia|].
  destruct (floor_fraction (sec g)) as [F0 F1]. fold S in F0, F1.
  assert (E3 : (inject_Z S == 60 * inject_Z (S / 60) + inject_Z (S mod 60))%Q).
  { rewrite D3 at 1. rewrite inject_Z_plus, inject_Z_mult.
    change (inject_Z 60) with 60%Q. ring. }
  assert (M0 : (0 <= inject_Z (S mod 60))%Q)
    by (change 0%Q with (inject_Z 0); rewrite <- Zle_Qle; lia).
  assert (M1 : (inject_Z (S mod 60) <= 59)%Q)
    by (change 59%Q with (inject_Z 59); rewrite <- Zle_Qle; lia).
  split; lra.
Qed.

Lemma back_gps : gps_eq (date2gps (gps2date g)) g.
Proof.
  pose proof back_S as HS. pose proof back_dow as Hd.
  destruct (daynum_calendar de back_de) as (_ & _ & Hde). cbv zeta in Hde.
  destruct (gps2date_calendar g) as (Y & M & D). cbv zeta in Y, M, D.
  rewrite back_julian in Y, M, D. rewrite <- Y, <- M, <- D in Hde.
  destruct (date2gps_fields (gps2date g)) as [W Sc]. cbv zeta in W, Sc.
  rewrite Hde in W, Sc.
  assert (Q7 : de ÷ 7 = week g).
  { unfold de. rewrite Z.quot_div_nonneg by lia.
    symmetry. apply (Z.div_unique _ _ _ dow); lia. }
  assert (R7 : Z.rem de 7 = dow).
  { pose proof (Z.quot_rem' de 7). lia. }
  split; [rewrite W; exact Q7|].
  rewrite Sc, R7, back_hh, back_mm, back_sec.
  unfold double_of_int, SECONDS_IN_DAY, SECONDS_IN_HOUR, SECONDS_IN_MINUTE.
  unfold Z.sub. rewrite !inject_Z_plus, !inject_Z_opp, !inject_Z_mult.
  change (inject_Z 24) with 24%Q. change (inject_Z 60) with 60%Q.
  ring.
Qed.

Lemma back_valid : valid_datetime (gps2date g) /\ from_epoch (gps2date g).
Proof.
  destruct (daynum_calendar de back_de) as (V & E & _). cbv zeta in V, E.
  destruct (gps2date_calendar g) as (Y & M & D). cbv zeta in Y, M, D.
  rewrite back_julian in Y, M, D. rewrite <- Y, <- M, <- D in V, E.
  destruct back_time as (H1 & H2 & H3 & H4).
  split; [|exact E].
  split; [exact V|]. split; [exact H1|]. split; [exact H2|]. split; assumption.
Qed.

End Back.

(** X15: for every GPS time of the weeks 0 to 6259 (up to December 2099)
    with its seconds in [0, 604800), [gps2date] gives a valid calendar
    time not before 1980-01-06, and [date2gps] of that calendar time is
    the GPS time again: the same week and exactly the same seconds. *)
Theorem gps2date_date2gps_roundtrip (g : gpstime_t) :
  0 <= week g < WEEKS -> (0 <= sec g)%Q -> (sec g < SECONDS_IN_WEEK)%Q ->
  valid_datetime (gps2date g) /\ from_epoch (gps2date g)
  /\ gps_eq (date2gps (gps2date g)) g.
Proof.
  intros Hw H0 H1.
  destruct (back_valid g Hw H0 H1) as [V E].
  split; [exact V|]. split; [exact E|].
  exact (back_gps g Hw H0 H1).
Qed.

Lemma gps2date_date2gps_roundtrip_witness :
  let g := mk_gpstime 1823 518399.75 in
  valid_datetime (gps2date g) /\ from_epoch (gps2date g)
  /\ gps_eq (date2gps (gps2date g)) g.
Proof.
  apply (gps2date_date2gps_roundtrip (mk_gpstime 1823 518399.75)).
  - split; by_computation.
  - by_computation.
  - by_computation.
Defined.

End CalendarFacts.

(** ** Ionospheric delay and look angles *)

Module RangeFacts.
Import GpsTime Engine GpsTimeFacts.

Local Open Scope Q_scope.

(** The truncated cosine of the Klobuchar model lies between 0 and 1
    where the code uses it. *)
Lemma cosine_series_range (X : Q) :
  Qabs X < 1.57 ->
  0 <= 1.0 - X * X / 2.0 + X * X * (X * X) / 24.0 <= 1.
Proof.
  intros H.
  assert (H' : Qabs X <= 1.57) by lra.
  apply Qabs_Qle_condition in H' as [Hlo Hhi].
  assert (U : 0 <= X * X) by nra.
  assert (V : X * X <= 1.57 * 1.57) by nra.
  set (u := X * X) in *.
  assert (E1 : u / 2.0 == u * (1 # 2)) by (field; discriminate).
  assert (E2 : u * u / 24.0 == u * u * (1 # 24)) by (field; discriminate).
  rewrite E1, E2. split; nra.
Qed.

Lemma obliquity_floor (E : Q) : E <= 0.53 -> 1 <= obliquity E.
Proof.
  intros H. unfold obliquity.
  assert (D : 0 <= 0.53 - E) by lra.
  set (x := 0.53 - E) in *.
  assert (C : x ^ 3 == x * x * x) by (simpl; ring).
  rewrite C.
  assert (0 <= x * x) by nra.
  assert (0 <= x * x * x) by nra.
  lra.
Qed.

Lemma clamp_nonneg (a : Q) : 0 <= (if Qltb a 0.0 then 0.0 else a).
Proof.
  destruct (Qltb a 0.0) eqn:E; [lra|].
  apply Qltb_false in E. lra.
Qed.

Lemma klobuchar_floor (F AMP c X : Q) :
  0 <= F -> 0 <= AMP -> 0 <= c -> Qabs X < 1.57 ->
  F * 5.0e-9 * c
  <= F * (5.0e-9 + AMP * (1.0 - X * X / 2.0 + X * X * (X * X) / 24.0)) * c.
Proof.
  intros HF HA Hc HX.
  destruct (cosine_series_range X HX) as [P0 _].
  set (p := 1.0 - X * X / 2.0 + X * X * (X * X) / 24.0) in *.
  assert (H1 : 0 <= AMP * p) by (apply Qmult_le_0_compat; assumption).
  assert (H2 : 0 <= F * c) by (apply Qmult_le_0_compat; assumption).
  assert (H3 : 0 <= F * c * (AMP * p)) by (apply Qmult_le_0_compat; assumption).
  lra.
Qed.

Section Range.
Context {env : Env}.

(** X16: with the ionosphere enabled and the elevation not above
    0.53 * PI, the delay that [ionosphericDelay] returns is never below
    the night-time value [F * 5e-9 * c] of the model, whatever the
    coefficients, the position, the azimuth and the time; and the
    obliquity factor [F] is at least 1. *)
Theorem ionosphericDelay_floor (ionoutc : ionoutc_t) (g : gpstime_t)
    (llh : vec3) (azel : Q * Q) :
  enable ionoutc = true -> snd azel / PI <= 0.53 ->
  let F := obliquity (snd azel / PI) in
  1 <= F
  /\ F * 5.0e-9 * SPEED_OF_LIGHT <= ionosphericDelay ionoutc g llh azel.
Proof.
  intros He HE F.
  pose proof (obliquity_floor _ HE) as HF. fold F in HF.
  split; [exact HF|].
  unfold ionosphericDelay. rewrite He. cbn [negb]. fold F.
  destruct (vflg ionoutc); cbn [negb]; [|apply Qle_refl].
  cbv zeta.
  match goal with
  | |- context [Qltb (Qabs ?X) 1.57] => destruct (Qltb (Qabs X) 1.57) eqn:EX
  end; [|apply Qle_refl].
  apply Qltb_true in EX.
  apply klobuchar_floor;
    [apply (Qle_trans _ 1); [lra | exact HF] | apply clamp_nonneg | apply Qle_bool_imp_le; reflexivity | exact EX].
Qed.

(** The rotation of [ltcmat] keeps lengths when the library's sine and
    cosine lie on the unit circle. *)
Hypothesis circle : forall x, sin x * sin x + cos x * cos x == 1.

(** X17: for sine and cosine on the unit circle, the local north, east
    and up components that [ecef2neu] computes with the matrix of
    [ltcmat] have the squared length of the vector given, for every
    position [llh]: the matrix is a rotation. *)
Theorem ecef2neu_keeps_length (llh xyz : vec3) :
  let neu := ecef2neu xyz (ltcmat llh) in
  dotProd neu neu == dotProd xyz xyz.
Proof.
  cbv zeta. unfold ecef2neu, ltcmat, dotProd. cbv zeta. cbn [v0 v1 v2].
  pose proof (circle (v0 llh)) as C0. pose proof (circle (v1 llh)) as C1.
  set (sa := sin (v0 llh)) in *. set (ca := cos (v0 llh)) in *.
  set (so := sin (v1 llh)) in *. set (co := cos (v1 llh)) in *.
  set (x := v0 xyz). set (y := v1 xyz). set (z := v2 xyz).
  transitivity ((sa * sa + ca * ca)
                * ((co * x + so * y) * (co * x + so * y) + z * z)
                + (so * x - co * y) * (so * x - co * y)); [ring|].
  rewrite C0.
  transitivity ((so * so + co * co) * (x * x + y * y) + z * z); [ring|].
  rewrite C1. ring.
Qed.

End Range.

(** Broadcast coefficients of a day in 2014, and a satellite at 0.8 rad
    of elevation. *)
Definition klobuchar_ionoutc : ionoutc_t :=
  mk_ionoutc true true 0.1118e-7 (-0.7451e-8) (-0.5961e-7) 0.1192e-6
             0.1167e6 (-0.2294e6) (-0.1311e6) 0.1049e7
             0 0 16%Z 0%Z 0%Z 16%Z 7%Z 1756%Z.

Lemma ionosphericDelay_floor_witness :
  let azel := (1.0, 0.8) in
  let F := obliquity (snd azel / PI) in
  1 <= F
  /\ F * 5.0e-9 * SPEED_OF_LIGHT
     <= ionosphericDelay (env := EngineFacts.sample_env) klobuchar_ionoutc
          (mk_gpstime 1823 345600) (mk_vec3 0.6 2.4 100) azel.
Proof.
  apply (ionosphericDelay_floor (env := EngineFacts.sample_env) klobuchar_ionoutc
           (mk_gpstime 1823 345600) (mk_vec3 0.6 2.4 100) (1.0, 0.8)).
  - reflexivity.
  - by_computation.
Defined.

(** Sine and cosine by the rational points of the unit circle. *)
Definition circle_sin (x : Q) : Q := 2 * x / (1 + x * x).
Definition circle_cos (x : Q) : Q := (1 - x * x) / (1 + x * x).

Definition circle_env : Env :=
  mk_env circle_cos circle_sin (fun x => x) (fun y _ => y) 64
         (fun _ _ => (mk_vec3 0 0 0, mk_vec3 0 0 0, (0, 0)))
         (fun v => v)
         (fun _ _ => replicate 5 (replicate 10 0%Z)).

Lemma circle_env_circle (x : Q) :
  circle_sin x * circle_sin x + circle_cos x * circle_cos x == 1.
Proof.
  unfold circle_sin, circle_cos.
  assert (H : ~ 1 + x * x == 0) by nra.
  field. exact H.
Qed.

Lemma ecef2neu_keeps_length_witness :
  (forall x, sin (Env := circle_env) x * sin (Env := circle_env) x
             + cos (Env := circle_env) x * cos (Env := circle_env) x == 1)
  /\ let neu := ecef2neu (mk_vec3 3 (-4) 12)
                  (ltcmat (env := circle_env) (mk_vec3 0.5 2 0)) in
     dotProd neu neu == dotProd (mk_vec3 3 (-4) 12) (mk_vec3 3 (-4) 12).
Proof.
  split; [exact circle_env_circle|].
  exact (ecef2neu_keeps_length (env := circle_env) circle_env_circle
           (mk_vec3 0.5 2 0) (mk_vec3 3 (-4) 12)).
Defined.

End RangeFacts.

(** ** The sets of a RINEX file *)

Module RinexSetFacts.
Import GpsTime Rinex GpsTimeFacts RinexFacts.

(** The set of the last record stored, [i0] when none is. *)
Definition last_set (i0 : Z) (out : list (gpstime_t * Z)) : Z :=
  default i0 (last (out.*2)).

Lemma place_record_cases c g :
  let r := place_record c g in
  (ieph (fst r) = ieph c /\ snd r = Some (ieph c))
  \/ (ieph (fst r) = ieph c + 1
      /\ snd r = if EPHEM_ARRAY_SIZE <=? ieph c + 1 then None else Some (ieph c + 1)).
Proof.
  cbv zeta. unfold place_record.
  destruct (Qltb SECONDS_IN_HOUR _); cbn [ieph].
  - right. destruct (EPHEM_ARRAY_SIZE <=? ieph c + 1); split; reflexivity.
  - left. split; reflexivity.
Qed.

Lemma place_records_from gs : forall c,
  0 <= ieph c < EPHEM_ARRAY_SIZE ->
  let out := place_records c gs in
  out.*1 `prefix_of` gs
  /\ (forall k g i, out !! k = Some (g, i) ->
        ieph c <= i < EPHEM_ARRAY_SIZE /\ i <= ieph c + Z.of_nat k + 1)
  /\ (forall k g i g' i', out !! k = Some (g, i) -> out !! S k = Some (g', i') ->
        i <= i' <= i + 1)
  /\ ((length out < length gs)%nat -> last_set (ieph c) out = EPHEM_ARRAY_SIZE - 1).
Proof.
  unfold EPHEM_ARRAY_SIZE.
  induction gs as [|g gs IH]; intros c Hc; cbv zeta; cbn [place_records].
  - split; [apply prefix_nil|]. split; [intros k g i H; discriminate H|].
    split; [intros k g i g' i' H; discriminate H|]. cbn [length]. lia.
  - destruct (place_record_cases c g) as [[E1 E2]|[E1 E2]];
      unfold EPHEM_ARRAY_SIZE in *;
      destruct (place_record c g) as [c' slot]; cbn [fst snd] in E1, E2; subst slot.
    + specialize (IH c' ltac:(lia)). cbv zeta in IH.
      destruct IH as (P & R & St & L). rewrite E1 in R, L.
      set (out := place_records c' gs) in *.
      split; [cbn [fmap list_fmap fst]; apply prefix_cons, P|].
      split; [|split].
      * intros [|k] g1 i H; cbn in H.
        -- injection H as <- <-. lia.
        -- specialize (R k g1 i H). lia.
      * intros [|k] g1 i g2 i2 H H2; cbn in H, H2.
        -- injection H as <- <-. specialize (R 0%nat g2 i2 H2). lia.
        -- exact (St k g1 i g2 i2 H H2).
      * cbn [length]. intros Hl. specialize (L ltac:(lia)).
        unfold last_set in *. cbn [fmap list_fmap snd].
        destruct (out.*2) as [|x l] eqn:Eo; [cbn in L; cbn; exact L|].
        rewrite last_cons. destruct (last (x :: l)) eqn:El; [exact L|].
        apply last_None in El. discriminate El.
    + destruct (13 <=? ieph c + 1) eqn:Full.
      * apply Z.leb_le in Full.
        split; [apply prefix_nil|]. split; [intros k g1 i H; discriminate H|].
        split; [intros k g1 i g2 i2 H; discriminate H|].
        intros _. unfold last_set. cbn. lia.
      * apply Z.leb_gt in Full.
        specialize (IH c' ltac:(lia)). cbv zeta in IH.
        destruct IH as (P & R & St & L). rewrite E1 in R, L.
        set (out := place_records c' gs) in *.
        split; [cbn [fmap list_fmap fst]; apply prefix_cons, P|].
        split; [|split].
        -- intros [|k] g1 i H; cbn in H.
           ++ injection H as <- <-. lia.
           ++ specialize (R k g1 i H). lia.
        -- intros [|k] g1 i g2 i2 H H2; cbn in H, H2.
           ++ injection H as <- <-. specialize (R 0%nat g2 i2 H2). lia.
           ++ exact (St k g1 i g2 i2 H H2).
        -- cbn [length]. intros Hl. specialize (L ltac:(lia)).
           unfold last_set in *. cbn [fmap list_fmap snd].
           destruct (out.*2) as [|x l] eqn:Eo; [cbn in L; cbn; exact L|].
           rewrite last_cons. destruct (last (x :: l)) eqn:El; [exact L|].
           apply last_None in El. discriminate El.
Qed.

(** X18: the block loop of the RINEX reader stores the records of a file
    in file order, from its first record on; every record goes to a set
    with an index from 0 to 12, the first one to set 0, and each
    following one to the set of its predecessor or to the next set; and
    records are left out only after set 12 has been in use. *)
Theorem place_records_sets (s : Q) (gs : list gpstime_t) :
  let out := place_records (start s) gs in
  out.*1 `prefix_of` gs
  /\ (forall k g i, out !! k = Some (g, i) ->
        0 <= i < EPHEM_ARRAY_SIZE /\ i <= Z.of_nat k)
  /\ (forall k g i g' i', out !! k = Some (g, i) -> out !! S k = Some (g', i') ->
        i <= i' <= i + 1)
  /\ ((length out < length gs)%nat -> last_set 0 out = EPHEM_ARRAY_SIZE - 1).
Proof.
  cbv zeta. destruct gs as [|g gs]; cbn [place_records].
  - split; [apply prefix_nil|]. split; [intros k g i H; discriminate H|].
    split; [intros k g i g' i' H; discriminate H|]. cbn [length]. lia.
  - rewrite place_first_record.
    destruct (place_records_from gs {| g0 := g; ieph := 0 |}
                ltac:(unfold EPHEM_ARRAY_SIZE; cbn; lia)) as (P & R & St & L).
    cbn [ieph] in R, L.
    set (out := place_records {| g0 := g; ieph := 0 |} gs) in *.
    split; [cbn [fmap list_fmap fst]; apply prefix_cons, P|].
    split; [|split].
    + intros [|k] g1 i H; cbn in H.
      * injection H as <- <-. unfold EPHEM_ARRAY_SIZE. lia.
      * specialize (R k g1 i H). lia.
    + intros [|k] g1 i g2 i2 H H2; cbn in H, H2.
      * injection H as <- <-. specialize (R 0%nat g2 i2 H2). lia.
      * exact (St k g1 i g2 i2 H H2).
    + cbn [length]. intros Hl. specialize (L ltac:(lia)).
      unfold last_set in *. cbn [fmap list_fmap snd].
      destruct (out.*2) as [|x l] eqn:Eo; [cbn in L; unfold EPHEM_ARRAY_SIZE in L; lia|].
      rewrite last_cons. destruct (last (x :: l)) eqn:El; [exact L|].
      apply last_None in El. discriminate El.
Qed.

End RinexSetFacts.

(** ** The position index of the main loop *)

Module LoopFacts.
Import GpsTime Engine EngineFacts.

Section Loop.
Context {env : Env}.

Lemma iumd_maintenance sc st : iumd (maintenance sc st) = iumd st.
Proof.
  unfold maintenance. cbv zeta.
  destruct (first_valid MAX_SAT 0 (sc_eph sc !!! (S (ieph st)))) as [sv|].
  - destruct (Qltb _ SECONDS_IN_HOUR);
      match goal with |- context [allocateChannel ?a ?b ?c ?d ?e ?f] =>
        destruct (allocateChannel a b c d e f) end; reflexivity.
  - match goal with |- context [allocateChannel ?a ?b ?c ?d ?e ?f] =>
      destruct (allocateChannel a b c d e f) end; reflexivity.
Qed.

Lemma iumd_loop_body rev sc head st :
  iumd (loop_body rev sc head st)
  = match rev with
    | FirstRelease => iumd st
    | Reference => if numd sc <=? iumd st + 1 then 0 else iumd st + 1
    end.
Proof.
  unfold loop_body, loop_tail. cbv zeta.
  destruct (maintenance_due rev _); destruct rev; cbn [advance iumd];
    rewrite ?iumd_maintenance; reflexivity.
Qed.

Lemma iumd_run rev sc head n st :
  0 < numd sc -> 0 <= iumd st < numd sc ->
  iumd (run rev sc head n st)
  = match rev with
    | FirstRelease => iumd st
    | Reference => (iumd st + Z.of_nat n) mod numd sc
    end.
Proof.
  intros Hn Hi. induction n as [|n IH]; cbn [run].
  - destruct rev; [reflexivity|]. rewrite Z.add_0_r, Z.mod_small by lia. reflexivity.
  - rewrite iumd_loop_body, IH. destruct rev; [reflexivity|].
    pose proof (Z.mod_pos_bound (iumd st + Z.of_nat n) (numd sc) Hn) as B.
    pose proof (Z.div_mod (iumd st + Z.of_nat n) (numd sc) ltac:(lia)) as D.
    set (q := (iumd st + Z.of_nat n) / numd sc) in *.
    set (r := (iumd st + Z.of_nat n) mod numd sc) in *.
    replace (iumd st + Z.of_nat (S n)) with (iumd st + Z.of_nat n + 1) by lia.
    destruct (Z.leb_spec (numd sc) (r + 1)).
    + apply (Z.mod_unique_pos _ _ (q + 1)); lia.
    + apply (Z.mod_unique_pos _ _ q); lia.
Qed.

Lemma iumd_loop_entry sc g0 ieph0 ch : iumd (loop_entry sc g0 ieph0 ch) = 0.
Proof.
  unfold loop_entry. cbv zeta.
  destruct (allocateChannel _ _ _ _ _ _) as [n s']. reflexivity.
Qed.

(** X19: with [numd] positions read ([numd > 0]), the position index
    [iumd] after [n] turns of the synthesis loop is [n mod numd] in the
    reference revision, which replays the positions in a cycle and
    never indexes past them; the first release never changes [iumd]:
    it is 0 in every turn. *)
Theorem run_position_index (rev : revision) (sc : scenario)
    (head : sim_t -> list channel_t) (g0 : gpstime_t) (ieph0 : nat)
    (ch : list channel_t) (n : nat) :
  0 < numd sc ->
  let st := run rev sc head n (loop_entry sc g0 ieph0 ch) in
  iumd st = match rev with
            | FirstRelease => 0
            | Reference => Z.of_nat n mod numd sc
            end
  /\ 0 <= iumd st < numd sc.
Proof.
  intros Hn st.
  assert (E : iumd st = match rev with
                        | FirstRelease => 0
                        | Reference => Z.of_nat n mod numd sc
                        end).
  { unfold st. rewrite iumd_run by (rewrite ?iumd_loop_entry; lia).
    rewrite iumd_loop_entry. destruct rev; reflexivity. }
  split; [exact E|]. rewrite E.
  destruct rev; [lia | apply Z.mod_pos_bound, Hn].
Qed.

End Loop.

Definition replay_scenario : scenario :=
  mk_scenario (replicate 13 (replicate 32 zero_ephem)) sample_ionoutc
              [mk_vec3 0 0 0; mk_vec3 1 0 0; mk_vec3 2 0 0] false 3 0.

Lemma run_position_index_witness :
  0 < numd replay_scenario
  /\ let st := run (env := sample_env) Reference replay_scenario
                 (fun st => chan (tables st)) 7
                 (loop_entry (env := sample_env) replay_scenario
                    (mk_gpstime 1823 0) 0 (replicate 12 zero_channel)) in
     iumd st = Z.of_nat 7 mod numd replay_scenario
     /\ 0 <= iumd st < numd replay_scenario.
Proof.
  assert (H : 0 < numd replay_scenario) by reflexivity.
  split; [exact H|].
  exact (run_position_index (env := sample_env) Reference replay_scenario
           (fun st => chan (tables st)) (mk_gpstime 1823 0) 0
           (replicate 12 zero_channel) 7 H).
Defined.

End LoopFacts.

(** ** The current set of ephemerides *)

Module StartupFacts.
Import GpsTime Engine Startup GpsTimeFacts.

(** Set [i] has a valid record whose clock time is within an hour of
    [g0]: not more than 3600 s after it and less than 3600 s before. *)
Definition current (eph : list (list ephem_t)) (g0 : gpstime_t) (i : nat) : Prop :=
  exists sv, (sv < MAX_SAT)%nat
    /\ e_vflg ((eph !!! i) !!! sv) = true
    /\ (- SECONDS_IN_HOUR <= subGpsTime g0 (toc ((eph !!! i) !!! sv))
        /\ subGpsTime g0 (toc ((eph !!! i) !!! sv)) < SECONDS_IN_HOUR)%Q.

Lemma in_window_spec g0 e :
  in_window g0 e = true
  <-> (- SECONDS_IN_HOUR <= subGpsTime g0 (toc e)
       /\ subGpsTime g0 (toc e) < SECONDS_IN_HOUR)%Q.
Proof.
  unfold in_window. cbv zeta. rewrite andb_true_iff, Qgeb_true, Qltb_true.
  reflexivity.
Qed.

Lemma select_sv_spec row g0 n : forall sv,
  select_sv n sv row g0 = true
  <-> exists k, (sv <= k < sv + n)%nat
        /\ e_vflg (row !!! k) = true /\ in_window g0 (row !!! k) = true.
Proof.
  induction n as [|n IH]; intros sv; cbn [select_sv].
  - split; [discriminate|]. intros (k & Hk & _). lia.
  - destruct (e_vflg (row !!! sv) && in_window g0 (row !!! sv)) eqn:E.
    + apply andb_true_iff in E as [E1 E2].
      split; [|reflexivity]. intros _. exists sv. split; [lia|]. split; assumption.
    + rewrite IH. split.
      * intros (k & Hk & H1 & H2). exists k. split; [lia|]. split; assumption.
      * intros (k & Hk & H1 & H2).
        destruct (decide (k = sv)) as [->|Hne].
        -- rewrite H1, H2 in E. discriminate E.
        -- exists k. split; [lia|]. split; assumption.
Qed.

Lemma select_sv_current eph g0 i :
  select_sv MAX_SAT 0 (eph !!! i) g0 = true <-> current eph g0 i.
Proof.
  rewrite select_sv_spec. unfold current. split.
  - intros (k & Hk & H1 & H2). exists k. split; [lia|]. split; [exact H1|].
    apply in_window_spec, H2.
  - intros (k & Hk & H1 & H2). exists k. split; [lia|]. split; [exact H1|].
    apply in_window_spec, H2.
Qed.

Lemma select_set_spec eph g0 n : forall i,
  let r := select_set n i eph g0 in
  (r = -1 /\ forall j, (i <= j < i + n)%nat -> ~ current eph g0 j)
  \/ (exists k, r = Z.of_nat k /\ (i <= k < i + n)%nat /\ current eph g0 k
        /\ forall j, (i <= j < k)%nat -> ~ current eph g0 j).
Proof.
  induction n as [|n IH]; intros i; cbv zeta; cbn [select_set].
  - left. split; [reflexivity|]. intros j Hj. lia.
  - destruct (select_sv MAX_SAT 0 (eph !!! i) g0) eqn:E.
    + right. exists i. split; [reflexivity|]. split; [lia|].
      split; [apply select_sv_current, E|]. intros j Hj. lia.
    + assert (Hi : ~ current eph g0 i).
      { intros H. apply select_sv_current in H. congruence. }
      destruct (IH (S i)) as [[R N]|(k & R & Hk & C & N)].
      * left. split; [exact R|]. intros j Hj.
        destruct (decide (j = i)) as [->|Hne]; [exact Hi | apply N; lia].
      * right. exists k. split; [exact R|]. split; [lia|]. split; [exact C|].
        intros j Hj.
        destruct (decide (j = i)) as [->|Hne]; [exact Hi | apply N; lia].
Qed.

(** X20: the selection of the current set in [main] leaves [ieph = -1]
    (and the program exits with "No current set of ephemerides") exactly
    when none of the [neph] sets has a valid record with a clock time
    within an hour of the start time; otherwise [ieph] is the lowest
    index of a set that has one, and 0 <= ieph < neph. *)
Theorem select_ieph_lowest_current (eph : list (list ephem_t)) (neph : Z)
    (g0 : gpstime_t) :
  let r := select_ieph eph neph g0 in
  (r = -1 <-> forall j, Z.of_nat j < neph -> ~ current eph g0 j)
  /\ (r <> -1 ->
      0 <= r < neph /\ current eph g0 (Z.to_nat r)
      /\ forall j, Z.of_nat j < r -> ~ current eph g0 j).
Proof.
  cbv zeta. unfold select_ieph.
  destruct (select_set_spec eph g0 (Z.to_nat neph) 0) as [[R N]|(k & R & Hk & C & N)];
    rewrite R.
  - split; [|intros H; contradiction].
    split; [|reflexivity]. intros _ j Hj. apply N. lia.
  - split.
    + split; [lia|]. intros H. exfalso. apply (H k); [lia | exact C].
    + intros _. split; [lia|]. rewrite Nat2Z.id. split; [exact C|].
      intros j Hj. apply N. lia.
Qed.

End StartupFacts.

(** ** Where binary64 rounding shows *)

Module Binary64Facts.
Import Binary64.

(** 59.99999999999999 as the compiler reads it: 60 - 2^-47. *)
Definition almost_sixty : float := 0x1.dffffffffffffp+5.

(** Saturday 2014-12-20 23:59:59.99999999999999: the sum of [date2gps]
    is 604800 - 2^-47, which is no binary64 number and rounds to
    604800.0, the first second of the next week; [gps2date] returns
    2014-12-21 00:00:00.  No field but the year and the month comes
    back. *)
Lemma roundtrip_next_day :
  let t := mk_datetime_b 2014 12 20 23 59 almost_sixty in
  date2gps t = mk_gpstime_b 1823 604800.0%float
  /\ gps2date (date2gps t) = mk_datetime_b 2014 12 21 0 0 0.0%float.
Proof. cbv zeta. split; vm_compute; reflexivity. Qed.

(** With seconds of few binary digits the same minute comes back as it
    is. *)
Lemma roundtrip_short_fraction :
  let t := mk_datetime_b 2014 12 20 23 59 59.75%float in
  gps2date (date2gps t) = t.
Proof. cbv zeta. vm_compute. reflexivity. Qed.

(** A carrier phase of 2^-60 and a step of -2^-59 cycles: the sum is
    negative, and adding 1.0 to it rounds to 1.0 itself.  The phase
    leaves [0, 1) and the table index is 512, while the sine and cosine
    tables have the entries 0 to 511. *)
Lemma carrier_phase_reaches_one :
  let phase := 0x1p-60%float in
  let f_carr := (- 0x1p-59)%float in
  carrier_step phase f_carr 1.0%float = 1.0%float
  /\ iTable (carrier_step phase f_carr 1.0%float) = 512.
Proof. cbv zeta. split; vm_compute; reflexivity. Qed.

(** Away from that interval the index stays in the tables: the same
    phase with a step of -2^-52. *)
Lemma carrier_phase_wraps :
  iTable (carrier_step 0x1p-60%float (- 0x1p-52)%float 1.0%float) = 511.
Proof. vm_compute. reflexivity. Qed.

End Binary64Facts.
